(** * The kanban board codec of gh-issue-manager

    A shallow embedding of [kanban.py] (data model, parser, serialiser,
    card operations, due-date helpers) and of the REST handlers of
    [server.py], followed by the properties of the board document that
    the specification states.

    Text.  A Python [str] is a list of characters, a character is its
    code point.  [str.isspace] and the class [\s] are given for every
    code point.  The class [\w] and [str.lower] are given as Python
    has them for the code points below 128 and for U+0130, whose
    lower case is the two characters "i" and U+0307; any other code
    point is taken as no word character and as its own lower case.
    The statements about what is read back from a written file and
    about the keys that the parser stores take their text to be made
    of ASCII characters.

    Files.  The board file is opened in text mode: [read_text] is
    what [read()] returns for the content of the file, with the line
    ends "\r\n" and "\r" read as "\n"; [write()] stores its text as
    it is, the line end of the system being "\n".  [parse_board] is
    the parser on the text that was read, [read_board] is the parser
    on the content of a file.

    Dictionaries.  A [dict] keeps insertion order, which [write_board]
    observes through [items()], so a dict is an association list
    whose keys are pairwise different.

    Integers.  Python [int] is [Z]; list positions produced by
    [enumerate] are [nat].

    Dates.  A [datetime.date] is its proleptic Gregorian ordinal
    ([date.toordinal]), so that the difference of two dates is the
    number of days of the [timedelta]. *)

From Stdlib Require Import Ascii String List ZArith NArith Lia Bool Arith.
From Stdlib Require Import Sorted Permutation.
Import ListNotations.

Local Open Scope list_scope.

(* ================================================================== *)
(** * Python strings *)
(* ================================================================== *)

(** A character is its code point. *)
Definition char := N.

Definition str := list char.

(** A string literal of ASCII characters. *)
Definition L (s : string) : str := map N_of_ascii (list_ascii_of_string s).

Definition nl : char := 10%N.

(** The carriage return. *)
Definition cr : char := 13%N.

Definition colon : char := 58%N.

(** LATIN CAPITAL LETTER I WITH DOT ABOVE and COMBINING DOT ABOVE. *)
Definition U0130 : char := 304%N.
Definition U0307 : char := 775%N.

Definition is_nl (c : char) : bool := N.eqb c nl.

Definition is_cr (c : char) : bool := N.eqb c cr.

Definition between (lo hi c : N) : bool := ((lo <=? c) && (c <=? hi))%N.

(** [str.isspace] on one character, which is also the class [\s]:
    TAB, LF, VT, FF, CR, the four separators 0x1c-0x1f, the space,
    and beyond ASCII U+0085, U+00A0, U+1680, U+2000-U+200A, U+2028,
    U+2029, U+202F, U+205F and U+3000. *)
Definition is_space (c : char) : bool :=
  between 9 13 c || between 28 32 c
  || N.eqb c 133 || N.eqb c 160 || N.eqb c 5760
  || between 8192 8202 c || between 8232 8233 c
  || N.eqb c 8239 || N.eqb c 8287 || N.eqb c 12288.

Definition is_upper (c : char) : bool := between 65 90 c.

(** The class [\w] on the characters the model knows: the ASCII
    letters, digits and underscore, and U+0130. *)
Definition is_word (c : char) : bool :=
  between 48 57 c || between 65 90 c || between 97 122 c
  || N.eqb c 95 || N.eqb c U0130.

(** [c.lower()]: U+0130 becomes the two characters "i" and U+0307. *)
Definition lower_char (c : char) : str :=
  if is_upper c then [(c + 32)%N]
  else if N.eqb c U0130 then [105%N; U0307]
  else [c].

(** [s.lower()] *)
Definition lower (s : str) : str := flat_map lower_char s.

(** A character of ASCII. *)
Definition is_ascii (c : char) : bool := (c <? 128)%N.

Fixpoint str_eqb (a b : str) : bool :=
  match a, b with
  | [], [] => true
  | x :: a', y :: b' => N.eqb x y && str_eqb a' b'
  | _, _ => false
  end.

(** [s.lstrip()], [s.rstrip()], [s.strip()] *)
Fixpoint lstrip (s : str) : str :=
  match s with
  | c :: s' => if is_space c then lstrip s' else s
  | [] => []
  end.

Definition rstrip (s : str) : str := rev (lstrip (rev s)).

Definition strip (s : str) : str := rstrip (lstrip s).

(** [s.startswith(p)] *)
Fixpoint startswith (p s : str) : bool :=
  match p, s with
  | [], _ => true
  | x :: p', y :: s' => N.eqb x y && startswith p' s'
  | _ :: _, [] => false
  end.

(** [s.split("\n")]: never empty, one more piece than there are
    newlines. *)
Fixpoint split_nl (s : str) : list str :=
  match s with
  | [] => [[]]
  | c :: s' =>
      if is_nl c then [] :: split_nl s'
      else match split_nl s' with
           | l :: ls => (c :: l) :: ls
           | [] => [[c]]
           end
  end.

(** ["\n".join(ls)] *)
Fixpoint join_nl (ls : list str) : str :=
  match ls with
  | [] => []
  | [l] => l
  | l :: ls' => l ++ nl :: join_nl ls'
  end.

(* ================================================================== *)
(** * The three regular expressions *)
(* ================================================================== *)

(** The longest prefix of characters that satisfy [p], and what
    follows it. *)
Fixpoint span (p : char -> bool) (s : str) : str * str :=
  match s with
  | c :: s' =>
      if p c then let (a, b) := span p s' in (c :: a, b) else ([], s)
  | [] => ([], [])
  end.

(** [(.+)$] at the current position: [.] is any character but the
    newline, and [$] holds at the end of the text or in front of a
    newline that ends it; a shorter run of [.] never reaches either. *)
Definition dot_plus_end (s : str) : option str :=
  match span (fun c => negb (is_nl c)) s with
  | ((_ :: _) as g, []) => Some g
  | ((_ :: _) as g, [_]) => Some g
  | _ => None
  end.

(** What follows the literal prefix [p] in [s], if [s] starts with
    it. *)
Fixpoint after_prefix (p s : str) : option str :=
  match p, s with
  | [], _ => Some s
  | x :: p', y :: s' => if N.eqb x y then after_prefix p' s' else None
  | _ :: _, [] => None
  end.

(** [re.match(r"^## (.+)$", line)], the value is [group(1)]. *)
Definition match_h2 (line : str) : option str :=
  match after_prefix (L "## ") line with
  | Some r => dot_plus_end r
  | None => None
  end.

(** [re.match(r"^### (.+)$", line)], the value is [group(1)]. *)
Definition match_h3 (line : str) : option str :=
  match after_prefix (L "### ") line with
  | Some r => dot_plus_end r
  | None => None
  end.

(** [\s*(.+)$]: the greedy [\s*] takes a white-space character first
    and gives it back when the rest does not match. *)
Fixpoint match_val (r : str) : option str :=
  match r with
  | c :: r' =>
      if is_space c then
        match match_val r' with
        | Some v => Some v
        | None => dot_plus_end r
        end
      else dot_plus_end r
  | [] => None
  end.

Definition is_key_char (c : char) : bool := is_word c || is_space c.

(** [re.match(r"^-\s+(\w[\w\s]*?):\s*(.+)$", s)], the value is
    [(group(1), group(2))].  No word character is white space, so
    [\s+] ends at the first character that is not white space; the
    colon is neither, so the lazy key ends at the first character that
    is neither, which has to be the colon. *)
Definition match_meta (s : str) : option (str * str) :=
  match after_prefix (L "-") s with
  | Some r =>
      match span is_space r with
      | (_ :: _, (c :: _) as r1) =>
          if is_word c then
            match span is_key_char r1 with
            | (key, e :: r2) =>
                if N.eqb e colon then
                  match match_val r2 with
                  | Some v => Some (key, v)
                  | None => None
                  end
                else None
            | _ => None
            end
          else None
      | _ => None
      end
  | None => None
  end.

(* ================================================================== *)
(** * Dictionaries *)
(* ================================================================== *)

Definition dict := list (str * str).

(** [d.get(k)] *)
Fixpoint dict_get (d : dict) (k : str) : option str :=
  match d with
  | (k', v) :: d' => if str_eqb k' k then Some v else dict_get d' k
  | [] => None
  end.

(** [k in d] *)
Definition dict_mem (d : dict) (k : str) : bool :=
  match dict_get d k with Some _ => true | None => false end.

(** [d[k] = v]: a key that is present keeps its place. *)
Fixpoint dict_set (d : dict) (k v : str) : dict :=
  match d with
  | (k', v') :: d' =>
      if str_eqb k' k then (k', v) :: d' else (k', v') :: dict_set d' k v
  | [] => [(k, v)]
  end.

(** [del d[k]] for a key that is present. *)
Fixpoint dict_del (d : dict) (k : str) : dict :=
  match d with
  | (k', v') :: d' =>
      if str_eqb k' k then d' else (k', v') :: dict_del d' k
  | [] => []
  end.

(* ================================================================== *)
(** * Data model *)
(* ================================================================== *)

Record Card := mkCard { title : str; meta : dict; body : str }.

(** The attribute [columns] of a [Board]: [(name, [Card, ...])] in
    order. *)
Definition Board := list (str * list Card).

Definition column_names (board : Board) : list str := map fst board.

Definition column_counts (board : Board) : list (str * nat) :=
  map (fun col => (fst col, length (snd col))) board.

(** [Board.get_column]: the cards of the first column whose name is
    [name] up to case, or [None]. *)
Fixpoint get_column (board : Board) (name : str) : option (list Card) :=
  match board with
  | (col_name, cards) :: rest =>
      if str_eqb (lower col_name) (lower name) then Some cards
      else get_column rest name
  | [] => None
  end.

(** [get_column] returns the list object itself; a mutation of that
    object is a replacement of the cards of the column it was found
    in.  No two columns of a parsed board share a list. *)
Fixpoint set_column (board : Board) (name : str) (cards' : list Card)
  : Board :=
  match board with
  | (col_name, cards) :: rest =>
      if str_eqb (lower col_name) (lower name) then (col_name, cards') :: rest
      else (col_name, cards) :: set_column rest name cards'
  | [] => []
  end.

(** [sum(len(cards) for _, cards in board.columns)] *)
Definition total_cards (board : Board) : nat :=
  list_sum (map (fun col => length (snd col)) board).

(* ================================================================== *)
(** * Parser *)
(* ================================================================== *)

(** [_parse_card_block]: the loop variables. *)
Record block_state := mkBlock
  { b_meta : dict; b_body_lines : list str; b_in_fence : bool }.

Definition fence : str := L "```".

Definition block_step (st : block_state) (line : str) : block_state :=
  let stripped := strip line in
  if startswith fence stripped then
    mkBlock (b_meta st) (b_body_lines st) (negb (b_in_fence st))
  else if b_in_fence st then
    mkBlock (b_meta st) (b_body_lines st ++ [stripped]) (b_in_fence st)
  else
    match match_meta stripped with
    | Some (k, v) =>
        mkBlock (dict_set (b_meta st) (lower (strip k)) (strip v))
                (b_body_lines st) (b_in_fence st)
    | None => st
    end.

Definition block_init : block_state := mkBlock [] [] false.

Definition block_run (lines : list str) : block_state :=
  fold_left block_step lines block_init.

Definition _parse_card_block (lines : list str) : dict * str :=
  let st := block_run lines in
  (b_meta st, strip (join_nl (b_body_lines st))).

(** [parse_board]: the variables shared with the two closures. *)
Record parse_state := mkParse
  { columns : Board;
    current_col : option str;
    current_cards : list Card;
    current_card : option str;
    card_lines : list str }.

Definition _flush_card (st : parse_state) : parse_state :=
  match current_card st with
  | Some t =>
      let (m, b) := _parse_card_block (card_lines st) in
      mkParse (columns st) (current_col st)
              (current_cards st ++ [mkCard t m b]) None []
  | None => st
  end.

Definition _flush_column (st : parse_state) : parse_state :=
  let st := _flush_card st in
  match current_col st with
  | Some c =>
      mkParse (columns st ++ [(c, current_cards st)]) None []
              (current_card st) (card_lines st)
  | None => st
  end.

Definition parse_step (st : parse_state) (line : str) : parse_state :=
  match match_h2 line with
  | Some g =>
      let st := _flush_column st in
      mkParse (columns st) (Some (strip g)) (current_cards st)
              (current_card st) (card_lines st)
  | None =>
      match match_h3 line with
      | Some g =>
          let st := _flush_card st in
          mkParse (columns st) (current_col st) (current_cards st)
                  (Some (strip g)) (card_lines st)
      | None =>
          match current_card st with
          | Some _ =>
              mkParse (columns st) (current_col st) (current_cards st)
                      (current_card st) (card_lines st ++ [line])
          | None => st
          end
      end
  end.

Definition parse_init : parse_state := mkParse [] None [] None [].

Definition parse_lines (lines : list str) : Board :=
  columns (_flush_column (fold_left parse_step lines parse_init)).

(** [parse_board], from the text of the file. *)
Definition parse_board (text : str) : Board := parse_lines (split_nl text).

(* ================================================================== *)
(** * Serialiser *)
(* ================================================================== *)

Definition meta_line (kv : str * str) : str :=
  L "  - " ++ fst kv ++ L ": " ++ snd kv.

Definition body_line (l : str) : str := L "    " ++ l.

Definition is_empty {A} (l : list A) : bool :=
  match l with [] => true | _ => false end.

(** The lines that [write_board] appends for one card. *)
Definition write_card (card : Card) : list str :=
  [L "### " ++ title card; []]
  ++ (if negb (is_empty (meta card)) || negb (is_empty (body card)) then
        map meta_line (meta card)
        ++ (if negb (is_empty (body card)) then
              [L "    ```md"]
              ++ map body_line (split_nl (body card))
              ++ [L "    ```"]
            else [])
        ++ [[]]
      else []).

Definition write_column (col : str * list Card) : list str :=
  [L "## " ++ fst col; []] ++ flat_map write_card (snd col).

Definition board_lines (board : Board) : list str :=
  flat_map write_column board.

(** [write_board], the text written to the file. *)
Definition write_board (board : Board) : str :=
  join_nl (board_lines board) ++ [nl].

(* ================================================================== *)
(** * The file *)
(* ================================================================== *)

(** What [read()] returns for a file of this content opened in text
    mode: the line ends "\r\n" and "\r" are read as "\n". *)
Fixpoint read_text (content : str) : str :=
  match content with
  | [] => []
  | c :: rest =>
      if is_cr c then
        match rest with
        | d :: _ => if is_nl d then read_text rest else nl :: read_text rest
        | [] => [nl]
        end
      else c :: read_text rest
  end.

(** [parse_board(path)] for a file of this content. *)
Definition read_board (content : str) : Board :=
  parse_board (read_text content).

(* ================================================================== *)
(** * Python lists *)
(* ================================================================== *)

(** [l.pop(i)] for [0 <= i]: the element and what is left of the
    list; [None] is [IndexError]. *)
Fixpoint pop {A} (l : list A) (i : nat) : option (A * list A) :=
  match l, i with
  | [], _ => None
  | x :: l', O => Some (x, l')
  | x :: l', S i' =>
      match pop l' i' with
      | Some (y, r) => Some (y, x :: r)
      | None => None
      end
  end.

(** The least index that fits a C [ssize_t]; [list.insert] raises
    [OverflowError] below it. *)
Definition ssize_t_min : Z := (- 2 ^ 63)%Z.

(** [l.insert(i, x)] for an [i] that fits: a negative [i] counts from
    the end, and the position is brought into [0 .. len(l)]. *)
Definition list_insert {A} (l : list A) (i : Z) (x : A) : list A :=
  let n := Z.of_nat (length l) in
  let j := if (i <? 0)%Z then Z.max 0 (i + n) else Z.min i n in
  firstn (Z.to_nat j) l ++ x :: skipn (Z.to_nat j) l.

(** [l[i] = x] for [0 <= i < len(l)]. *)
Fixpoint list_set {A} (l : list A) (i : nat) (x : A) : list A :=
  match l, i with
  | [], _ => []
  | _ :: l', O => x :: l'
  | y :: l', S i' => y :: list_set l' i' x
  end.

(** [enumerate(l)] counted from [i]. *)
Fixpoint enumerate_from {A} (i : nat) (l : list A) : list (nat * A) :=
  match l with
  | [] => []
  | x :: l' => (i, x) :: enumerate_from (S i) l'
  end.

(* ================================================================== *)
(** * Card operations of the terminal ([kanban.py]) *)
(* ================================================================== *)

(** What an interactive operation leaves behind: it returned without
    writing, it raised, or it wrote the board. *)
Inductive cli_result :=
| Unchanged
| Raised
| Saved (board : Board).

(** An entry of [options] in [_pick_card]: [(col_name, i, card)].  The
    card is the object at place [i] of the column at place
    [opt_col] of [board.columns]. *)
Record pick := mkPick
  { opt_col : nat; opt_name : str; opt_idx : nat; opt_card : Card }.

Fixpoint _pick_card_from (p : nat) (cols : Board)
  (exclude_columns : list str) : list pick :=
  match cols with
  | [] => []
  | (col_name, cards) :: rest =>
      (if existsb (str_eqb col_name) exclude_columns then []
       else map (fun ic => mkPick p col_name (fst ic) (snd ic))
                (enumerate_from 0 cards))
      ++ _pick_card_from (S p) rest exclude_columns
  end.

(** The [options] of [_pick_card]; the user's number selects one of
    them ([None] is BACK, QUIT or no card). *)
Definition _pick_card (board : Board) (exclude_columns : list str)
  (choice : option nat) : option pick :=
  match choice with
  | Some n => nth_error (_pick_card_from 0 board exclude_columns) n
  | None => None
  end.

(** [move_card]: [card_choice] answers [_pick_card], [col_choice]
    answers [pick_one] over the other column names. *)
Definition move_card (board : Board) (card_choice col_choice : option nat)
  : cli_result :=
  match _pick_card board [] card_choice with
  | None => Unchanged
  | Some result =>
      let from_col := opt_name result in
      let card_idx := opt_idx result in
      let card := opt_card result in
      let other_cols :=
        filter (fun n => negb (str_eqb n from_col)) (column_names board) in
      match col_choice with
      | None => Unchanged
      | Some k =>
          match nth_error other_cols k with
          | None => Unchanged
          | Some to_col =>
              match get_column board from_col with
              | None => Raised
              | Some src =>
                  match pop src card_idx with
                  | None => Raised
                  | Some (_, src') =>
                      let board := set_column board from_col src' in
                      match get_column board to_col with
                      | None => Raised
                      | Some dst =>
                          Saved (set_column board to_col (dst ++ [card]))
                      end
                  end
              end
          end
      end
  end.

(** The answer of [prompt]. *)
Inductive answer :=
| QUIT
| BACK
| NoAnswer
| Text (s : str).

Definition defaultExpanded : str := L "defaultExpanded".

(** [if new_title not in (BACK, None): card.title = new_title] *)
Definition store_title (card : Card) (new_title : answer) : Card :=
  match new_title with
  | Text s => mkCard s (meta card) (body card)
  | _ => card
  end.

(** The due date of [edit_card]: "none" removes the key when it is
    there, any other text is stored under it. *)
Definition store_due (card : Card) (new_due : answer) : Card :=
  match new_due with
  | Text s =>
      if str_eqb (lower s) (L "none") && dict_mem (meta card) (L "due")
      then mkCard (title card) (dict_del (meta card) (L "due")) (body card)
      else if negb (str_eqb (lower s) (L "none"))
      then mkCard (title card) (dict_set (meta card) (L "due") s)
                  (body card)
      else card
  | _ => card
  end.

(** [card.body = new_body], and the flag when the body is not empty
    and the card has none. *)
Definition store_body (card : Card) (new_body : str) : Card :=
  let card := mkCard (title card) (meta card) new_body in
  if negb (is_empty (body card))
     && negb (dict_mem (meta card) defaultExpanded)
  then mkCard (title card)
              (dict_set (meta card) defaultExpanded (L "false"))
              (body card)
  else card.

(** The body of [edit_card] after the card has been picked:
    [new_title] and [new_due] answer the two prompts, [edit_body] is
    [yn("Edit body?") is True], [new_body] is what [multiline]
    returned when it is neither BACK nor QUIT.  [None] is the return
    on QUIT, before anything is written. *)
Definition edit_card_fields (card : Card) (new_title new_due : answer)
  (edit_body : bool) (new_body : option str) : option Card :=
  match new_title with
  | QUIT => None
  | _ =>
      let card := store_title card new_title in
      match new_due with
      | QUIT => None
      | _ =>
          let card := store_due card new_due in
          Some (if edit_body then
                  match new_body with
                  | Some b => store_body card b
                  | None => card
                  end
                else card)
      end
  end.

(** [edit_card]: the picked card is edited where it is. *)
Definition edit_card (board : Board) (card_choice : option nat)
  (new_title new_due : answer) (edit_body : bool) (new_body : option str)
  : cli_result :=
  match _pick_card board [L "Done"] card_choice with
  | None => Unchanged
  | Some result =>
      match edit_card_fields (opt_card result) new_title new_due
              edit_body new_body with
      | None => Unchanged
      | Some card' =>
          Saved
            (map (fun pc =>
                    if Nat.eqb (fst pc) (opt_col result)
                    then (fst (snd pc),
                          list_set (snd (snd pc)) (opt_idx result) card')
                    else snd pc)
                 (enumerate_from 0 board))
      end
  end.

(* ================================================================== *)
(** * REST handlers ([server.py]) *)
(* ================================================================== *)

Module Server.

(** What a handler answers: the board as JSON, or the status of the
    [HTTPException] it raised (500 for any other exception). *)
Inductive response :=
| Ok (board : Board)
| HTTPException (status : Z).

Record MovePayload := mkMove
  { from_column : str; from_index : Z; to_column : str; to_index : Z }.

(** [_col_or_404]: [inr 404] is the exception. *)
Definition _col_or_404 (board : Board) (name : str) : list Card + Z :=
  match get_column board name with
  | Some col => inl col
  | None => inr 404%Z
  end.

Definition out_of_range {A} (index : Z) (col : list A) : bool :=
  ((index <? 0) || (index >=? Z.of_nat (length col)))%Z.

(** Every handler takes the text of the board file and answers with
    its response and the text of the file afterwards. *)

Definition get_board (file : str) : response * str :=
  (Ok (parse_board file), file).


Definition add_card (file : str) (column title : str) (meta : dict)
  (body : str) : response * str :=
  let board := parse_board file in
  match _col_or_404 board column with
  | inr e => (HTTPException e, file)
  | inl col =>
      let board := set_column board column (col ++ [mkCard title meta body]) in
      (Ok board, write_board board)
  end.

Definition move_card (file : str) (payload : MovePayload)
  : response * str :=
  let board := parse_board file in
  match _col_or_404 board (from_column payload) with
  | inr e => (HTTPException e, file)
  | inl src =>
      match _col_or_404 board (to_column payload) with
      | inr e => (HTTPException e, file)
      | inl _ =>
          if out_of_range (from_index payload) src
          then (HTTPException 400, file)
          else
            match pop src (Z.to_nat (from_index payload)) with
            | None => (HTTPException 500, file) (* IndexError, not reached *)
            | Some (card, src') =>
                let board := set_column board (from_column payload) src' in
                (* [dst] is [src] itself when both names find the same
                   column *)
                match get_column board (to_column payload) with
                | None => (HTTPException 500, file) (* not reached *)
                | Some dst =>
                    let i := Z.min (to_index payload)
                                   (Z.of_nat (length dst)) in
                    if (i <? ssize_t_min)%Z
                    then (HTTPException 500, file) (* OverflowError *)
                    else
                      let board :=
                        set_column board (to_column payload)
                                   (list_insert dst i card) in
                      (Ok board, write_board board)
                end
            end
      end
  end.

Definition edit_card (file : str) (column : str) (index : Z)
  (title : str) (meta : dict) (body : str) : response * str :=
  let board := parse_board file in
  match _col_or_404 board column with
  | inr e => (HTTPException e, file)
  | inl col =>
      if out_of_range index col then (HTTPException 400, file)
      else
        let board :=
          set_column board column
            (list_set col (Z.to_nat index) (mkCard title meta body)) in
        (Ok board, write_board board)
  end.

Definition delete_card (file : str) (column : str) (index : Z)
  : response * str :=
  let board := parse_board file in
  match _col_or_404 board column with
  | inr e => (HTTPException e, file)
  | inl col =>
      if out_of_range index col then (HTTPException 400, file)
      else
        match pop col (Z.to_nat index) with
        | None => (HTTPException 500, file) (* IndexError, not reached *)
        | Some (_, col') =>
            let board := set_column board column col' in
            (Ok board, write_board board)
        end
  end.

End Server.

(* ================================================================== *)
(** * Due dates *)
(* ================================================================== *)

(** The tag of a card in the section "This Week" of the dashboard. *)
Inductive tag :=
| InProgress
| InProgressOverdue (days : Z)
| Overdue (days : Z)
| DueToday
| DueTomorrow
| DueOn (due : Z).

(** The hint of a card in the section "Top Todos". *)
Inductive due_str :=
| NoHint
| HintOverdue (days : Z)
| HintToday
| HintThisWeek (due : Z)
| HintLater (due : Z).

(** [date.weekday()]: Monday is 0. *)
Definition weekday (d : Z) : Z := ((d + 6) mod 7)%Z.

(** [datetime.date.max.toordinal()] *)
Definition date_max : Z := 3652059%Z.

Section DueDate.

(** [datetime.date.fromisoformat] on a string: [None] is the
    [ValueError] of a text that is not a date. *)
Variable fromisoformat : str -> option Z.

Definition _parse_due (card : Card) : option Z :=
  match dict_get (meta card) (L "due") with
  | None => None
  | Some raw => if is_empty raw then None else fromisoformat raw
  end.

(** The loop body of the first section of [_show_dashboard]: the
    entry [(tag, sort_date)] that the card adds to [focus_items], if
    any. *)
Definition focus_item (today : Z) (col_name : str) (card : Card)
  : option (tag * Z) :=
  let week_start := (today - weekday today)%Z in
  let week_end := (week_start + 6)%Z in
  if str_eqb (lower col_name) (L "done") then None
  else
    let is_wip := str_eqb (lower col_name) (L "in progress") in
    let due := _parse_due card in
    if is_wip then
      match due with
      | Some d =>
          Some (if (d <? today)%Z then InProgressOverdue (today - d)
                else InProgress, d)
      | None => Some (InProgress, date_max)
      end
    else
      match due with
      | Some d =>
          if (d <? today)%Z then Some (Overdue (today - d), d)
          else if (d <=? week_end)%Z then
            let delta := (d - today)%Z in
            Some (if (delta =? 0)%Z then DueToday
                  else if (delta =? 1)%Z then DueTomorrow
                  else DueOn d, d)
          else None
      | None => None
      end.

(** The hint of the second section of [_show_dashboard]. *)
Definition todo_due_str (today : Z) (card : Card) : due_str :=
  match _parse_due card with
  | Some d =>
      let delta := (d - today)%Z in
      if (delta <? 0)%Z then HintOverdue (Z.abs delta)
      else if (delta =? 0)%Z then HintToday
      else if (delta <=? 7)%Z then HintThisWeek d
      else HintLater d
  | None => NoHint
  end.

End DueDate.

(** Two values of [date.fromisoformat]: 10 January 2025, a Friday,
    and the day before. *)
Definition fromisoformat_sample (s : str) : option Z :=
  if str_eqb s (L "2025-01-10") then Some 739261%Z
  else if str_eqb s (L "2025-01-09") then Some 739260%Z
  else None.

(* ================================================================== *)
(** * Predicates of the statements *)
(* ================================================================== *)

(** No newline in [s]. *)
Definition no_nl (s : str) : Prop :=
  forallb (fun c => negb (is_nl c)) s = true.

Definition all_space (s : str) : Prop := forallb is_space s = true.

(** [s] does not start with white space. *)
Definition hd_ok (s : str) : Prop :=
  match s with
  | [] => True
  | c :: _ => is_space c = false
  end.

(** A heading text as the parser stores it: trimmed, on one line. *)
Definition tidy (s : str) : Prop := strip s = s /\ no_nl s.

(** A key as the parser stores it. *)
Definition valid_key (k : str) : Prop :=
  match k with
  | [] => False
  | c :: _ => is_word c = true
  end
  /\ forallb is_key_char k = true
  /\ lower k = k
  /\ tidy k.

Definition valid_value (v : str) : Prop := v <> [] /\ tidy v.

Definition valid_meta (m : dict) : Prop :=
  NoDup (map fst m)
  /\ Forall (fun kv => valid_key (fst kv) /\ valid_value (snd kv)) m.

(** A line of a body as the parser stores it. *)
Definition body_line_ok (l : str) : Prop :=
  strip l = l /\ startswith fence l = false /\ no_nl l.

Definition valid_body (b : str) : Prop :=
  strip b = b /\ Forall body_line_ok (split_nl b).

(** The shape of the cards and boards that the parser builds. *)
Definition codec_card (c : Card) : Prop :=
  tidy (title c) /\ valid_meta (meta c) /\ valid_body (body c).

Definition codec_board (board : Board) : Prop :=
  Forall (fun col => tidy (fst col) /\ Forall codec_card (snd col)) board.

(** No column and no card has an empty name. *)
Definition named (board : Board) : Prop :=
  Forall (fun col => fst col <> []
                     /\ Forall (fun c => title c <> []) (snd col)) board.

(** A card or a board with the shape of the parser's and with names
    that are not empty. *)
Definition valid_card (c : Card) : Prop := title c <> [] /\ codec_card c.

Definition valid_column (col : str * list Card) : Prop :=
  (fst col <> [] /\ tidy (fst col)) /\ Forall valid_card (snd col).

Definition valid_board (board : Board) : Prop := Forall valid_column board.

(** A line that opens neither a column nor a card. *)
Definition non_heading (l : str) : Prop :=
  match_h2 l = None /\ match_h3 l = None.

(** Text of ASCII characters. *)
Definition ascii_text (s : str) : Prop := forallb is_ascii s = true.

(** A character of ASCII other than the carriage return. *)
Definition is_plain (c : char) : bool := is_ascii c && negb (is_cr c).

(** Text of ASCII characters without carriage return, and the cards
    and boards whose strings are such text. *)
Definition plain_text (s : str) : Prop := forallb is_plain s = true.

Definition plain_card (c : Card) : Prop :=
  plain_text (title c)
  /\ Forall (fun kv => plain_text (fst kv) /\ plain_text (snd kv)) (meta c)
  /\ plain_text (body c).

Definition plain_board (board : Board) : Prop :=
  Forall (fun col => plain_text (fst col) /\ Forall plain_card (snd col))
         board.

Definition plain_inv (st : parse_state) : Prop :=
  plain_board (columns st)
  /\ (forall n, current_col st = Some n -> plain_text n)
  /\ Forall plain_card (current_cards st)
  /\ (forall t, current_card st = Some t -> plain_text t)
  /\ Forall plain_text (card_lines st).

(** The shape of the parser's cards and boards with [kp] for what is
    known of a key. *)
Definition meta_with (kp : str -> Prop) (m : dict) : Prop :=
  NoDup (map fst m)
  /\ Forall (fun kv => kp (fst kv) /\ valid_value (snd kv)) m.

Definition card_with (kp : str -> Prop) (c : Card) : Prop :=
  tidy (title c) /\ meta_with kp (meta c) /\ valid_body (body c).

Definition board_with (kp : str -> Prop) (board : Board) : Prop :=
  Forall (fun col => tidy (fst col) /\ Forall (card_with kp) (snd col))
         board.

(** What holds of the variables of [parse_board] between two lines,
    when [lp] holds of the lines read. *)
Definition parse_inv (lp kp : str -> Prop) (st : parse_state) : Prop :=
  board_with kp (columns st)
  /\ (forall n, current_col st = Some n -> tidy n)
  /\ Forall (card_with kp) (current_cards st)
  /\ (forall t, current_card st = Some t -> tidy t)
  /\ Forall (fun l => no_nl l /\ lp l) (card_lines st).

(** A valid board file: every column heading and every card heading
    carries a name (the title of a card is a non-empty string). *)
Definition valid_file (text : str) : Prop := named (parse_board text).

(** Every heading line of the file carries a name that is not blank. *)
Definition headings_named (lines : list str) : Prop :=
  Forall (fun l => match match_h2 l with
                   | Some g => strip g <> []
                   | None =>
                       match match_h3 l with
                       | Some g => strip g <> []
                       | None => True
                       end
                   end) lines.

(** The names read so far are not empty. *)
Definition named_inv (st : parse_state) : Prop :=
  named (columns st)
  /\ (forall n, current_col st = Some n -> n <> [])
  /\ Forall (fun c => title c <> []) (current_cards st)
  /\ (forall t, current_card st = Some t -> t <> []).



(** The trimmed names of the column headings of a file, in order. *)
Definition heading_names (lines : list str) : list str :=
  flat_map (fun l => match match_h2 l with
                     | Some g => [strip g]
                     | None => []
                     end) lines.

(** The names of the columns read so far, the open one included. *)
Definition names_so_far (st : parse_state) : list str :=
  column_names (columns st)
  ++ match current_col st with Some n => [n] | None => [] end.

(** The cards read from lines that come before any column heading. *)
Definition pre_column_cards (pre : list str) : list Card :=
  current_cards (_flush_card (fold_left parse_step pre parse_init)).

(** [cards] put in front of the cards of the first column. *)
Definition attach_first (cards : list Card) (board : Board) : Board :=
  match board with
  | (n, cs) :: cols => (n, cards ++ cs) :: cols
  | [] => []
  end.

(** The state of the parser with [cards] waiting from before the first
    column heading: they are in the first column once there is one,
    and in [current_cards] until then. *)
Definition with_orphans (cards : list Card) (st : parse_state)
  : parse_state :=
  mkParse (attach_first cards (columns st)) (current_col st)
          (if is_empty (columns st) then cards ++ current_cards st
           else current_cards st)
          (current_card st) (card_lines st).

(** A column is open or closed already. *)
Definition opened (st : parse_state) : Prop :=
  columns st = [] -> current_col st <> None.

(** Lines are kept for a card only. *)
Definition clean (st : parse_state) : Prop :=
  current_card st = None -> card_lines st = [].




(* ================================================================== *)
(** * Input primitives ([ui.py]) *)
(* ================================================================== *)

Definition ui_BACK : str := L "__BACK__".
Definition ui_QUIT : str := L "__QUIT__".

(** [prompt(text, default)]: [input] is the line that was typed, or
    [None] at the end of the input or on an interrupt; the value is a
    string or [None]. *)
Definition prompt (input : option str) (default : option str)
  : option str :=
  match input with
  | None => Some ui_QUIT
  | Some line =>
      let raw := strip line in
      if str_eqb (lower raw) (L "q") then Some ui_QUIT
      else if str_eqb (lower raw) (L "b") then Some ui_BACK
      else if is_empty raw then default else Some raw
  end.

(** What [yn] returns: [True], a value that is false, BACK or QUIT. *)
Inductive yn_answer :=
| Yes
| No
| YnBACK
| YnQUIT.

(** [yn(text)] *)
Definition yn (input : option str) : yn_answer :=
  match prompt input (Some (L "y")) with
  | Some raw =>
      if str_eqb raw ui_BACK then YnBACK
      else if str_eqb raw ui_QUIT then YnQUIT
      else if negb (is_empty raw) && startswith (L "y") (lower raw)
      then Yes else No
  | None => No
  end.

(** [yn(text) is True] *)
Definition yn_is_true (input : option str) : bool :=
  match yn input with Yes => true | _ => false end.

(** The loop of [multiline]: [inputs] are the lines that are typed,
    the input ends after them; [lines] are the lines kept so far. *)
Fixpoint multiline_loop (first : bool) (inputs lines : list str)
  : answer :=
  match inputs with
  | [] => QUIT
  | line :: rest =>
      if first && str_eqb (lower (strip line)) (L "b") then BACK
      else if first && str_eqb (lower (strip line)) (L "q") then QUIT
      else if is_empty line then Text (join_nl lines)
      else multiline_loop false rest (lines ++ [line])
  end.

(** [multiline(title)] *)
Definition multiline (inputs : list str) : answer :=
  multiline_loop true inputs [].

(** What a step function of [run_steps] returns: [True], QUIT, BACK
    or anything else; with QUIT comes the line typed at the question
    "Abandon and return to menu?", [None] at the end of the input. *)
Inductive step_result :=
| StepTrue
| StepStay
| StepBACK
| StepQUIT (abandon : option str).

(** The loop of [run_steps] over [n] steps, at step [idx]: [results]
    are the values that the step functions return, one for each turn
    of the loop.  [Some b] is the value returned, [None] says that
    the loop has not returned after these turns. *)
Fixpoint run_steps_from (n idx : nat) (results : list step_result)
  : option bool :=
  if (idx <? n)%nat then
    match results with
    | [] => None
    | StepQUIT abandon :: rest =>
        if yn_is_true abandon then Some false
        else run_steps_from n idx rest
    | StepBACK :: rest => run_steps_from n (Nat.max 0 (idx - 1)) rest
    | StepTrue :: rest => run_steps_from n (idx + 1) rest
    | StepStay :: rest => run_steps_from n idx rest
    end
  else Some true.

(** The number of times that a step returned [True]. *)
Definition completed (results : list step_result) : nat :=
  length (filter (fun r => match r with StepTrue => true | _ => false end)
                 results).

(** [run_steps(steps, state)] with [n = len(steps)] *)
Definition run_steps (n : nat) (results : list step_result)
  : option bool :=
  run_steps_from n 0 results.

(* ================================================================== *)
(** * More card operations of the terminal *)
(* ================================================================== *)

(** The meta that [add_card] builds from the due date and the body. *)
Definition add_card_meta (due : answer) (body_text : str) : dict :=
  let meta := [] in
  let meta :=
    match due with
    | Text d =>
        if negb (is_empty d) && negb (str_eqb (lower d) (L "skip"))
        then dict_set meta (L "due") d else meta
    | _ => meta
    end in
  if negb (is_empty body_text)
  then dict_set meta defaultExpanded (L "false") else meta.

(** [add_card]: [col_choice] answers [pick_one] over the column
    names, [title] and [due] answer the two prompts, [body_text] is
    what [multiline] returned. *)
Definition add_card (board : Board) (col_choice : option nat)
  (title due body_text : answer) : cli_result :=
  match col_choice with
  | None => Unchanged
  | Some k =>
      match nth_error (column_names board) k with
      | None => Unchanged
      | Some col =>
          match title, due, body_text with
          | Text title, (NoAnswer | Text _), (BACK | NoAnswer | Text _) =>
              let body_text :=
                match body_text with Text s => s | _ => [] end in
              let card :=
                mkCard title (add_card_meta due body_text) body_text in
              match get_column board col with
              | None => Raised
              | Some target => Saved (set_column board col (target ++ [card]))
              end
          | _, _, _ => Unchanged
          end
      end
  end.

(** [archive_card]: [confirm] is [yn(...) is True]. *)
Definition archive_card (board : Board) (card_choice : option nat)
  (confirm : bool) : cli_result :=
  match get_column board (L "Done") with
  | None => Unchanged
  | Some _ =>
      match _pick_card board [L "Done"] card_choice with
      | None => Unchanged
      | Some result =>
          if confirm then
            match get_column board (opt_name result) with
            | None => Raised
            | Some src =>
                match pop src (opt_idx result) with
                | None => Raised
                | Some (_, src') =>
                    let board := set_column board (opt_name result) src' in
                    (* [done_cards] is the list found first *)
                    match get_column board (L "Done") with
                    | None => Raised
                    | Some done_cards =>
                        Saved (set_column board (L "Done")
                                 (done_cards ++ [opt_card result]))
                    end
                end
            end
          else Unchanged
      end
  end.

(** [delete_card]: [confirm] is [yn(...) is True]. *)
Definition delete_card (board : Board) (card_choice : option nat)
  (confirm : bool) : cli_result :=
  match _pick_card board [] card_choice with
  | None => Unchanged
  | Some result =>
      if confirm then
        match get_column board (opt_name result) with
        | None => Raised
        | Some src =>
            match pop src (opt_idx result) with
            | None => Raised
            | Some (_, src') =>
                Saved (set_column board (opt_name result) src')
            end
        end
      else Unchanged
  end.

(* ================================================================== *)
(** * What is read back from a written board *)
(* ================================================================== *)

(** The meta that the parser reads from the written entries: the keys
    in lower case, a later entry replacing an earlier one of the same
    key. *)
Definition norm_meta (m : dict) : dict :=
  fold_left (fun d kv => dict_set d (lower (fst kv)) (snd kv)) m [].

(** The body that the parser reads from a written body: every line
    trimmed, and the whole trimmed. *)
Definition norm_body (b : str) : str :=
  strip (join_nl (map strip (split_nl b))).

Definition norm_card (c : Card) : Card :=
  mkCard (title c) (norm_meta (meta c)) (norm_body (body c)).

Definition norm_board (board : Board) : Board :=
  map (fun col => (fst col, map norm_card (snd col))) board.

(** A key that is found again in its written line, in any case. *)
Definition writable_key (k : str) : Prop :=
  match k with
  | [] => False
  | c :: _ => is_word c = true
  end
  /\ forallb is_key_char k = true
  /\ tidy k.

(** A card whose written lines are read as one card: the title is
    trimmed, on one line and not empty, every key is writable, every
    value is trimmed, on one line and not empty, and no line of the
    body starts, white space aside, with three backticks. *)
Definition writable_card (c : Card) : Prop :=
  (title c <> [] /\ tidy (title c))
  /\ Forall (fun kv => writable_key (fst kv) /\ valid_value (snd kv))
            (meta c)
  /\ Forall (fun l => startswith fence (strip l) = false)
            (split_nl (body c)).

Definition writable_board (board : Board) : Prop :=
  Forall (fun col => (fst col <> [] /\ tidy (fst col))
                     /\ Forall writable_card (snd col)) board.

(* ================================================================== *)
(** * The lists of the dashboard *)
(* ================================================================== *)

(** [l.sort(key=...)] keeps the order of the elements whose keys are
    equal; the list it makes is the one of the insertion sort that
    puts every element in front of the first element, among those
    behind it, whose key is not smaller. *)
Fixpoint insert_by {A} (key : A -> Z) (x : A) (l : list A) : list A :=
  match l with
  | [] => [x]
  | y :: l' =>
      if (key x <=? key y)%Z then x :: l else y :: insert_by key x l'
  end.

Definition sort_by {A} (key : A -> Z) (l : list A) : list A :=
  fold_right (insert_by key) [] l.

(** The order of the second section: by date, the cards without a
    date last. *)
Definition due_le (a b : option Z) : Prop :=
  match a, b with
  | Some x, Some y => (x <= y)%Z
  | _, None => True
  | None, Some _ => False
  end.

Section Dashboard.

Variable fromisoformat : str -> option Z.

(** [focus_items] of [_show_dashboard] after the sort: the card, the
    name of its column, its tag and its date. *)
Definition focus_items (today : Z) (board : Board)
  : list (Card * str * tag * Z) :=
  sort_by (fun x => snd x)
    (flat_map
       (fun col =>
          flat_map
            (fun card =>
               match focus_item fromisoformat today (fst col) card with
               | Some (tg, d) => [(card, fst col, tg, d)]
               | None => []
               end)
            (snd col))
       board).

(** [top] of [_show_dashboard]: the cards of "To Do" with a date,
    sorted, then those without, fifteen at most. *)
Definition top_todos (board : Board) : list (Card * option Z) :=
  let todo_cards :=
    match get_column board (L "To Do") with
    | Some cards => cards
    | None => []
    end in
  let dated :=
    flat_map (fun card => match _parse_due fromisoformat card with
                          | Some due => [(card, due)]
                          | None => []
                          end) todo_cards in
  let undated :=
    filter (fun card => match _parse_due fromisoformat card with
                        | Some _ => false
                        | None => true
                        end) todo_cards in
  let dated := sort_by (fun x => snd x) dated in
  firstn 15 (map (fun cd => (fst cd, Some (snd cd))) dated
             ++ map (fun c => (c, None)) undated).

End Dashboard.

(* ================================================================== *)
(** * Measures of the parser *)
(* ================================================================== *)

(** The line opens a card: [h3] matches and [h2] does not. *)
Definition is_card_heading (l : str) : bool :=
  match match_h2 l with
  | Some _ => false
  | None => match match_h3 l with Some _ => true | None => false end
  end.

(** The number of card headings among the lines. *)
Definition card_headings (lines : list str) : nat :=
  length (filter is_card_heading lines).

(** The cards read so far: those of the closed columns, those of the
    open one and the card whose lines are being collected. *)
Definition cards_so_far (st : parse_state) : nat :=
  total_cards (columns st) + length (current_cards st)
  + match current_card st with Some _ => 1 | None => 0 end.

(** Once a column heading was read a column is open. *)
Definition column_open (st : parse_state) : Prop :=
  names_so_far st <> [] -> current_col st <> None.

(* ================================================================== *)
(** * Characters *)
(* ================================================================== *)

Ltac char_unfold :=
  unfold is_word, is_space, is_upper, is_nl, is_cr, is_ascii, lower_char,
    between, nl, cr, colon, U0130, U0307 in *.

Ltac bool_prop :=
  repeat rewrite ?orb_true_iff, ?andb_true_iff, ?orb_false_iff,
    ?andb_false_iff, ?negb_true_iff, ?negb_false_iff,
    ?N.leb_le, ?N.leb_gt, ?N.eqb_eq, ?N.eqb_neq,
    ?N.ltb_lt, ?N.ltb_ge in *.

Ltac chars := char_unfold; bool_prop; lia.

Ltac same_class := apply eq_true_iff_eq; chars.

Lemma is_word_not_space c : is_word c = true -> is_space c = false.
Proof. intros H. chars. Qed.

Lemma is_nl_space c : is_nl c = true -> is_space c = true.
Proof. intros H. chars. Qed.

Lemma lower_char_fixed c :
  is_upper c = false -> c <> U0130 -> lower_char c = [c].
Proof.
  intros U E. unfold lower_char. rewrite U.
  apply N.eqb_neq in E. now rewrite E.
Qed.

(** What [lower] makes of one character: one character of the same
    classes, but for U+0130. *)
Lemma lower_char_cases c :
  (c = U0130 /\ lower_char c = [105%N; U0307])
  \/ (c <> U0130
      /\ exists c', lower_char c = [c']
                    /\ is_word c' = is_word c
                    /\ is_space c' = is_space c
                    /\ is_nl c' = is_nl c
                    /\ is_cr c' = is_cr c
                    /\ is_ascii c' = is_ascii c
                    /\ lower_char c' = [c']).
Proof.
  destruct (N.eq_dec c U0130) as [E | E]; [left | right].
  - subst c. split; reflexivity.
  - split; [exact E|]. unfold lower_char at 1.
    destruct (is_upper c) eqn:U.
    + exists (c + 32)%N. split; [reflexivity|].
      assert (65 <= c <= 90)%N by chars.
      repeat split; try same_class.
      apply lower_char_fixed; chars.
    + apply N.eqb_neq in E. rewrite E. apply N.eqb_neq in E.
      exists c. repeat split. now apply lower_char_fixed.
Qed.

Lemma lower_cons c s : lower (c :: s) = lower_char c ++ lower s.
Proof. reflexivity. Qed.

Lemma lower_char_idem c : lower (lower_char c) = lower_char c.
Proof.
  destruct (lower_char_cases c) as [[-> ->] | [_ (c' & -> & H)]].
  - reflexivity.
  - destruct H as (_ & _ & _ & _ & _ & E).
    rewrite lower_cons, E. reflexivity.
Qed.

Lemma is_nl_eq c : is_nl c = true -> c = nl.
Proof. unfold is_nl. intros H. now apply N.eqb_eq in H. Qed.

Lemma str_eqb_eq a b : str_eqb a b = true <-> a = b.
Proof.
  revert b. induction a as [|x a IH]; intros [|y b]; simpl;
    try (split; [discriminate | discriminate]); try tauto.
  rewrite andb_true_iff, N.eqb_eq, IH. split.
  - intros [-> ->]. reflexivity.
  - intros E. injection E. auto.
Qed.

Lemma str_eqb_refl a : str_eqb a a = true.
Proof. apply str_eqb_eq. reflexivity. Qed.

Lemma str_eqb_neq a b : str_eqb a b = false <-> a <> b.
Proof.
  rewrite <- str_eqb_eq. destruct (str_eqb a b); split; congruence.
Qed.

(* ================================================================== *)
(** * Trimming *)
(* ================================================================== *)

Lemma lstrip_split s :
  exists w, s = w ++ lstrip s /\ all_space w.
Proof.
  induction s as [|c s [w [E W]]]; simpl.
  - exists []. split; reflexivity.
  - destruct (is_space c) eqn:C.
    + exists (c :: w). split.
      * simpl. congruence.
      * unfold all_space. simpl. rewrite C. exact W.
    + exists []. split; reflexivity.
Qed.

Lemma hd_ok_lstrip s : hd_ok (lstrip s).
Proof.
  induction s as [|c s IH]; simpl; auto.
  destruct (is_space c) eqn:C; simpl; auto.
Qed.

Lemma lstrip_hd_ok s : hd_ok s -> lstrip s = s.
Proof. destruct s as [|c s]; simpl; auto. intros ->. reflexivity. Qed.

Lemma lstrip_all_space w s : all_space w -> lstrip (w ++ s) = lstrip s.
Proof.
  unfold all_space. induction w as [|c w IH]; simpl; auto.
  intros H. apply andb_true_iff in H as [-> H]. auto.
Qed.


Lemma hd_ok_app s t : s <> [] -> hd_ok s -> hd_ok (s ++ t).
Proof. destruct s; simpl; congruence. Qed.

Lemma rstrip_split s :
  exists w, s = rstrip s ++ w /\ all_space w.
Proof.
  destruct (lstrip_split (rev s)) as [w [E W]].
  exists (rev w). split.
  - unfold rstrip. rewrite <- rev_app_distr, <- E, rev_involutive.
    reflexivity.
  - unfold all_space in *. rewrite forallb_forall in *.
    intros x Hx. apply W. now apply in_rev.
Qed.

Lemma hd_ok_rev_rstrip s : hd_ok (rev (rstrip s)).
Proof. unfold rstrip. rewrite rev_involutive. apply hd_ok_lstrip. Qed.

Lemma rstrip_hd_ok s : hd_ok (rev s) -> rstrip s = s.
Proof.
  intros H. unfold rstrip. rewrite lstrip_hd_ok by exact H.
  apply rev_involutive.
Qed.

Lemma hd_ok_rstrip s : hd_ok s -> hd_ok (rstrip s).
Proof.
  intros H. destruct (rstrip_split s) as [w [E _]].
  destruct (rstrip s) as [|c r] eqn:R; simpl; auto.
  rewrite E in H. exact H.
Qed.

Lemma hd_ok_strip s : hd_ok (strip s).
Proof. apply hd_ok_rstrip, hd_ok_lstrip. Qed.

Lemma hd_ok_rev_strip s : hd_ok (rev (strip s)).
Proof. apply hd_ok_rev_rstrip. Qed.

Lemma strip_fixed s : hd_ok s -> hd_ok (rev s) -> strip s = s.
Proof.
  intros H1 H2. unfold strip. rewrite lstrip_hd_ok by exact H1.
  now apply rstrip_hd_ok.
Qed.

Lemma strip_fixed_inv s : strip s = s -> hd_ok s /\ hd_ok (rev s).
Proof.
  intros E. rewrite <- E. split.
  - apply hd_ok_strip.
  - apply hd_ok_rev_strip.
Qed.

Lemma strip_idem s : strip (strip s) = strip s.
Proof. apply strip_fixed; [apply hd_ok_strip | apply hd_ok_rev_strip]. Qed.

Lemma strip_nil : strip [] = [].
Proof. reflexivity. Qed.

Lemma strip_all_space w s : all_space w -> strip (w ++ s) = strip s.
Proof. intros W. unfold strip. now rewrite lstrip_all_space. Qed.

(** A trimmed text that is not empty ends with a character that is
    not white space, and so does every text that ends with it. *)
Lemma hd_ok_rev_suffix a s :
  s <> [] -> hd_ok (rev s) -> hd_ok (rev (a ++ s)).
Proof.
  intros N H. rewrite rev_app_distr. apply hd_ok_app; auto.
  intros E. apply N. apply (f_equal (@rev char)) in E.
  rewrite rev_involutive in E. exact E.
Qed.

Lemma hd_ok_rev_of_suffix a s :
  s <> [] -> hd_ok (rev (a ++ s)) -> hd_ok (rev s).
Proof.
  intros N H. rewrite rev_app_distr in H.
  destruct (rev s) as [|c r] eqn:R.
  - exact I.
  - exact H.
Qed.

Lemma all_space_hd_ok s : all_space s -> hd_ok s -> s = [].
Proof.
  destruct s as [|c s]; auto. unfold all_space. simpl.
  intros H1 H2. rewrite H2 in H1. discriminate.
Qed.

Lemma all_space_rev s : all_space s -> all_space (rev s).
Proof.
  unfold all_space. rewrite !forallb_forall. intros H x Hx.
  apply H. now apply in_rev.
Qed.

Lemma all_space_lstrip s : lstrip s = [] -> all_space s.
Proof.
  intros E. destruct (lstrip_split s) as [w [Es W]].
  rewrite E, app_nil_r in Es. now subst.
Qed.

Lemma strip_nonempty s : s <> [] -> hd_ok (rev s) -> strip s <> [].
Proof.
  intros N H E. unfold strip in E.
  assert (L0 : lstrip s <> []).
  { intros E0. apply all_space_lstrip in E0. apply all_space_rev in E0.
    apply all_space_hd_ok in E0; auto.
    apply N. apply (f_equal (@rev char)) in E0.
    now rewrite rev_involutive in E0. }
  destruct (lstrip_split s) as [w [Es W]].
  assert (H' : hd_ok (rev (lstrip s))).
  { rewrite Es in H. eapply hd_ok_rev_of_suffix; eauto. }
  rewrite rstrip_hd_ok in E by exact H'. contradiction.
Qed.

Lemma no_nl_app a b : no_nl (a ++ b) <-> no_nl a /\ no_nl b.
Proof. unfold no_nl. rewrite forallb_app, andb_true_iff. tauto. Qed.

Lemma no_nl_rev s : no_nl s -> no_nl (rev s).
Proof.
  unfold no_nl. rewrite !forallb_forall. intros H x Hx.
  apply H. now apply in_rev.
Qed.

Lemma no_nl_lstrip s : no_nl s -> no_nl (lstrip s).
Proof.
  intros H. destruct (lstrip_split s) as [w [E _]].
  rewrite E in H. now apply no_nl_app in H.
Qed.

Lemma no_nl_strip s : no_nl s -> no_nl (strip s).
Proof.
  intros H. unfold strip, rstrip.
  apply no_nl_rev, no_nl_lstrip, no_nl_rev, no_nl_lstrip, H.
Qed.

Lemma tidy_strip s : no_nl s -> tidy (strip s).
Proof. intros H. split; [apply strip_idem | now apply no_nl_strip]. Qed.

Lemma lower_app a b : lower (a ++ b) = lower a ++ lower b.
Proof. apply flat_map_app. Qed.

Lemma lower_idem s : lower (lower s) = lower s.
Proof.
  induction s as [|c s IH]; [reflexivity|].
  now rewrite lower_cons, lower_app, lower_char_idem, IH.
Qed.

Lemma lower_snoc s c : lower (s ++ [c]) = lower s ++ lower_char c.
Proof. rewrite lower_app. cbn [lower flat_map]. now rewrite app_nil_r. Qed.

(** [lower] keeps the head of a text that does not start with white
    space, and the word character it starts with. *)
Lemma hd_ok_lower s : hd_ok s -> hd_ok (lower s).
Proof.
  destruct s as [|c s]; [auto|]. cbn [hd_ok]. intros H.
  rewrite lower_cons.
  destruct (lower_char_cases c) as [[-> ->] | [_ (c' & -> & _ & S & _)]].
  - reflexivity.
  - cbn [app hd_ok]. congruence.
Qed.

Lemma hd_ok_rev_lower s : hd_ok (rev s) -> hd_ok (rev (lower s)).
Proof.
  destruct (rev s) as [|c r] eqn:R.
  - apply (f_equal (@rev char)) in R. rewrite rev_involutive in R.
    subst s. auto.
  - apply (f_equal (@rev char)) in R. rewrite rev_involutive in R.
    subst s. cbn [rev hd_ok]. intros H.
    rewrite lower_snoc, rev_app_distr.
    destruct (lower_char_cases c) as [[-> ->] | [_ (c' & -> & _ & S & _)]].
    + reflexivity.
    + cbn [rev app hd_ok]. congruence.
Qed.

Lemma strip_lower_fixed s : strip s = s -> strip (lower s) = lower s.
Proof.
  intros E. apply strip_fixed_inv in E as [H1 H2].
  apply strip_fixed; [now apply hd_ok_lower | now apply hd_ok_rev_lower].
Qed.

Lemma hd_word_lower c s :
  is_word c = true ->
  match lower (c :: s) with
  | [] => False
  | x :: _ => is_word x = true
  end.
Proof.
  intros H. rewrite lower_cons.
  destruct (lower_char_cases c) as [[-> ->] | [_ (c' & -> & W & _)]].
  - reflexivity.
  - cbn [app]. congruence.
Qed.

Lemma no_nl_lower s : no_nl s -> no_nl (lower s).
Proof.
  unfold no_nl. induction s as [|c s IH]; [auto|].
  cbn [forallb]. intros H. apply andb_true_iff in H as [C H].
  rewrite lower_cons, forallb_app, (IH H), andb_true_r.
  destruct (lower_char_cases c)
    as [[-> ->] | [_ (c' & -> & _ & _ & Nl & _)]].
  - reflexivity.
  - cbn [forallb]. now rewrite Nl, C.
Qed.

(** On a text without U+0130, [lower] changes no character into one
    of another class. *)
Lemma lower_key_chars s :
  forallb is_ascii s = true ->
  forallb is_key_char s = true -> forallb is_key_char (lower s) = true.
Proof.
  induction s as [|c s IH]; [auto|].
  cbn [forallb]. intros A K.
  apply andb_true_iff in A as [Ac A], K as [Kc K].
  rewrite lower_cons, forallb_app, (IH A K), andb_true_r.
  destruct (lower_char_cases c)
    as [[-> _] | [_ (c' & -> & W & S & _)]].
  - discriminate.
  - cbn [forallb]. unfold is_key_char in *. now rewrite W, S, Kc.
Qed.

(* ================================================================== *)
(** * Lines *)
(* ================================================================== *)

Lemma split_nl_not_nil s : split_nl s <> [].
Proof.
  destruct s as [|c s]; simpl; try discriminate.
  destruct (is_nl c); try discriminate.
  destruct (split_nl s); discriminate.
Qed.

Lemma split_nl_cons c s :
  is_nl c = false ->
  exists l ls, split_nl s = l :: ls /\ split_nl (c :: s) = (c :: l) :: ls.
Proof.
  intros C. simpl. rewrite C.
  destruct (split_nl s) as [|l ls] eqn:E.
  - now apply split_nl_not_nil in E.
  - eauto.
Qed.

Lemma join_split s : join_nl (split_nl s) = s.
Proof.
  induction s as [|c s IH]; auto.
  destruct (is_nl c) eqn:C.
  - simpl. rewrite C. apply is_nl_eq in C. subst c.
    destruct (split_nl s) as [|l ls] eqn:E.
    + now apply split_nl_not_nil in E.
    + simpl. f_equal. exact IH.
  - destruct (split_nl_cons c s C) as [l [ls [E1 E2]]].
    rewrite E2. rewrite E1 in IH. rewrite <- IH.
    destruct ls; reflexivity.
Qed.

Lemma split_no_nl s : no_nl s -> split_nl s = [s].
Proof.
  unfold no_nl. induction s as [|c s IH]; simpl; auto.
  intros H. apply andb_true_iff in H as [C H].
  apply negb_true_iff in C. rewrite C, (IH H). reflexivity.
Qed.

Lemma split_app_nl a b :
  no_nl a -> split_nl (a ++ nl :: b) = a :: split_nl b.
Proof.
  unfold no_nl. induction a as [|c a IH]; simpl; auto.
  intros H. apply andb_true_iff in H as [C H].
  apply negb_true_iff in C. rewrite C, (IH H). reflexivity.
Qed.

Lemma split_join ls :
  ls <> [] -> Forall no_nl ls -> split_nl (join_nl ls) = ls.
Proof.
  induction ls as [|l ls IH]; [congruence|].
  intros _ F. inversion F as [|? ? Hl Hls]; subst.
  destruct ls as [|l' ls'].
  - simpl. now apply split_no_nl.
  - change (join_nl (l :: l' :: ls')) with (l ++ nl :: join_nl (l' :: ls')).
    rewrite split_app_nl by exact Hl. f_equal. apply IH; auto. discriminate.
Qed.

Lemma split_lines_no_nl s : Forall no_nl (split_nl s).
Proof.
  induction s as [|c s IH]; simpl.
  - repeat constructor.
  - destruct (is_nl c) eqn:C.
    + constructor; [reflexivity | exact IH].
    + destruct (split_nl s) as [|l ls].
      * repeat constructor. unfold no_nl. simpl. now rewrite C.
      * inversion IH; subst. constructor; auto.
        unfold no_nl in *. simpl. now rewrite C.
Qed.

Lemma join_nl_cons l ls :
  ls <> [] -> join_nl (l :: ls) = l ++ nl :: join_nl ls.
Proof. destruct ls; [congruence | reflexivity]. Qed.

Lemma join_nl_snoc ls l :
  ls <> [] -> join_nl (ls ++ [l]) = join_nl ls ++ nl :: l.
Proof.
  induction ls as [|x ls IH]; [congruence|]. intros _.
  destruct ls as [|y ls'].
  - reflexivity.
  - change ((x :: y :: ls') ++ [l]) with (x :: ((y :: ls') ++ [l])).
    rewrite join_nl_cons by (simpl; discriminate).
    rewrite IH by discriminate.
    rewrite (join_nl_cons x (y :: ls')) by discriminate.
    now rewrite <- app_assoc.
Qed.

Lemma split_snoc_nl s : split_nl (s ++ [nl]) = split_nl s ++ [[]].
Proof.
  induction s as [|c s IH]; auto.
  simpl. destruct (is_nl c); rewrite IH.
  - reflexivity.
  - destruct (split_nl s) as [|l ls] eqn:E; auto.
    now apply split_nl_not_nil in E.
Qed.

(* ================================================================== *)
(** * The regular expressions *)
(* ================================================================== *)

Lemma span_spec p s a b :
  span p s = (a, b) ->
  s = a ++ b /\ forallb p a = true
  /\ match b with [] => True | c :: _ => p c = false end.
Proof.
  revert a b. induction s as [|c s IH]; simpl; intros a b E.
  - injection E as <- <-. auto.
  - destruct (p c) eqn:C.
    + destruct (span p s) as [a' b'] eqn:E'. injection E as <- <-.
      destruct (IH _ _ eq_refl) as [-> [H1 H2]].
      simpl. rewrite C. auto.
    + injection E as <- <-. simpl. auto.
Qed.

Lemma span_app p a b :
  forallb p a = true ->
  match b with [] => True | c :: _ => p c = false end ->
  span p (a ++ b) = (a, b).
Proof.
  induction a as [|c a IH]; simpl; intros Ha Hb.
  - destruct b; simpl; auto. now rewrite Hb.
  - apply andb_true_iff in Ha as [-> Ha]. now rewrite IH.
Qed.

Lemma dot_plus_end_line s : s <> [] -> no_nl s -> dot_plus_end s = Some s.
Proof.
  intros N H. unfold dot_plus_end.
  assert (E : span (fun c => negb (is_nl c)) s = (s, [])).
  { rewrite <- (app_nil_r s) at 1. apply span_app; auto. }
  rewrite E. destruct s; [congruence | reflexivity].
Qed.

Lemma dot_plus_end_inv s g :
  dot_plus_end s = Some g ->
  g <> [] /\ no_nl g /\ exists r, s = g ++ r /\ (r = [] \/ r = [nl]).
Proof.
  unfold dot_plus_end.
  destruct (span _ s) as [a b] eqn:E. apply span_spec in E.
  destruct E as [-> [Ha Hb]].
  destruct a as [|c a]; [discriminate|].
  destruct b as [|d [|e b]]; try discriminate; intros [= <-].
  - repeat split; try discriminate; auto. exists []. auto.
  - repeat split; try discriminate; auto. exists [d]. split; auto.
    right. apply negb_false_iff in Hb. apply is_nl_eq in Hb. now subst.
Qed.

Lemma dot_plus_end_no_nl s g :
  no_nl s -> dot_plus_end s = Some g -> g = s /\ s <> [].
Proof.
  intros H E. apply dot_plus_end_inv in E as [N [_ [r [-> [-> | ->]]]]].
  - rewrite app_nil_r. split; auto.
  - apply no_nl_app in H as [_ H]. discriminate.
Qed.

Lemma match_val_spaces w v :
  all_space w -> v <> [] -> hd_ok v -> no_nl v ->
  match_val (w ++ v) = Some v.
Proof.
  unfold all_space. induction w as [|c w IH]; simpl; intros W N H1 H2.
  - destruct v as [|c v]; [congruence|]. simpl in H1.
    change (match_val (c :: v)) with
      (if is_space c then
         match match_val v with
         | Some x => Some x
         | None => dot_plus_end (c :: v)
         end
       else dot_plus_end (c :: v)).
    rewrite H1. apply dot_plus_end_line; auto.
  - apply andb_true_iff in W as [-> W]. now rewrite IH.
Qed.

Lemma match_val_inv r v :
  match_val r = Some v ->
  v <> [] /\ no_nl v
  /\ exists a b, r = a ++ v ++ b /\ (b = [] \/ b = [nl]).
Proof.
  revert v. induction r as [|c r IH]; simpl; [discriminate|].
  intros v E.
  assert (D : dot_plus_end (c :: r) = Some v ->
              v <> [] /\ no_nl v
              /\ exists a b, c :: r = a ++ v ++ b /\ (b = [] \/ b = [nl])).
  { intros E'. apply dot_plus_end_inv in E' as [N [H [b [Eb Hb]]]].
    repeat split; auto. exists [], b. auto. }
  destruct (is_space c); auto.
  destruct (match_val r) as [v'|]; auto.
  injection E as <-. destruct (IH _ eq_refl) as [N [H [a [b [-> Hb]]]]].
  repeat split; auto. exists (c :: a), b. auto.
Qed.

Lemma after_prefix_inv p s r : after_prefix p s = Some r -> s = p ++ r.
Proof.
  revert s. induction p as [|x p IH]; intros [|y s]; simpl;
    try discriminate; try (now intros [= ->]).
  destruct (N.eqb x y) eqn:E; [|discriminate].
  apply N.eqb_eq in E. subst y. intros H. f_equal. auto.
Qed.

Lemma after_prefix_app p r : after_prefix p (p ++ r) = Some r.
Proof.
  induction p as [|x p IH]; simpl; auto. now rewrite N.eqb_refl.
Qed.

(** What a match of the metadata expression says about a line. *)
Lemma match_meta_inv s k v :
  match_meta s = Some (k, v) ->
  match k with [] => False | c :: _ => is_word c = true end
  /\ forallb is_key_char k = true
  /\ (exists a b, s = a ++ k ++ b)
  /\ v <> [] /\ no_nl v
  /\ exists a b, s = a ++ v ++ b /\ (b = [] \/ b = [nl]).
Proof.
  unfold match_meta.
  destruct (after_prefix (L "-") s) as [r|] eqn:D; [|discriminate].
  apply after_prefix_inv in D. subst s. simpl app.
  destruct (span is_space r) as [w r1] eqn:E1.
  apply span_spec in E1 as [-> [W _]].
  destruct w as [|w0 w]; [discriminate|].
  destruct r1 as [|c r1']; [discriminate|].
  destruct (is_word c) eqn:C; [|discriminate].
  destruct (span is_key_char (c :: r1')) as [key r2] eqn:E2.
  pose proof (span_spec _ _ _ _ E2) as [E [K _]].
  destruct r2 as [|e r2]; [discriminate|].
  destruct (N.eqb e colon) eqn:D; [|discriminate].
  apply N.eqb_eq in D. subst e.
  destruct (match_val r2) as [v'|] eqn:E3; [|discriminate].
  intros [= <- <-].
  apply match_val_inv in E3 as [N [H [a [b [-> Hb]]]]].
  assert (Hk : match key with [] => False | c0 :: _ => is_word c0 = true end).
  { destruct key as [|c0 key'].
    - simpl in E2. unfold is_key_char in E2 at 1. rewrite C in E2.
      simpl in E2. destruct (span is_key_char r1'). discriminate.
    - simpl in E. injection E as <- _. exact C. }
  repeat split; auto.
  - exists (45%N :: w0 :: w), (colon :: a ++ v' ++ b).
    simpl. now rewrite E.
  - exists (45%N :: (w0 :: w) ++ key ++ colon :: a), b. split; auto.
    simpl. rewrite E. f_equal. f_equal.
    rewrite <- !app_assoc. simpl. reflexivity.
Qed.

(* ================================================================== *)
(** * Dictionaries *)
(* ================================================================== *)

Lemma dict_set_fresh d k v :
  ~ In k (map fst d) -> dict_set d k v = d ++ [(k, v)].
Proof.
  induction d as [|[k' v'] d IH]; simpl; auto.
  intros H. destruct (str_eqb k' k) eqn:E.
  - apply str_eqb_eq in E. tauto.
  - rewrite IH; tauto.
Qed.

Lemma dict_set_keys d k v :
  map fst (dict_set d k v)
  = if dict_mem d k then map fst d else map fst d ++ [k].
Proof.
  unfold dict_mem. induction d as [|[k' v'] d IH]; simpl; auto.
  destruct (str_eqb k' k) eqn:E; simpl; auto.
  rewrite IH. destruct (dict_get d k); reflexivity.
Qed.

Lemma dict_mem_in d k : dict_mem d k = true <-> In k (map fst d).
Proof.
  unfold dict_mem. induction d as [|[k' v'] d IH]; simpl.
  - split; [discriminate | tauto].
  - destruct (str_eqb k' k) eqn:E.
    + apply str_eqb_eq in E. tauto.
    + apply str_eqb_neq in E. rewrite IH. tauto.
Qed.

Lemma dict_set_nodup d k v :
  NoDup (map fst d) -> NoDup (map fst (dict_set d k v)).
Proof.
  intros H. rewrite dict_set_keys.
  destruct (dict_mem d k) eqn:M; auto.
  apply NoDup_app; auto.
  - repeat constructor. simpl. tauto.
  - intros x Hx [<-|[]]. apply dict_mem_in in Hx. congruence.
Qed.

Lemma dict_set_forall (P : str * str -> Prop) d k v :
  Forall P d -> P (k, v) -> (forall k' v', P (k', v') -> P (k', v)) ->
  Forall P (dict_set d k v).
Proof.
  intros F Pk Pv. induction F as [|[k' v'] d Hx F IH]; simpl.
  - repeat constructor. exact Pk.
  - destruct (str_eqb k' k); constructor; eauto.
Qed.

Lemma dict_get_set_same d k v : dict_get (dict_set d k v) k = Some v.
Proof.
  induction d as [|[k' v'] d IH]; simpl.
  - now rewrite str_eqb_refl.
  - destruct (str_eqb k' k) eqn:E; simpl; rewrite E; auto.
Qed.

Lemma dict_get_set_other d k v k' :
  k <> k' -> dict_get (dict_set d k v) k' = dict_get d k'.
Proof.
  intros N. induction d as [|[k0 v0] d IH]; simpl.
  - apply str_eqb_neq in N. now rewrite N.
  - destruct (str_eqb k0 k) eqn:E; simpl.
    + apply str_eqb_eq in E. subst k0.
      apply str_eqb_neq in N. now rewrite N.
    + now rewrite IH.
Qed.

(* ================================================================== *)
(** * The block of a card that was written *)
(* ================================================================== *)

Lemma block_step_blank st :
  b_in_fence st = false -> block_step st [] = st.
Proof. intros H. unfold block_step. simpl. now rewrite H. Qed.

Lemma block_blanks st k :
  b_in_fence st = false -> fold_left block_step (repeat [] k) st = st.
Proof.
  intros H. induction k as [|k IH]; simpl; auto.
  now rewrite block_step_blank.
Qed.

Lemma strip_meta_line k v :
  valid_value v ->
  strip (meta_line (k, v)) = L "- " ++ k ++ L ": " ++ v.
Proof.
  intros [N [T _]]. apply strip_fixed_inv in T as [_ T].
  unfold meta_line. simpl fst. simpl snd.
  change (L "  - " ++ k ++ L ": " ++ v)
    with (L "  " ++ (L "- " ++ k ++ L ": " ++ v)).
  rewrite strip_all_space by reflexivity.
  apply strip_fixed; [reflexivity|].
  rewrite !app_assoc. now apply hd_ok_rev_suffix.
Qed.

Lemma match_meta_line k v :
  valid_key k -> valid_value v ->
  match_meta (L "- " ++ k ++ L ": " ++ v) = Some (k, v).
Proof.
  intros [K1 [K2 _]] [N [T V]]. apply strip_fixed_inv in T as [T _].
  destruct k as [|c k]; [contradiction|].
  unfold match_meta.
  change (L "- " ++ (c :: k) ++ L ": " ++ v)
    with (L "-" ++ (L " " ++ ((c :: k) ++ L ":" ++ (L " " ++ v)))).
  rewrite after_prefix_app.
  rewrite span_app; [|reflexivity|simpl; now apply is_word_not_space].
  simpl app at 1. cbv iota beta. rewrite K1.
  change (c :: k ++ L ":" ++ L " " ++ v)
    with ((c :: k) ++ L ":" ++ (L " " ++ v)).
  rewrite span_app; [|exact K2|reflexivity].
  simpl app at 1. cbv iota beta. rewrite N.eqb_refl.
  change (32%N :: v) with (L " " ++ v).
  rewrite match_val_spaces; auto. reflexivity.
Qed.

Lemma block_step_meta_line st k v :
  b_in_fence st = false -> valid_key k -> valid_value v ->
  block_step st (meta_line (k, v))
  = mkBlock (dict_set (b_meta st) k v) (b_body_lines st) false.
Proof.
  intros H K V. unfold block_step.
  rewrite strip_meta_line by exact V.
  rewrite match_meta_line by assumption.
  change (startswith fence (L "- " ++ k ++ L ": " ++ v)) with false.
  cbv iota. rewrite H.
  destruct K as [_ [_ [Lk [Tk _]]]]. destruct V as [_ [Tv _]].
  now rewrite Tk, Lk, Tv.
Qed.

Lemma block_meta_lines m st :
  b_in_fence st = false ->
  Forall (fun kv => valid_key (fst kv) /\ valid_value (snd kv)) m ->
  fold_left block_step (map meta_line m) st
  = mkBlock (fold_left (fun d kv => dict_set d (fst kv) (snd kv)) m
                       (b_meta st))
            (b_body_lines st) false.
Proof.
  intros H F. revert st H.
  induction F as [|[k v] m [K V] F IH]; intros st H; simpl.
  - destruct st. simpl in *. now subst.
  - rewrite block_step_meta_line by assumption. now rewrite IH.
Qed.

Lemma fold_dict_set m d :
  NoDup (map fst (d ++ m)) ->
  fold_left (fun d kv => dict_set d (fst kv) (snd kv)) m d = d ++ m.
Proof.
  revert d. induction m as [|[k v] m IH]; intros d N; simpl.
  - now rewrite app_nil_r.
  - rewrite dict_set_fresh.
    + rewrite IH; rewrite <- app_assoc; auto.
    + rewrite map_app in N. simpl in N.
      apply NoDup_remove_2 in N. intros I. apply N.
      apply in_or_app. now left.
Qed.

Lemma block_step_body_line st l :
  b_in_fence st = true -> body_line_ok l ->
  block_step st (body_line l)
  = mkBlock (b_meta st) (b_body_lines st ++ [l]) true.
Proof.
  intros H [T [Fc _]]. unfold block_step, body_line.
  assert (E : strip (L "    " ++ l) = l).
  { rewrite strip_all_space by reflexivity. exact T. }
  now rewrite E, Fc, H.
Qed.

Lemma block_body_lines ls st :
  b_in_fence st = true -> Forall body_line_ok ls ->
  fold_left block_step (map body_line ls) st
  = mkBlock (b_meta st) (b_body_lines st ++ ls) true.
Proof.
  intros H F. revert st H.
  induction F as [|l ls Hl F IH]; intros st H; simpl.
  - rewrite app_nil_r. destruct st. simpl in *. now subst.
  - rewrite block_step_body_line by assumption.
    rewrite IH by reflexivity. simpl. now rewrite <- app_assoc.
Qed.

Lemma block_fence_open st :
  b_in_fence st = false ->
  block_step st (L "    ```md")
  = mkBlock (b_meta st) (b_body_lines st) true.
Proof.
  intros H. unfold block_step.
  change (strip (L "    ```md")) with (L "```md").
  change (startswith fence (L "```md")) with true.
  cbv iota. now rewrite H.
Qed.

Lemma block_fence_close st :
  b_in_fence st = true ->
  block_step st (L "    ```")
  = mkBlock (b_meta st) (b_body_lines st) false.
Proof.
  intros H. unfold block_step.
  change (strip (L "    ```")) with (L "```").
  change (startswith fence (L "```")) with true.
  cbv iota. now rewrite H.
Qed.

Lemma block_written_meta m :
  valid_meta m ->
  fold_left block_step (map meta_line m) block_init = mkBlock m [] false.
Proof.
  intros [N F]. rewrite block_meta_lines by auto.
  simpl. now rewrite (fold_dict_set m []).
Qed.

Lemma block_written_body st b :
  b_in_fence st = false -> Forall body_line_ok (split_nl b) ->
  fold_left block_step
    ([L "    ```md"] ++ map body_line (split_nl b) ++ [L "    ```"]) st
  = mkBlock (b_meta st) (b_body_lines st ++ split_nl b) false.
Proof.
  intros H B. rewrite !fold_left_app. simpl fold_left.
  rewrite block_fence_open by exact H.
  rewrite block_body_lines by auto.
  now rewrite block_fence_close.
Qed.

(** The lines under the heading of a written card, followed by any
    number of empty lines, give the card's meta and body back. *)
Lemma parse_written_block c k :
  valid_meta (meta c) -> valid_body (body c) ->
  _parse_card_block (tl (write_card c) ++ repeat [] k)
  = (meta c, body c).
Proof.
  intros M [T B]. unfold _parse_card_block, block_run, write_card.
  cbn [tl app fold_left].
  rewrite block_step_blank by reflexivity.
  rewrite fold_left_app.
  match goal with
  | |- context [fold_left block_step (repeat [] k) ?x] =>
      assert (E : x = mkBlock (meta c)
                        (if is_empty (body c) then []
                         else split_nl (body c)) false)
  end.
  { destruct (is_empty (meta c)) eqn:Em, (is_empty (body c)) eqn:Eb;
      simpl negb; simpl orb; cbv iota.
    - destruct (meta c); [reflexivity | discriminate].
    - rewrite 2 fold_left_app, block_written_meta by exact M.
      rewrite (block_written_body _ (body c)) by auto. simpl fold_left.
      now rewrite block_step_blank.
    - rewrite 2 fold_left_app, block_written_meta by exact M.
      simpl fold_left. now rewrite block_step_blank.
    - rewrite 2 fold_left_app, block_written_meta by exact M.
      rewrite (block_written_body _ (body c)) by auto. simpl fold_left.
      now rewrite block_step_blank. }
  rewrite E, block_blanks by reflexivity. simpl. f_equal.
  destruct (body c) as [|x b] eqn:Eb; [reflexivity|].
  simpl is_empty. cbv iota. now rewrite join_split.
Qed.

(* ================================================================== *)
(** * The parser on the lines of a written board *)
(* ================================================================== *)

Lemma non_heading_blank : non_heading [].
Proof. split; reflexivity. Qed.

Lemma non_heading_indented l : non_heading (32%N :: l).
Proof. split; reflexivity. Qed.

Lemma non_heading_written c k :
  Forall non_heading (tl (write_card c) ++ repeat [] k).
Proof.
  unfold write_card. simpl tl. apply Forall_app. split.
  - constructor; [apply non_heading_blank|].
    destruct (negb (is_empty (meta c)) || negb (is_empty (body c)));
      [|constructor].
    apply Forall_app. split.
    + apply Forall_forall. intros l Hl. apply in_map_iff in Hl as [kv [<- _]].
      apply non_heading_indented.
    + apply Forall_app. split; [|repeat constructor; reflexivity].
      destruct (negb (is_empty (body c))); [|constructor].
      constructor; [apply non_heading_indented|].
      apply Forall_app. split; [|repeat constructor; reflexivity].
      apply Forall_forall. intros l Hl. apply in_map_iff in Hl as [x [<- _]].
      apply non_heading_indented.
  - apply Forall_forall. intros l Hl. apply repeat_spec in Hl. subst.
    apply non_heading_blank.
Qed.

Lemma parse_step_h2 st n :
  n <> [] -> tidy n ->
  parse_step st (L "## " ++ n)
  = let st := _flush_column st in
    mkParse (columns st) (Some n) (current_cards st)
            (current_card st) (card_lines st).
Proof.
  intros N [T H]. unfold parse_step, match_h2.
  rewrite after_prefix_app.
  rewrite dot_plus_end_line by assumption. now rewrite T.
Qed.

Lemma parse_step_h3 st t :
  t <> [] -> tidy t ->
  parse_step st (L "### " ++ t)
  = let st := _flush_card st in
    mkParse (columns st) (current_col st) (current_cards st)
            (Some t) (card_lines st).
Proof.
  intros N [T H]. unfold parse_step.
  change (match_h2 (L "### " ++ t)) with (@None str). cbv iota.
  unfold match_h3. rewrite after_prefix_app.
  rewrite dot_plus_end_line by assumption. now rewrite T.
Qed.

Lemma parse_step_pending st l t :
  non_heading l -> current_card st = Some t ->
  parse_step st l
  = mkParse (columns st) (current_col st) (current_cards st)
            (current_card st) (card_lines st ++ [l]).
Proof. intros [H2 H3] E. unfold parse_step. now rewrite H2, H3, E. Qed.

Lemma parse_step_idle st l :
  non_heading l -> current_card st = None -> parse_step st l = st.
Proof. intros [H2 H3] E. unfold parse_step. now rewrite H2, H3, E. Qed.

Lemma fold_pending ls cols col cards t bl :
  Forall non_heading ls ->
  fold_left parse_step ls (mkParse cols col cards (Some t) bl)
  = mkParse cols col cards (Some t) (bl ++ ls).
Proof.
  intros F. revert bl. induction F as [|l ls Hl F IH]; intros bl; simpl.
  - now rewrite app_nil_r.
  - rewrite (parse_step_pending _ _ t) by auto. simpl.
    rewrite IH. now rewrite <- app_assoc.
Qed.

Lemma fold_idle ls st :
  Forall non_heading ls -> current_card st = None ->
  fold_left parse_step ls st = st.
Proof.
  intros F E. induction F as [|l ls Hl F IH]; simpl; auto.
  now rewrite parse_step_idle.
Qed.

Lemma fold_card c st cols col cards k :
  valid_card c ->
  _flush_card st = mkParse cols col cards None [] ->
  fold_left parse_step (write_card c ++ repeat [] k) st
  = mkParse cols col cards (Some (title c))
            (tl (write_card c) ++ repeat [] k).
Proof.
  intros [N [T _]] E.
  pose proof (non_heading_written c k) as F.
  destruct (write_card c) as [|h t] eqn:W; [discriminate|].
  assert (Eh : h = L "### " ++ title c) by (now injection W).
  subst h. cbn [tl app fold_left] in *.
  rewrite parse_step_h3 by assumption. rewrite E. cbn beta zeta.
  now rewrite fold_pending.
Qed.

Lemma flush_written c cols col cards k :
  valid_card c ->
  _flush_card (mkParse cols col cards (Some (title c))
                       (tl (write_card c) ++ repeat [] k))
  = mkParse cols col (cards ++ [c]) None [].
Proof.
  intros [_ [_ [M B]]]. unfold _flush_card.
  cbn [current_card card_lines].
  rewrite parse_written_block by assumption.
  destruct c. reflexivity.
Qed.

Lemma fold_cards cs : forall c st cols col cards k,
  Forall valid_card (c :: cs) ->
  _flush_card st = mkParse cols col cards None [] ->
  _flush_card
    (fold_left parse_step (flat_map write_card (c :: cs) ++ repeat [] k) st)
  = mkParse cols col (cards ++ c :: cs) None [].
Proof.
  induction cs as [|c' cs IH]; intros c st cols col cards k F E;
    inversion F as [|? ? Hc F']; subst.
  - cbn [flat_map]. rewrite app_nil_r.
    rewrite (fold_card c st cols col cards k) by assumption.
    now apply flush_written.
  - change (flat_map write_card (c :: c' :: cs))
      with (write_card c ++ flat_map write_card (c' :: cs)).
    rewrite <- app_assoc, fold_left_app.
    pose proof (fold_card c st cols col cards 0 Hc E) as E1.
    cbn [repeat] in E1. rewrite !app_nil_r in E1. rewrite E1.
    rewrite (IH c' _ cols col (cards ++ [c]) k F').
    + now rewrite <- app_assoc.
    + pose proof (flush_written c cols col cards 0 Hc) as E2.
      cbn [repeat] in E2. now rewrite app_nil_r in E2.
Qed.

Lemma fold_column col st cols0 k :
  valid_column col ->
  _flush_column st = mkParse cols0 None [] None [] ->
  _flush_column
    (fold_left parse_step (write_column col ++ repeat [] k) st)
  = mkParse (cols0 ++ [col]) None [] None [].
Proof.
  intros [[N T] F] E. destruct col as [n cs]. simpl in N, T, F.
  unfold write_column. cbn [fst snd app fold_left].
  rewrite parse_step_h2 by assumption. rewrite E. cbn beta zeta.
  cbn [columns current_cards current_card card_lines].
  rewrite (parse_step_idle _ []) by (auto using non_heading_blank).
  destruct cs as [|c cs].
  - cbn [flat_map app].
    rewrite fold_idle; [reflexivity| |reflexivity].
    apply Forall_forall. intros l Hl. apply repeat_spec in Hl. subst.
    apply non_heading_blank.
  - unfold _flush_column.
    rewrite (fold_cards cs c _ cols0 (Some n) [] k F) by reflexivity.
    reflexivity.
Qed.

Lemma fold_columns b : forall col st cols0 k,
  valid_board (col :: b) ->
  _flush_column st = mkParse cols0 None [] None [] ->
  _flush_column
    (fold_left parse_step (board_lines (col :: b) ++ repeat [] k) st)
  = mkParse (cols0 ++ col :: b) None [] None [].
Proof.
  induction b as [|col' b IH]; intros col st cols0 k F E;
    inversion F as [|? ? Hc F']; subst.
  - unfold board_lines. cbn [flat_map]. rewrite app_nil_r.
    now apply fold_column.
  - change (board_lines (col :: col' :: b))
      with (write_column col ++ board_lines (col' :: b)).
    rewrite <- app_assoc, fold_left_app.
    rewrite (IH col' _ (cols0 ++ [col]) k F').
    + now rewrite <- app_assoc.
    + pose proof (fold_column col st cols0 0 Hc E) as E1.
      cbn [repeat] in E1. now rewrite app_nil_r in E1.
Qed.


Lemma written_card_no_nl c :
  valid_card c -> Forall no_nl (write_card c).
Proof.
  intros [_ [[_ Ht] [[_ M] [_ B]]]]. unfold write_card.
  apply Forall_app. split.
  - repeat constructor. apply no_nl_app. split; [reflexivity | exact Ht].
  - destruct (negb (is_empty (meta c)) || negb (is_empty (body c)));
      [|constructor].
    apply Forall_app. split.
    + apply Forall_forall. intros l Hl.
      apply in_map_iff in Hl as [[k v] [<- Hkv]].
      rewrite Forall_forall in M. destruct (M _ Hkv) as [K V]. simpl in K, V.
      unfold meta_line. simpl fst. simpl snd.
      repeat (apply no_nl_app; split); try reflexivity.
      * apply K.
      * apply V.
    + apply Forall_app. split; [|repeat constructor].
      destruct (negb (is_empty (body c))); [|constructor].
      constructor; [reflexivity|].
      apply Forall_app. split; [|repeat constructor].
      apply Forall_forall. intros l Hl. apply in_map_iff in Hl as [x [<- Hx]].
      rewrite Forall_forall in B. destruct (B _ Hx) as [_ [_ Hn]].
      unfold body_line. apply no_nl_app. split; [reflexivity | exact Hn].
Qed.

Lemma written_board_no_nl b :
  valid_board b -> Forall no_nl (board_lines b).
Proof.
  intros F. unfold board_lines. apply Forall_flat_map.
  eapply Forall_impl; [|exact F]. intros [n cs] [[_ [_ Hn]] Hc].
  unfold write_column. cbn [fst snd] in *. apply Forall_app. split.
  - repeat constructor. apply no_nl_app. split; [reflexivity | exact Hn].
  - apply Forall_flat_map. eapply Forall_impl; [|exact Hc].
    apply written_card_no_nl.
Qed.

Lemma lines_of_written b :
  valid_board b -> b <> [] ->
  split_nl (write_board b) = board_lines b ++ [[]].
Proof.
  intros F N. unfold write_board. rewrite split_snoc_nl. f_equal.
  apply split_join.
  - destruct b as [|[n cs] b]; [congruence|]. discriminate.
  - now apply written_board_no_nl.
Qed.

(** The parser on the text given to [write()] gives the board back,
    for every board with the shape of the parser's and no empty
    name. *)
Lemma parse_write_valid b :
  valid_board b -> parse_board (write_board b) = b.
Proof.
  intros F. destruct b as [|col b]; [reflexivity|].
  unfold parse_board. rewrite lines_of_written by (auto; discriminate).
  unfold parse_lines.
  exact (f_equal columns (fold_columns b col parse_init [] 1 F eq_refl)).
Qed.

(* ================================================================== *)
(** * The shape of what the parser builds *)
(* ================================================================== *)

Lemma rev_join ls :
  rev (join_nl ls) = join_nl (rev (map (@rev char) ls)).
Proof.
  induction ls as [|l ls IH]; auto.
  destruct ls as [|l' ls'].
  - reflexivity.
  - rewrite join_nl_cons by discriminate.
    rewrite rev_app_distr. cbn [rev]. rewrite IH.
    cbn [map rev]. rewrite <- app_assoc. cbn [app].
    rewrite (join_nl_snoc _ (rev l)); [reflexivity|].
    intros E. apply app_eq_nil in E as [_ E]. discriminate.
Qed.

Lemma lstrip_join ls :
  Forall hd_ok ls ->
  exists ls', lstrip (join_nl ls) = join_nl ls' /\ incl ls' ls.
Proof.
  induction 1 as [|l ls Hl F [ls' [E I]]].
  - exists []. split; [reflexivity | apply incl_refl].
  - destruct l as [|c l].
    + destruct ls as [|l' ls0].
      * exists []. split; [reflexivity | apply incl_nil_l].
      * rewrite join_nl_cons by discriminate. cbn [app lstrip].
        change (is_space nl) with true. cbv iota.
        exists ls'. split; [exact E | now apply incl_tl].
    + exists ((c :: l) :: ls). split; [|apply incl_refl].
      apply lstrip_hd_ok.
      destruct ls; [exact Hl | rewrite join_nl_cons by discriminate; exact Hl].
Qed.

Lemma strip_join ls :
  Forall (fun l => strip l = l) ls ->
  exists ls', strip (join_nl ls) = join_nl ls' /\ incl ls' ls.
Proof.
  intros F.
  assert (F1 : Forall hd_ok ls).
  { eapply Forall_impl; [|exact F]. intros l E. now apply strip_fixed_inv. }
  destruct (lstrip_join ls F1) as [ls1 [E1 I1]].
  assert (F2 : Forall hd_ok (rev (map (@rev char) ls1))).
  { apply Forall_forall. intros x Hx. apply in_rev in Hx.
    apply in_map_iff in Hx as [y [<- Hy]].
    rewrite Forall_forall in F. now apply strip_fixed_inv, F, I1. }
  destruct (lstrip_join _ F2) as [ls2 [E2 I2]].
  exists (rev (map (@rev char) ls2)). split.
  - unfold strip, rstrip. rewrite E1, rev_join, E2. apply rev_join.
  - intros x Hx. apply in_rev in Hx. apply in_map_iff in Hx as [y [<- Hy]].
    apply I2, in_rev in Hy. apply in_map_iff in Hy as [z [<- Hz]].
    rewrite rev_involutive. now apply I1.
Qed.

Lemma body_line_ok_nil : body_line_ok [].
Proof. repeat split. Qed.

Lemma valid_body_join ls :
  Forall body_line_ok ls -> valid_body (strip (join_nl ls)).
Proof.
  intros F. split; [apply strip_idem|].
  destruct (strip_join ls) as [ls' [E I]].
  { eapply Forall_impl; [|exact F]. now intros l [T _]. }
  rewrite E. destruct ls' as [|l ls'].
  - repeat constructor.
  - rewrite Forall_forall in F. rewrite split_join.
    + apply Forall_forall. intros x Hx. now apply F, I.
    + discriminate.
    + apply Forall_forall. intros x Hx. now apply F, I.
Qed.

Lemma no_nl_part a s b : no_nl (a ++ s ++ b) -> no_nl s.
Proof. intros H. apply no_nl_app in H as [_ H]. now apply no_nl_app in H. Qed.

Lemma forallb_part (p : char -> bool) a s b :
  forallb p (a ++ s ++ b) = true -> forallb p s = true.
Proof.
  rewrite !forallb_app. intros H.
  apply andb_true_iff in H as [_ H]. now apply andb_true_iff in H.
Qed.

Lemma forallb_lstrip (p : char -> bool) s :
  forallb p s = true -> forallb p (lstrip s) = true.
Proof.
  intros H. destruct (lstrip_split s) as [w [E _]].
  rewrite E, forallb_app in H. now apply andb_true_iff in H.
Qed.

Lemma forallb_rstrip (p : char -> bool) s :
  forallb p s = true -> forallb p (rstrip s) = true.
Proof.
  intros H. destruct (rstrip_split s) as [w [E _]].
  rewrite E, forallb_app in H. now apply andb_true_iff in H.
Qed.

Lemma forallb_strip (p : char -> bool) s :
  forallb p s = true -> forallb p (strip s) = true.
Proof. intros H. now apply forallb_rstrip, forallb_lstrip. Qed.

(** The value of a metadata line, as it is stored. *)
Lemma match_meta_value s k v :
  strip s = s -> no_nl s -> match_meta s = Some (k, v) ->
  valid_value (strip v).
Proof.
  intros T H E.
  apply match_meta_inv in E
    as [K1 [K2 [[a [b Ek]] [Nv [Hv [a' [b' [Ev Hb]]]]]]]].
  assert (b' = []).
  { destruct Hb as [-> | ->]; auto. rewrite Ev in H.
    apply no_nl_app in H as [_ H]. apply no_nl_app in H as [_ H].
    discriminate. }
  subst b'. rewrite app_nil_r in Ev.
  apply strip_fixed_inv in T as [_ T]. rewrite Ev in T.
  apply hd_ok_rev_of_suffix in T; auto.
  split; [now apply strip_nonempty | now apply tidy_strip].
Qed.

(** The key of a metadata line, as it is stored: what holds of it
    whatever the characters are. *)
Lemma match_meta_key_any s k v :
  no_nl s -> match_meta s = Some (k, v) ->
  match lower (strip k) with
  | [] => False
  | c :: _ => is_word c = true
  end
  /\ lower (lower (strip k)) = lower (strip k)
  /\ tidy (lower (strip k)).
Proof.
  intros H E.
  apply match_meta_inv in E
    as [K1 [K2 [[a [b Ek]] [Nv [Hv [a' [b' [Ev Hb]]]]]]]].
  assert (Hk : no_nl k) by (rewrite Ek in H; now apply no_nl_part in H).
  destruct k as [|c k]; [contradiction|].
  assert (Hc : hd_ok (c :: k)) by now apply is_word_not_space.
  destruct (rstrip_split (c :: k)) as [w [Ew W]].
  assert (Es : strip (c :: k) = rstrip (c :: k)).
  { unfold strip. now rewrite lstrip_hd_ok. }
  destruct (rstrip (c :: k)) as [|c' r] eqn:R.
  { cbn [app] in Ew. subst w. apply all_space_hd_ok in W; [discriminate|].
    exact Hc. }
  injection Ew as <- Ek'. rewrite Es.
  repeat split.
  - now apply hd_word_lower.
  - apply lower_idem.
  - rewrite <- Es. apply strip_lower_fixed, strip_idem.
  - apply no_nl_lower. rewrite <- Es. now apply no_nl_strip.
Qed.

(** The key of a metadata line of ASCII characters, as it is
    stored. *)
Lemma match_meta_key s k v :
  no_nl s -> ascii_text s -> match_meta s = Some (k, v) ->
  valid_key (lower (strip k)).
Proof.
  intros H A E.
  destruct (match_meta_key_any s k v H E) as (K1 & K2 & K3).
  apply match_meta_inv in E as [_ [K [[a [b Ek]] _]]].
  repeat split; auto; try apply K3.
  apply lower_key_chars.
  - apply forallb_strip. unfold ascii_text in A. rewrite Ek in A.
    now apply forallb_part in A.
  - now apply forallb_strip.
Qed.

Lemma meta_with_set kp m k v :
  meta_with kp m -> kp k -> valid_value v ->
  meta_with kp (dict_set m k v).
Proof.
  intros [N F] Hk Hv. split.
  - now apply dict_set_nodup.
  - apply dict_set_forall; auto. simpl. tauto.
Qed.

Ltac split_inv :=
  unfold parse_inv;
  cbn [columns current_col current_cards current_card card_lines];
  split; [|split; [|split; [|split]]].

Section ParserShape.

(** [lp] holds of the lines of the file and [kp] of the keys that the
    parser stores from such lines. *)
Variable lp : str -> Prop.
Variable kp : str -> Prop.

Hypothesis stored_key :
  forall line k v,
    no_nl line -> lp line -> match_meta (strip line) = Some (k, v) ->
    kp (lower (strip k)).

Lemma block_step_shape st line :
  no_nl line -> lp line ->
  meta_with kp (b_meta st) /\ Forall body_line_ok (b_body_lines st) ->
  meta_with kp (b_meta (block_step st line))
  /\ Forall body_line_ok (b_body_lines (block_step st line)).
Proof.
  intros H P [M B]. unfold block_step.
  destruct (startswith fence (strip line)) eqn:Fc; [now split|].
  destruct (b_in_fence st).
  - split; [exact M|]. cbn [b_body_lines]. apply Forall_app. split; auto.
    repeat constructor; auto using strip_idem, no_nl_strip.
  - destruct (match_meta (strip line)) as [[k v]|] eqn:E; [|now split].
    pose proof (stored_key line k v H P E) as K.
    apply match_meta_value in E as V;
      auto using strip_idem, no_nl_strip.
    split; [|exact B]. now apply meta_with_set.
Qed.

Lemma block_run_shape lines st :
  Forall (fun l => no_nl l /\ lp l) lines ->
  meta_with kp (b_meta st) /\ Forall body_line_ok (b_body_lines st) ->
  meta_with kp (b_meta (fold_left block_step lines st))
  /\ Forall body_line_ok (b_body_lines (fold_left block_step lines st)).
Proof.
  intros F. revert st.
  induction F as [|l ls [Hl Pl] F IH]; intros st H; auto.
  cbn [fold_left]. apply IH. now apply block_step_shape.
Qed.

Lemma parse_card_block_shape lines :
  Forall (fun l => no_nl l /\ lp l) lines ->
  meta_with kp (fst (_parse_card_block lines))
  /\ valid_body (snd (_parse_card_block lines)).
Proof.
  intros F. unfold _parse_card_block, block_run. cbn [fst snd].
  destruct (block_run_shape lines block_init F) as [M B].
  { split; [split; constructor | constructor]. }
  split; [exact M | now apply valid_body_join].
Qed.

Lemma flush_card_inv st :
  parse_inv lp kp st -> parse_inv lp kp (_flush_card st).
Proof.
  intros (C & Hc & Cs & Ht & Ls). unfold _flush_card.
  destruct (current_card st) as [t|] eqn:E; [|split_inv; auto].
  2:{ now rewrite E. }
  destruct (parse_card_block_shape (card_lines st) Ls) as [M B].
  destruct (_parse_card_block (card_lines st)) as [m b].
  split_inv; auto; try discriminate.
  apply Forall_app. split; auto.
  constructor; [|constructor].
  split; [apply Ht; reflexivity | split; assumption].
Qed.

Lemma flush_column_inv st :
  parse_inv lp kp st -> parse_inv lp kp (_flush_column st).
Proof.
  intros H. apply flush_card_inv in H. unfold _flush_column.
  destruct (current_col (_flush_card st)) as [n|] eqn:E; [|exact H].
  destruct H as (C & Hc & Cs & Ht & Ls).
  split_inv; auto; try discriminate.
  apply Forall_app. split; auto.
Qed.

Lemma match_h2_tidy line g :
  no_nl line -> match_h2 line = Some g -> tidy (strip g).
Proof.
  intros H E. unfold match_h2 in E.
  destruct (after_prefix (L "## ") line) as [r|] eqn:P; [|discriminate].
  apply dot_plus_end_inv in E as [_ [Hg _]]. now apply tidy_strip.
Qed.

Lemma match_h3_tidy line g :
  no_nl line -> match_h3 line = Some g -> tidy (strip g).
Proof.
  intros H E. unfold match_h3 in E.
  destruct (after_prefix (L "### ") line) as [r|] eqn:P; [|discriminate].
  apply dot_plus_end_inv in E as [_ [Hg _]]. now apply tidy_strip.
Qed.

Lemma parse_step_inv st line :
  no_nl line -> lp line ->
  parse_inv lp kp st -> parse_inv lp kp (parse_step st line).
Proof.
  intros H P I. unfold parse_step.
  destruct (match_h2 line) as [g|] eqn:E2.
  - apply flush_column_inv in I. destruct I as (C & Hc & Cs & Ht & Ls).
    split_inv; auto. intros n [= <-]. eapply match_h2_tidy; eauto.
  - destruct (match_h3 line) as [g|] eqn:E3.
    + apply flush_card_inv in I. destruct I as (C & Hc & Cs & Ht & Ls).
      split_inv; auto. intros n [= <-]. eapply match_h3_tidy; eauto.
    + destruct (current_card st) as [t0|] eqn:E; [|exact I].
      destruct I as (C & Hc & Cs & Ht & Ls).
      split_inv.
      * exact C.
      * exact Hc.
      * exact Cs.
      * intros t [= <-]. now apply Ht.
      * apply Forall_app. split; auto.
Qed.

Lemma parse_lines_with lines :
  Forall (fun l => no_nl l /\ lp l) lines ->
  board_with kp (parse_lines lines).
Proof.
  intros F. unfold parse_lines.
  assert (I : parse_inv lp kp (fold_left parse_step lines parse_init)).
  { assert (I0 : parse_inv lp kp parse_init).
    { split_inv; try constructor; discriminate. }
    revert I0. generalize parse_init.
    induction F as [|l ls [Hl Pl] F IH]; intros st I0; auto.
    cbn [fold_left]. apply IH. now apply parse_step_inv. }
  apply flush_column_inv in I. apply I.
Qed.

End ParserShape.

(** The lines of a text inherit what holds of all its characters. *)
Lemma forallb_split_nl (p : char -> bool) s :
  forallb p s = true -> Forall (fun l => forallb p l = true) (split_nl s).
Proof.
  induction s as [|c s IH]; cbn [split_nl forallb].
  - repeat constructor.
  - intros H. apply andb_true_iff in H as [C H]. specialize (IH H).
    destruct (is_nl c).
    + constructor; [reflexivity | exact IH].
    + destruct (split_nl s) as [|l ls].
      * repeat constructor. cbn [forallb]. now rewrite C.
      * inversion IH; subst. constructor; auto.
        cbn [forallb]. now rewrite C.
Qed.

Lemma Forall_and {A} (P Q : A -> Prop) l :
  Forall P l -> Forall Q l -> Forall (fun x => P x /\ Q x) l.
Proof.
  intros HP HQ. rewrite Forall_forall in *. intros x Hx. split; auto.
Qed.

(** What holds of every parsed board: names, titles, values and
    bodies are stored trimmed, and the keys of a card are pairwise
    different. *)
Lemma parse_board_stored text :
  board_with (fun _ => True) (parse_board text).
Proof.
  apply (parse_lines_with (fun _ => True)); [auto|].
  apply Forall_and; [apply split_lines_no_nl|].
  apply Forall_forall. auto.
Qed.

(** The board parsed from a text of ASCII characters has the shape
    of the codec. *)
Lemma parse_board_shape text :
  ascii_text text -> codec_board (parse_board text).
Proof.
  intros A. apply (parse_lines_with ascii_text valid_key).
  - intros line k v H P E. apply (match_meta_key (strip line) k v); auto.
    + now apply no_nl_strip.
    + now apply forallb_strip.
  - apply Forall_and; [apply split_lines_no_nl|].
    now apply forallb_split_nl.
Qed.

Lemma named_codec_valid b : codec_board b -> named b -> valid_board b.
Proof.
  unfold codec_board, named, valid_board. rewrite !Forall_forall.
  intros C N col Hc. destruct (C col Hc) as [T Cs], (N col Hc) as [Nn Ns].
  split; [split; auto|].
  rewrite Forall_forall in *. intros c Hcard. split; auto.
Qed.

Lemma named_flush_card st : named_inv st -> named_inv (_flush_card st).
Proof.
  intros (C & Hc & Cs & Ht). unfold _flush_card.
  destruct (current_card st) as [t|] eqn:E.
  - destruct (_parse_card_block (card_lines st)) as [m b].
    unfold named_inv. cbn [columns current_col current_cards current_card].
    split; [exact C|]. split; [exact Hc|]. split; [|discriminate].
    apply Forall_app. split; [exact Cs|].
    constructor; [|constructor]. now apply Ht.
  - unfold named_inv. rewrite E. auto.
Qed.

Lemma named_flush_column st : named_inv st -> named_inv (_flush_column st).
Proof.
  intros H. apply named_flush_card in H. unfold _flush_column.
  destruct (current_col (_flush_card st)) as [n|] eqn:E; [|exact H].
  destruct H as (C & Hc & Cs & Ht).
  unfold named_inv. cbn [columns current_col current_cards current_card].
  split; [|split; [discriminate|split; [constructor|exact Ht]]].
  apply Forall_app. split; [exact C|].
  constructor; [|constructor]. split; [now apply Hc | exact Cs].
Qed.

Lemma named_step st l :
  match match_h2 l with
  | Some g => strip g <> []
  | None => match match_h3 l with
            | Some g => strip g <> []
            | None => True
            end
  end ->
  named_inv st -> named_inv (parse_step st l).
Proof.
  intros Hl I. unfold parse_step.
  destruct (match_h2 l) as [g|].
  - apply named_flush_column in I. destruct I as (C & Hc & Cs & Ht).
    unfold named_inv. cbn [columns current_col current_cards current_card].
    split; [exact C|]. split; [|split; [exact Cs | exact Ht]].
    now intros n [= <-].
  - destruct (match_h3 l) as [g|].
    + apply named_flush_card in I. destruct I as (C & Hc & Cs & Ht).
      unfold named_inv.
      cbn [columns current_col current_cards current_card].
      split; [exact C|]. split; [exact Hc|]. split; [exact Cs|].
      now intros n [= <-].
    + destruct (current_card st) as [t|] eqn:E; [|exact I].
      destruct I as (C & Hc & Cs & Ht).
      unfold named_inv.
      cbn [columns current_col current_cards current_card].
      rewrite E in *. auto.
Qed.

(** A file whose headings all carry a name is a valid board file. *)
Lemma headings_named_valid text :
  headings_named (split_nl text) -> valid_file text.
Proof.
  unfold valid_file, parse_board, parse_lines. intros H.
  assert (I : named_inv (fold_left parse_step (split_nl text) parse_init)).
  { assert (I0 : named_inv parse_init).
    { unfold named_inv. cbn. repeat split; try constructor; discriminate. }
    revert I0. generalize parse_init.
    induction H as [|l ls Hl H IH]; intros st I0; [exact I0|].
    cbn [fold_left]. apply IH. now apply named_step. }
  apply named_flush_column in I. apply I.
Qed.

(* ================================================================== *)
(** * The characters of a parsed board and of a written file *)
(* ================================================================== *)

Lemma plain_app a b : plain_text (a ++ b) <-> plain_text a /\ plain_text b.
Proof. unfold plain_text. rewrite forallb_app, andb_true_iff. tauto. Qed.

Lemma plain_lower s : plain_text s -> plain_text (lower s).
Proof.
  unfold plain_text. induction s as [|c s IH]; [auto|].
  cbn [forallb]. intros H. apply andb_true_iff in H as [C H].
  rewrite lower_cons, forallb_app, (IH H), andb_true_r.
  destruct (lower_char_cases c)
    as [[-> _] | [_ (c' & -> & _ & _ & _ & Cr & As & _)]].
  - discriminate.
  - cbn [forallb]. unfold is_plain in *. now rewrite Cr, As, C.
Qed.

Lemma plain_strip s : plain_text s -> plain_text (strip s).
Proof. apply forallb_strip. Qed.

Lemma plain_join ls : Forall plain_text ls -> plain_text (join_nl ls).
Proof.
  induction 1 as [|l ls Hl F IH]; [reflexivity|].
  destruct ls as [|l' ls']; [exact Hl|].
  rewrite join_nl_cons by discriminate.
  apply plain_app. split; [exact Hl|].
  change (nl :: join_nl (l' :: ls')) with ([nl] ++ join_nl (l' :: ls')).
  apply plain_app. split; [reflexivity | exact IH].
Qed.

Lemma plain_split s : plain_text s -> Forall plain_text (split_nl s).
Proof. apply forallb_split_nl. Qed.

Lemma plain_ascii s : plain_text s -> ascii_text s.
Proof.
  unfold plain_text, ascii_text. rewrite !forallb_forall.
  intros H x Hx. apply H in Hx. unfold is_plain in Hx.
  now apply andb_true_iff in Hx.
Qed.

Lemma dot_plus_end_plain s g :
  plain_text s -> dot_plus_end s = Some g -> plain_text g.
Proof.
  intros H E. apply dot_plus_end_inv in E as (_ & _ & r & -> & _).
  now apply plain_app in H.
Qed.

Lemma match_h2_plain line g :
  plain_text line -> match_h2 line = Some g -> plain_text (strip g).
Proof.
  intros H E. unfold match_h2 in E.
  destruct (after_prefix (L "## ") line) as [r|] eqn:P; [|discriminate].
  apply after_prefix_inv in P. subst line. apply plain_app in H as [_ H].
  apply plain_strip. eapply dot_plus_end_plain; eauto.
Qed.

Lemma match_h3_plain line g :
  plain_text line -> match_h3 line = Some g -> plain_text (strip g).
Proof.
  intros H E. unfold match_h3 in E.
  destruct (after_prefix (L "### ") line) as [r|] eqn:P; [|discriminate].
  apply after_prefix_inv in P. subst line. apply plain_app in H as [_ H].
  apply plain_strip. eapply dot_plus_end_plain; eauto.
Qed.

Lemma match_meta_plain s k v :
  plain_text s -> match_meta s = Some (k, v) ->
  plain_text (lower (strip k)) /\ plain_text (strip v).
Proof.
  intros H E.
  apply match_meta_inv in E
    as (_ & _ & (a & b & Ek) & _ & _ & a' & b' & Ev & _).
  split.
  - apply plain_lower, plain_strip. rewrite Ek in H.
    now apply forallb_part in H.
  - apply plain_strip. rewrite Ev in H. now apply forallb_part in H.
Qed.

Lemma block_step_plain st line :
  plain_text line ->
  Forall (fun kv => plain_text (fst kv) /\ plain_text (snd kv)) (b_meta st)
  /\ Forall plain_text (b_body_lines st) ->
  Forall (fun kv => plain_text (fst kv) /\ plain_text (snd kv))
         (b_meta (block_step st line))
  /\ Forall plain_text (b_body_lines (block_step st line)).
Proof.
  intros H [M B]. unfold block_step.
  destruct (startswith fence (strip line)); [now split|].
  destruct (b_in_fence st).
  - split; [exact M|]. cbn [b_body_lines]. apply Forall_app. split; auto.
    constructor; [now apply plain_strip | constructor].
  - destruct (match_meta (strip line)) as [[k v]|] eqn:E; [|now split].
    apply match_meta_plain in E as [K V]; [|now apply plain_strip].
    split; [|exact B]. cbn [b_meta].
    apply dict_set_forall; auto. cbn [fst snd]. tauto.
Qed.

Lemma parse_card_block_plain lines :
  Forall plain_text lines ->
  Forall (fun kv => plain_text (fst kv) /\ plain_text (snd kv))
         (fst (_parse_card_block lines))
  /\ plain_text (snd (_parse_card_block lines)).
Proof.
  intros F. unfold _parse_card_block, block_run. cbn [fst snd].
  assert (I : Forall (fun kv => plain_text (fst kv) /\ plain_text (snd kv))
                     (b_meta block_init)
              /\ Forall plain_text (b_body_lines block_init))
    by (split; constructor).
  revert I. generalize block_init.
  induction F as [|l ls Hl F IH]; intros st [M B]; cbn [fold_left].
  - split; [exact M|]. now apply plain_strip, plain_join.
  - apply IH. now apply block_step_plain.
Qed.

Ltac split_plain :=
  unfold plain_inv;
  cbn [columns current_col current_cards current_card card_lines];
  split; [|split; [|split; [|split]]].

Lemma flush_card_plain st : plain_inv st -> plain_inv (_flush_card st).
Proof.
  intros (C & Hc & Cs & Ht & Ls). unfold _flush_card.
  destruct (current_card st) as [t|] eqn:E; [|split_plain; auto].
  2:{ now rewrite E. }
  destruct (parse_card_block_plain (card_lines st) Ls) as [M B].
  destruct (_parse_card_block (card_lines st)) as [m b].
  split_plain; auto; try discriminate.
  apply Forall_app. split; auto.
  constructor; [|constructor].
  split; [apply Ht; reflexivity | split; assumption].
Qed.

Lemma flush_column_plain st : plain_inv st -> plain_inv (_flush_column st).
Proof.
  intros H. apply flush_card_plain in H. unfold _flush_column.
  destruct (current_col (_flush_card st)) as [n|] eqn:E; [|exact H].
  destruct H as (C & Hc & Cs & Ht & Ls).
  split_plain; auto; try discriminate.
  apply Forall_app. split; auto.
Qed.

Lemma parse_step_plain st line :
  plain_text line -> plain_inv st -> plain_inv (parse_step st line).
Proof.
  intros H I. unfold parse_step.
  destruct (match_h2 line) as [g|] eqn:E2.
  - apply flush_column_plain in I. destruct I as (C & Hc & Cs & Ht & Ls).
    split_plain; auto. intros n [= <-]. eapply match_h2_plain; eauto.
  - destruct (match_h3 line) as [g|] eqn:E3.
    + apply flush_card_plain in I. destruct I as (C & Hc & Cs & Ht & Ls).
      split_plain; auto. intros n [= <-]. eapply match_h3_plain; eauto.
    + destruct (current_card st) as [t0|] eqn:E; [|exact I].
      destruct I as (C & Hc & Cs & Ht & Ls).
      split_plain.
      * exact C.
      * exact Hc.
      * exact Cs.
      * intros t [= <-]. now apply Ht.
      * apply Forall_app. split; auto.
Qed.

(** The strings of the board parsed from plain text are plain. *)
Lemma parse_board_plain text :
  plain_text text -> plain_board (parse_board text).
Proof.
  intros H. apply plain_split in H. unfold parse_board, parse_lines.
  assert (I : plain_inv (fold_left parse_step (split_nl text) parse_init)).
  { assert (I0 : plain_inv parse_init).
    { split_plain; try constructor; discriminate. }
    revert I0. generalize parse_init.
    induction H as [|l ls Hl F IH]; intros st I0; auto.
    cbn [fold_left]. apply IH. now apply parse_step_plain. }
  apply flush_column_plain in I. apply I.
Qed.

Lemma write_card_plain c :
  plain_card c -> Forall plain_text (write_card c).
Proof.
  intros (T & M & B). unfold write_card. apply Forall_app. split.
  - constructor; [|repeat constructor].
    apply plain_app. split; [reflexivity | exact T].
  - destruct (negb (is_empty (meta c)) || negb (is_empty (body c)));
      [|constructor].
    apply Forall_app. split.
    + apply Forall_map. eapply Forall_impl; [|exact M].
      intros [k v] [K V]. unfold meta_line. cbn [fst snd] in *.
      repeat (apply plain_app; split); auto; reflexivity.
    + apply Forall_app. split; [|repeat constructor].
      destruct (negb (is_empty (body c))); [|constructor].
      apply Forall_app. split; [repeat constructor|].
      apply Forall_app. split; [|repeat constructor].
      apply Forall_map. apply plain_split in B.
      eapply Forall_impl; [|exact B].
      intros l Hl. unfold body_line.
      apply plain_app. split; [reflexivity | exact Hl].
Qed.

(** The text written from a plain board is plain. *)
Lemma write_board_plain b : plain_board b -> plain_text (write_board b).
Proof.
  intros F. unfold write_board. apply plain_app. split; [|reflexivity].
  apply plain_join. unfold board_lines. apply Forall_flat_map.
  eapply Forall_impl; [|exact F]. intros [n cs] [Hn Hc].
  unfold write_column. cbn [fst snd] in *. apply Forall_app. split.
  - constructor; [|repeat constructor].
    apply plain_app. split; [reflexivity | exact Hn].
  - apply Forall_flat_map. eapply Forall_impl; [|exact Hc].
    apply write_card_plain.
Qed.

(** Reading changes nothing in a text without carriage return, and
    what is read has none. *)
Lemma read_text_plain s : plain_text s -> read_text s = s.
Proof.
  unfold plain_text. induction s as [|c s IH]; [reflexivity|].
  cbn [forallb read_text]. intros H. apply andb_true_iff in H as [C H].
  unfold is_plain in C. apply andb_true_iff in C as [_ C].
  apply negb_true_iff in C. rewrite C. f_equal. auto.
Qed.

Lemma read_text_ascii content :
  ascii_text content -> plain_text (read_text content).
Proof.
  unfold ascii_text, plain_text.
  induction content as [|c s IH]; [reflexivity|].
  cbn [forallb read_text]. intros H. apply andb_true_iff in H as [C H].
  specialize (IH H). destruct (is_cr c) eqn:Cr.
  - destruct s as [|d s']; [reflexivity|].
    destruct (is_nl d); [exact IH|].
    cbn [forallb]. now rewrite IH.
  - cbn [forallb]. rewrite IH, andb_true_r. unfold is_plain.
    now rewrite C, Cr.
Qed.

(** A plain file is read as it was written. *)
Lemma read_written_plain b :
  plain_board b -> read_text (write_board b) = write_board b.
Proof. intros H. now apply read_text_plain, write_board_plain. Qed.

(* ================================================================== *)
(** * Round trip *)
(* ================================================================== *)


(** A heading whose name is blank is read as a card without a title,
    which the written file does not bring back: the names have to be
    there for the round trip. *)
Lemma blank_title_not_restored :
  let D := read_board (L "## A
###  
") in
  D = [(L "A", [mkCard [] [] []])]
  /\ read_board (write_board D) = [(L "A", [])].
Proof. vm_compute. split; reflexivity. Qed.

Lemma parsed_valid text :
  ascii_text text -> valid_file text -> valid_board (parse_board text).
Proof.
  intros A V. apply named_codec_valid; [now apply parse_board_shape|].
  exact V.
Qed.

(** Reading the file written from the board of a valid ASCII file
    gives that board. *)
Lemma read_write_read content :
  ascii_text content ->
  valid_file (read_text content) ->
  read_board (write_board (read_board content)) = read_board content.
Proof.
  intros A V. apply read_text_ascii in A. unfold read_board.
  rewrite read_written_plain by now apply parse_board_plain.
  apply parse_write_valid, parsed_valid; [now apply plain_ascii | exact V].
Qed.




(** C10. The body of every card that the parser builds is normalised:
    every line of it is its own trimmed form, the body starts and ends
    with no white space, and no line of it starts with three
    backticks; the indentation of the fenced block in the file is
    gone. *)
Theorem parsed_body_normalised (text name : str) (cards : list Card)
  (c : Card) :
  In (name, cards) (parse_board text) -> In c cards ->
  strip (body c) = body c
  /\ hd_ok (body c) /\ hd_ok (rev (body c))
  /\ Forall (fun l => strip l = l /\ hd_ok l
                      /\ startswith fence l = false)
            (split_nl (body c)).
Proof.
  intros Hcol Hc. pose proof (parse_board_stored text) as S.
  unfold board_with in S. rewrite Forall_forall in S.
  destruct (S _ Hcol) as [_ Cs]. rewrite Forall_forall in Cs.
  destruct (Cs _ Hc) as [_ [_ [T Ls]]]. cbn [snd] in *.
  split; [exact T|].
  destruct (strip_fixed_inv _ T) as [H1 H2].
  repeat split; auto.
  eapply Forall_impl; [|exact Ls].
  intros l [Tl [Fl _]]. repeat split; auto. now apply strip_fixed_inv.
Qed.

Lemma parsed_body_normalised_witness :
  let text := L "## To Do
### Fix login bug
  - due: 2025-01-10
      ```md

      - steps to repro  
        1. open the page
      ```
" in
  parse_board text
  = [(L "To Do",
      [mkCard (L "Fix login bug") [(L "due", L "2025-01-10")]
              (L "- steps to repro
1. open the page")])]
  /\ strip (L "- steps to repro
1. open the page") = L "- steps to repro
1. open the page".
Proof.
  intros text.
  assert (E : parse_board text
              = [(L "To Do",
                  [mkCard (L "Fix login bug") [(L "due", L "2025-01-10")]
                          (L "- steps to repro
1. open the page")])]) by (vm_compute; reflexivity).
  split; [exact E|].
  pose (c0 := mkCard (L "Fix login bug") [(L "due", L "2025-01-10")]
                (L "- steps to repro
1. open the page")).
  refine (proj1 (parsed_body_normalised text (L "To Do") [c0] c0 _ _)).
  - rewrite E. left. reflexivity.
  - left. reflexivity.
Defined.

(* ================================================================== *)
(** * Lists and columns *)
(* ================================================================== *)

Lemma pop_length {A} (l : list A) i x l' :
  pop l i = Some (x, l') -> length l = S (length l').
Proof.
  revert i x l'. induction l as [|y l IH]; intros [|i] x l' E;
    cbn [pop] in E; try discriminate.
  - now injection E as <- <-.
  - destruct (pop l i) as [[z r]|] eqn:P; [|discriminate].
    injection E as <- <-. cbn [length]. f_equal. eauto.
Qed.

Lemma pop_nth {A} (l : list A) i x l' :
  pop l i = Some (x, l') -> nth_error l i = Some x.
Proof.
  revert i x l'. induction l as [|y l IH]; intros [|i] x l' E;
    cbn [pop] in E; try discriminate.
  - now injection E as <- <-.
  - destruct (pop l i) as [[z r]|] eqn:P; [|discriminate].
    injection E as <- <-. cbn [nth_error]. eauto.
Qed.

Lemma pop_some {A} (l : list A) i :
  (i < length l)%nat -> exists x l', pop l i = Some (x, l').
Proof.
  revert i. induction l as [|y l IH]; intros [|i] H; cbn [length] in H;
    try lia; cbn [pop]; eauto.
  destruct (IH i) as [x [l' E]]; [lia|]. rewrite E. eauto.
Qed.

Lemma list_insert_length {A} (l : list A) i x :
  length (list_insert l i x) = S (length l).
Proof.
  unfold list_insert. rewrite length_app. cbn [length].
  rewrite Nat.add_succ_r, <- length_app, firstn_skipn. reflexivity.
Qed.

Lemma list_insert_In {A} (l : list A) i x : In x (list_insert l i x).
Proof. unfold list_insert. apply in_or_app. right. now left. Qed.



Lemma get_set_column board name old cards :
  get_column board name = Some old ->
  get_column (set_column board name cards) name = Some cards.
Proof.
  induction board as [|[n cs] b IH]; cbn [get_column set_column];
    [discriminate|].
  destruct (str_eqb (lower n) (lower name)) eqn:E;
    cbn [get_column]; rewrite E; auto.
Qed.

Lemma total_cards_set board name old cards :
  get_column board name = Some old ->
  (total_cards (set_column board name cards) + length old
   = total_cards board + length cards)%nat.
Proof.
  unfold total_cards.
  induction board as [|[n cs] b IH]; cbn [get_column set_column];
    [discriminate|].
  destruct (str_eqb (lower n) (lower name)) eqn:E;
    cbn [map snd]; intros H;
    repeat match goal with
           | |- context [list_sum (?x :: ?l)] =>
               change (list_sum (x :: l)) with (x + list_sum l)%nat
           end.
  - injection H as <-. lia.
  - specialize (IH H). lia.
Qed.

Lemma get_column_some_set board name cards other :
  get_column board other <> None ->
  get_column (set_column board name cards) other <> None.
Proof.
  induction board as [|[n cs] b IH]; cbn [get_column set_column]; auto.
  destruct (str_eqb (lower n) (lower name)) eqn:E; cbn [get_column];
    destruct (str_eqb (lower n) (lower other)); auto; discriminate.
Qed.

(* ================================================================== *)
(** * Moving a card *)
(* ================================================================== *)

(** One card leaves the source and one enters the destination, also
    when both names find the same column. *)
Lemma move_total board from_col to_col (src src' dst cards' : list Card) :
  get_column board from_col = Some src ->
  length src = S (length src') ->
  get_column (set_column board from_col src') to_col = Some dst ->
  length cards' = S (length dst) ->
  total_cards (set_column (set_column board from_col src') to_col cards')
  = total_cards board.
Proof.
  intros Hs Ls Hd Ld.
  pose proof (total_cards_set board from_col src src' Hs) as E1.
  pose proof (total_cards_set _ to_col dst cards' Hd) as E2.
  lia.
Qed.

(** C3. A move that succeeds keeps the number of cards of the board,
    and the card that arrives in the destination column is the card
    that was taken, with its title, meta and body; for the REST
    handler and for the terminal operation. *)
Theorem move_preserves_cards :
  (forall file payload board' file',
     Server.move_card file payload = (Server.Ok board', file') ->
     total_cards board' = total_cards (parse_board file)
     /\ exists src card dst,
          get_column (parse_board file) (Server.from_column payload)
          = Some src
          /\ nth_error src (Z.to_nat (Server.from_index payload))
             = Some card
          /\ get_column board' (Server.to_column payload) = Some dst
          /\ In card dst)
  /\ (forall board card_choice col_choice board',
        move_card board card_choice col_choice = Saved board' ->
        total_cards board' = total_cards board
        /\ exists result to_col dst,
             _pick_card board [] card_choice = Some result
             /\ get_column board' to_col = Some (dst ++ [opt_card result])).
Proof.
  split.
  - intros file payload board' file' E. unfold Server.move_card in E.
    unfold Server._col_or_404 in E.
    destruct (get_column (parse_board file) (Server.from_column payload))
      as [src|] eqn:Hs; [|discriminate].
    destruct (get_column (parse_board file) (Server.to_column payload))
      as [dst0|] eqn:Hd0; [|discriminate].
    destruct (Server.out_of_range (Server.from_index payload) src);
      [discriminate|].
    destruct (pop src (Z.to_nat (Server.from_index payload)))
      as [[card src']|] eqn:P; [|discriminate].
    destruct (get_column
                (set_column (parse_board file) (Server.from_column payload)
                            src')
                (Server.to_column payload)) as [dst|] eqn:Hd; [|discriminate].
    destruct (Z.min _ _ <? ssize_t_min)%Z; [discriminate|].
    injection E as <- _. split.
    + eapply move_total; eauto using pop_length, list_insert_length.
    + exists src, card, (list_insert dst
                         (Z.min (Server.to_index payload)
                                (Z.of_nat (length dst))) card).
      repeat split; eauto using pop_nth, list_insert_In.
      eapply get_set_column; eauto.
  - intros board cc kc board' E. unfold move_card in E.
    destruct (_pick_card board [] cc) as [result|] eqn:Pk; [|discriminate].
    destruct kc as [k|]; [|discriminate].
    destruct (nth_error _ k) as [to_col|]; [|discriminate].
    destruct (get_column board (opt_name result)) as [src|] eqn:Hs;
      [|discriminate].
    destruct (pop src (opt_idx result)) as [[x src']|] eqn:P;
      [|discriminate].
    destruct (get_column (set_column board (opt_name result) src') to_col)
      as [dst|] eqn:Hd; [|discriminate].
    injection E as <-. split.
    + eapply move_total; eauto using pop_length.
      rewrite length_app. cbn [length]. lia.
    + exists result, to_col, dst. split; [reflexivity|].
      eapply get_set_column; eauto.
Qed.

(** The move scenario of the specification: card 0 of "To Do" goes to
    place 0 of "Done". *)
Lemma move_preserves_cards_witness :
  let file := L "## To Do

### Fix login bug

  - due: 2025-01-10
    ```md
    - steps to repro
    ```

## Done
" in
  let card := mkCard (L "Fix login bug") [(L "due", L "2025-01-10")]
                     (L "- steps to repro") in
  let board' := [(L "To Do", []); (L "Done", [card])] in
  fst (Server.move_card file (Server.mkMove (L "To Do") 0 (L "Done") 0))
  = Server.Ok board'
  /\ total_cards board' = total_cards (parse_board file).
Proof.
  intros file card board'.
  assert (E : Server.move_card file
                (Server.mkMove (L "To Do") 0 (L "Done") 0)
              = (Server.Ok board', write_board board'))
    by (vm_compute; reflexivity).
  split; [now rewrite E|].
  exact (proj1 (proj1 move_preserves_cards _ _ _ _ E)).
Defined.

(* ================================================================== *)
(** * References that do not resolve *)
(* ================================================================== *)


(** The destination index of a move is a place, not a reference: the
    move succeeds for every [to_index] that fits a C [ssize_t] once
    the two columns and the card are found. *)
Lemma move_destination_index_free file payload src dst :
  get_column (parse_board file) (Server.from_column payload) = Some src ->
  get_column (parse_board file) (Server.to_column payload) = Some dst ->
  (0 <= Server.from_index payload < Z.of_nat (length src))%Z ->
  (ssize_t_min <= Server.to_index payload)%Z ->
  exists board',
    Server.move_card file payload = (Server.Ok board', write_board board').
Proof.
  intros Hs Hd R O. unfold Server.move_card, Server._col_or_404.
  rewrite Hs, Hd.
  assert (Er : Server.out_of_range (Server.from_index payload) src = false).
  { unfold Server.out_of_range. apply orb_false_iff. split.
    - apply Z.ltb_ge. lia.
    - rewrite Z.geb_leb. apply Z.leb_gt. lia. }
  rewrite Er.
  destruct (pop_some src (Z.to_nat (Server.from_index payload)))
    as [card [src' P]]; [lia|]. rewrite P.
  destruct (get_column
              (set_column (parse_board file) (Server.from_column payload)
                          src')
              (Server.to_column payload)) as [dst'|] eqn:Hd'.
  - assert (Ei : (Z.min (Server.to_index payload) (Z.of_nat (length dst'))
                  <? ssize_t_min)%Z = false).
    { apply Z.ltb_ge. unfold ssize_t_min in *. lia. }
    rewrite Ei. eauto.
  - exfalso. eapply get_column_some_set; [|exact Hd']. now rewrite Hd.
Qed.



(* ================================================================== *)
(** * Column names *)
(* ================================================================== *)

Lemma names_flush_card st : names_so_far (_flush_card st) = names_so_far st.
Proof.
  unfold _flush_card, names_so_far.
  destruct (current_card st); [|reflexivity].
  now destruct (_parse_card_block (card_lines st)).
Qed.

Lemma names_flush_column st :
  column_names (columns (_flush_column st)) = names_so_far st
  /\ current_col (_flush_column st) = None.
Proof.
  rewrite <- names_flush_card. unfold _flush_column, names_so_far.
  destruct (current_col (_flush_card st)) as [n|] eqn:E.
  - cbn [columns current_col]. unfold column_names.
    now rewrite map_app.
  - now rewrite E, app_nil_r.
Qed.

Lemma names_step st l :
  names_so_far (parse_step st l)
  = names_so_far st
    ++ match match_h2 l with Some g => [strip g] | None => [] end.
Proof.
  unfold parse_step. destruct (match_h2 l) as [g|].
  - destruct (names_flush_column st) as [E _].
    unfold names_so_far at 1. cbn [columns current_col]. now rewrite E.
  - rewrite app_nil_r. destruct (match_h3 l) as [g|].
    + rewrite <- (names_flush_card st). reflexivity.
    + now destruct (current_card st).
Qed.

Lemma names_fold lines st :
  names_so_far (fold_left parse_step lines st)
  = names_so_far st ++ heading_names lines.
Proof.
  revert st. induction lines as [|l ls IH]; intros st; cbn [fold_left].
  - now rewrite app_nil_r.
  - rewrite IH, names_step, <- app_assoc. reflexivity.
Qed.

Lemma parsed_column_names lines :
  column_names (parse_lines lines) = heading_names lines.
Proof.
  unfold parse_lines.
  destruct (names_flush_column (fold_left parse_step lines parse_init))
    as [E _].
  now rewrite E, names_fold.
Qed.

(* ================================================================== *)
(** * Card headings before the first column *)
(* ================================================================== *)

Lemma clean_flush_card st :
  clean st ->
  current_card (_flush_card st) = None /\ card_lines (_flush_card st) = [].
Proof.
  unfold clean, _flush_card. intros H.
  destruct (current_card st) eqn:E.
  - now destruct (_parse_card_block (card_lines st)).
  - now rewrite E, H.
Qed.

Lemma clean_flush_column st :
  clean st ->
  current_card (_flush_column st) = None
  /\ card_lines (_flush_column st) = [].
Proof.
  intros H. apply clean_flush_card in H. unfold _flush_column.
  now destruct (current_col (_flush_card st)).
Qed.

Lemma clean_step st l : clean st -> clean (parse_step st l).
Proof.
  intros H. unfold parse_step.
  destruct (match_h2 l).
  - intros _. cbn [card_lines]. now apply clean_flush_column.
  - destruct (match_h3 l).
    + intros E. discriminate.
    + destruct (current_card st) eqn:E; [|exact H].
      unfold clean. cbn [current_card]. discriminate.
Qed.

Lemma clean_fold lines st :
  clean st -> clean (fold_left parse_step lines st).
Proof.
  revert st. induction lines as [|l ls IH]; intros st H; auto.
  cbn [fold_left]. now apply IH, clean_step.
Qed.

Lemma orphans_flush_card P st :
  _flush_card (with_orphans P st) = with_orphans P (_flush_card st).
Proof.
  destruct st as [cols col cards card ls].
  unfold _flush_card, with_orphans.
  cbn [columns current_col current_cards current_card card_lines].
  destruct card; [|reflexivity].
  destruct (_parse_card_block ls) as [m b].
  cbn [columns current_col current_cards current_card card_lines].
  destruct cols; cbn [is_empty]; [|reflexivity].
  now rewrite app_assoc.
Qed.

Lemma opened_flush_card st : opened st -> opened (_flush_card st).
Proof.
  unfold opened, _flush_card. destruct (current_card st); auto.
Qed.

Lemma orphans_flush_column P st :
  opened st ->
  _flush_column (with_orphans P st) = with_orphans P (_flush_column st)
  /\ columns (_flush_column st) <> [].
Proof.
  intros O. apply opened_flush_card in O. unfold _flush_column.
  rewrite orphans_flush_card. unfold opened in O.
  destruct (_flush_card st) as [cols col cards card ls].
  unfold with_orphans.
  cbn [columns current_col current_cards current_card card_lines] in *.
  destruct col as [n|].
  - destruct cols as [|[n0 cs0] cols]; cbn [is_empty attach_first app].
    + split; [reflexivity | discriminate].
    + split; [reflexivity | discriminate].
  - destruct cols as [|[n0 cs0] cols]; [now destruct O|].
    split; [reflexivity | discriminate].
Qed.

Lemma orphans_step P st l :
  opened st ->
  parse_step (with_orphans P st) l = with_orphans P (parse_step st l)
  /\ opened (parse_step st l).
Proof.
  intros O. unfold parse_step.
  destruct (match_h2 l) as [g|].
  - destruct (orphans_flush_column P st O) as [E N]. rewrite E. split.
    + unfold with_orphans. reflexivity.
    + intros _. discriminate.
  - destruct (match_h3 l) as [g|].
    + rewrite orphans_flush_card. split.
      * unfold with_orphans. reflexivity.
      * apply opened_flush_card in O. exact O.
    + destruct st as [cols col cards card ls].
      unfold with_orphans.
      cbn [columns current_col current_cards current_card card_lines].
      destruct card; split; auto.
Qed.

Lemma orphans_fold P lines st :
  opened st ->
  fold_left parse_step lines (with_orphans P st)
  = with_orphans P (fold_left parse_step lines st)
  /\ opened (fold_left parse_step lines st).
Proof.
  revert st. induction lines as [|l ls IH]; intros st O; [now split|].
  cbn [fold_left]. destruct (orphans_step P st l O) as [E O'].
  rewrite E. now apply IH.
Qed.

Lemma heading_names_none pre :
  Forall (fun l => match_h2 l = None) pre -> heading_names pre = [].
Proof.
  induction 1 as [|l ls Hl F IH]; auto.
  cbn [heading_names flat_map]. rewrite Hl. exact IH.
Qed.

(** At the first column heading the cards read so far stay in
    [current_cards]. *)
Lemma first_heading pre h g :
  Forall (fun l => match_h2 l = None) pre -> match_h2 h = Some g ->
  parse_step (fold_left parse_step pre parse_init) h
  = mkParse [] (Some (strip g)) (pre_column_cards pre) None [].
Proof.
  intros F E. unfold pre_column_cards.
  pose proof (names_fold pre parse_init) as N.
  rewrite (heading_names_none pre F) in N. cbn in N.
  assert (C : clean (fold_left parse_step pre parse_init))
    by (apply clean_fold; intros _; reflexivity).
  apply clean_flush_card in C as [C1 C2].
  rewrite <- names_flush_card in N. unfold names_so_far in N.
  apply app_eq_nil in N as [N1 N2].
  generalize dependent (fold_left parse_step pre parse_init).
  intros st C1 C2 N1 N2.
  unfold parse_step, _flush_column. rewrite E.
  destruct (_flush_card st) as [cols col cards card ls].
  cbn [columns current_col current_cards current_card card_lines] in *.
  destruct col; [discriminate|]. destruct cols; [|discriminate].
  cbn [columns current_col current_cards current_card card_lines].
  now subst.
Qed.

(** C6, the claim as it stands fails: the card whose heading stands
    before the first column heading is in the column "To Do". *)
Lemma orphan_card_kept :
  let orphan := mkCard (L "Orphan") [(L "due", L "2025-01-10")] [] in
  let board := parse_board (L "### Orphan
  - due: 2025-01-10
## To Do
### Fix login bug
") in
  board = [(L "To Do", [orphan; mkCard (L "Fix login bug") [] []])]
  /\ exists name cards, In (name, cards) board /\ In orphan cards.
Proof.
  intros orphan board.
  assert (E : board
              = [(L "To Do", [orphan; mkCard (L "Fix login bug") [] []])])
    by (vm_compute; reflexivity).
  split; [exact E|]. rewrite E.
  exists (L "To Do"), [orphan; mkCard (L "Fix login bug") [] []].
  split; left; reflexivity.
Qed.

(** C6, amended. The card headings in front of the first column
    heading are not ignored: their cards are, in order, the first
    cards of the first column of the file, in front of the cards of
    that column; when no column heading follows there is no column
    and they are dropped. *)
Theorem orphans_join_first_column (text : str) (pre : list str) :
  Forall (fun l => match_h2 l = None) pre ->
  (forall h g rest,
     match_h2 h = Some g -> split_nl text = pre ++ h :: rest ->
     parse_board text
     = attach_first (pre_column_cards pre) (parse_lines (h :: rest)))
  /\ (split_nl text = pre -> parse_board text = []).
Proof.
  intros F. split.
  - intros h g rest E S. unfold parse_board. rewrite S.
    unfold parse_lines. rewrite fold_left_app. cbn [fold_left].
    rewrite (first_heading pre h g F E).
    set (P := pre_column_cards pre).
    assert (E0 : parse_step parse_init h
                 = mkParse [] (Some (strip g)) [] None []).
    { unfold parse_step. now rewrite E. }
    rewrite E0.
    set (st0 := mkParse [] (Some (strip g)) [] None []).
    assert (O : opened st0) by (intros _; discriminate).
    assert (W : mkParse [] (Some (strip g)) P None [] = with_orphans P st0).
    { unfold with_orphans, st0. cbn. now rewrite app_nil_r. }
    rewrite W. destruct (orphans_fold P rest st0 O) as [Ef Of].
    rewrite Ef. destruct (orphans_flush_column P _ Of) as [Ec _].
    rewrite Ec. reflexivity.
  - intros S. unfold parse_board. rewrite S.
    pose proof (parsed_column_names pre) as N.
    rewrite (heading_names_none pre F) in N.
    destruct (parse_lines pre); [reflexivity | discriminate].
Qed.

Lemma orphans_join_first_column_witness :
  let text := L "### Orphan
## To Do
### Fix login bug" in
  parse_board text
  = attach_first [mkCard (L "Orphan") [] []]
      (parse_lines [L "## To Do"; L "### Fix login bug"]).
Proof.
  intros text.
  refine (proj1 (orphans_join_first_column text [L "### Orphan"] _)
            (L "## To Do") (L "To Do") [L "### Fix login bug"] _ _).
  - repeat constructor.
  - reflexivity.
  - reflexivity.
Defined.

(* ================================================================== *)
(** * The lines of a card *)
(* ================================================================== *)







Example line_without_dash_is_not_metadata :
  _parse_card_block [L "  due: 2025-01-10"] = ([], []).
Proof. reflexivity. Qed.

(* ================================================================== *)
(** * Due dates *)
(* ================================================================== *)

Lemma today_in_week today :
  (today <= today - weekday today + 6)%Z.
Proof.
  unfold weekday. pose proof (Z.mod_pos_bound (today + 6) 7). lia.
Qed.

(** C4, the claim as it stands fails: in the column "In Progress" a
    card that is due today is tagged in progress, not due today. *)
Lemma in_progress_not_due_today :
  let card := mkCard (L "Fix login bug") [(L "due", L "2025-01-10")] [] in
  _parse_due fromisoformat_sample card = Some 739261%Z
  /\ focus_item fromisoformat_sample 739261 (L "In Progress") card
     = Some (InProgress, 739261%Z)
  /\ focus_item fromisoformat_sample 739261 (L "In Progress") card
     <> Some (DueToday, 739261%Z).
Proof. repeat split. discriminate. Qed.

(** C4, amended. The due date of a card is read without an exception:
    there is none when the key is absent, when its value is empty or
    when the value is not a date.  In a column other than "done" and
    "in progress" (names compared without case) a card due today is
    tagged due today and a card due the day before is tagged one day
    overdue; in "in progress" the tag is in progress, with one day
    overdue when due the day before; in "done" a card gets no tag; a
    card without a due date has a tag in "in progress" only.  In the
    list of todos the hints are today and one day overdue. *)
Theorem due_date_classification (fromisoformat : str -> option Z)
  (today : Z) (col_name : str) (card : Card) :
  let due := _parse_due fromisoformat card in
  let done := str_eqb (lower col_name) (L "done") in
  let wip := str_eqb (lower col_name) (L "in progress") in
  (dict_get (meta card) (L "due") = None -> due = None)
  /\ (dict_get (meta card) (L "due") = Some [] -> due = None)
  /\ (forall raw, dict_get (meta card) (L "due") = Some raw ->
                  fromisoformat raw = None -> due = None)
  /\ (due = None ->
      focus_item fromisoformat today col_name card
      = (if done then None
         else if wip then Some (InProgress, date_max) else None)
      /\ todo_due_str fromisoformat today card = NoHint)
  /\ (due = Some today ->
      focus_item fromisoformat today col_name card
      = (if done then None
         else if wip then Some (InProgress, today)
         else Some (DueToday, today))
      /\ todo_due_str fromisoformat today card = HintToday)
  /\ (due = Some (today - 1)%Z ->
      focus_item fromisoformat today col_name card
      = (if done then None
         else if wip then Some (InProgressOverdue 1, (today - 1)%Z)
         else Some (Overdue 1, (today - 1)%Z))
      /\ todo_due_str fromisoformat today card = HintOverdue 1).
Proof.
  intros due done wip. subst due done wip.
  repeat match goal with |- _ /\ _ => split end.
  - unfold _parse_due. now intros ->.
  - unfold _parse_due. now intros ->.
  - unfold _parse_due. intros raw -> E. now destruct raw.
  - intros E. unfold focus_item, todo_due_str. rewrite E.
    split; [|reflexivity].
    destruct (str_eqb (lower col_name) (L "done")); [reflexivity|].
    now destruct (str_eqb (lower col_name) (L "in progress")).
  - intros E. unfold focus_item, todo_due_str. rewrite E. split.
    + destruct (str_eqb (lower col_name) (L "done")); [reflexivity|].
      rewrite Z.ltb_irrefl.
      destruct (str_eqb (lower col_name) (L "in progress"));
        [reflexivity|].
      pose proof (today_in_week today) as W.
      apply Z.leb_le in W. rewrite W. now rewrite Z.sub_diag.
    + now rewrite Z.sub_diag.
  - intros E. unfold focus_item, todo_due_str. rewrite E.
    assert (Lt : (today - 1 <? today)%Z = true) by (apply Z.ltb_lt; lia).
    assert (D : (today - (today - 1) = 1)%Z) by lia.
    split.
    + destruct (str_eqb (lower col_name) (L "done")); [reflexivity|].
      rewrite Lt, D.
      now destruct (str_eqb (lower col_name) (L "in progress")).
    + replace (today - 1 - today)%Z with (-1)%Z by lia. reflexivity.
Qed.

Lemma due_date_classification_witness :
  let card := mkCard (L "Fix login bug") [(L "due", L "2025-01-09")] [] in
  focus_item fromisoformat_sample 739261 (L "To Do") card
  = Some (Overdue 1, 739260%Z)
  /\ todo_due_str fromisoformat_sample 739261 card = HintOverdue 1.
Proof.
  intros card.
  destruct (due_date_classification fromisoformat_sample 739261
              (L "To Do") card) as (_ & _ & _ & _ & _ & H).
  exact (H eq_refl).
Defined.

(* ================================================================== *)
(** * Editing a card *)
(* ================================================================== *)

Lemma dict_get_del_other d k k' :
  k <> k' -> dict_get (dict_del d k) k' = dict_get d k'.
Proof.
  intros N. induction d as [|[k0 v0] d IH]; cbn [dict_del dict_get]; auto.
  destruct (str_eqb k0 k) eqn:E; cbn [dict_get].
  - apply str_eqb_eq in E. subst k0.
    apply str_eqb_neq in N. now rewrite N.
  - now rewrite IH.
Qed.

Lemma store_title_meta card new_title :
  meta (store_title card new_title) = meta card.
Proof. now destruct new_title. Qed.

Lemma store_due_flag card new_due :
  dict_get (meta (store_due card new_due)) defaultExpanded
  = dict_get (meta card) defaultExpanded.
Proof.
  assert (Nk : L "due" <> defaultExpanded) by discriminate.
  destruct new_due as [| | |s]; try reflexivity. unfold store_due.
  destruct (str_eqb (lower s) (L "none") && dict_mem (meta card) (L "due")).
  - cbn [meta]. now apply dict_get_del_other.
  - destruct (negb (str_eqb (lower s) (L "none"))); [|reflexivity].
    cbn [meta]. now apply dict_get_set_other.
Qed.

Lemma store_body_flag card b :
  b <> [] -> dict_mem (meta card) defaultExpanded = false ->
  body (store_body card b) = b
  /\ dict_get (meta (store_body card b)) defaultExpanded = Some (L "false").
Proof.
  intros Nb M. unfold store_body. cbn [meta body title]. rewrite M.
  destruct b as [|c b]; [congruence|]. cbn [is_empty negb andb meta body].
  split; [reflexivity | apply dict_get_set_same].
Qed.

(** The terminal sets the flag when it stores a body that is not
    empty and the card has no flag. *)
Lemma terminal_edit_sets_flag card new_title new_due b card' :
  b <> [] -> dict_mem (meta card) defaultExpanded = false ->
  edit_card_fields card new_title new_due true (Some b) = Some card' ->
  body card' = b
  /\ dict_get (meta card') defaultExpanded = Some (L "false").
Proof.
  intros Nb M E.
  assert (M' : dict_mem (meta (store_due (store_title card new_title)
                                         new_due)) defaultExpanded = false).
  { unfold dict_mem in *.
    now rewrite store_due_flag, store_title_meta. }
  unfold edit_card_fields in E.
  destruct new_title; try discriminate;
    destruct new_due; try discriminate;
    injection E as <-; now apply store_body_flag.
Qed.

(** C7: the REST handler stores a body without the flag.  The request
    PUT /api/cards/To Do/0 with a body and an empty meta leaves the
    card without [defaultExpanded], in the answer and in the file; the
    same edit in the terminal sets it to "false". *)
Theorem rest_edit_omits_flag :
  let file := L "## To Do

### Fix login bug
" in
  let stored := mkCard (L "Fix login bug") [] (L "steps to repro") in
  Server.edit_card file (L "To Do") 0 (L "Fix login bug") []
                   (L "steps to repro")
  = (Server.Ok [(L "To Do", [stored])],
     L "## To Do

### Fix login bug

    ```md
    steps to repro
    ```

")
  /\ dict_mem (meta stored) defaultExpanded = false
  /\ edit_card (parse_board file) (Some 0%nat) NoAnswer NoAnswer true
               (Some (L "steps to repro"))
     = Saved [(L "To Do",
               [mkCard (L "Fix login bug")
                       [(defaultExpanded, L "false")]
                       (L "steps to repro")])].
Proof. vm_compute. repeat split. Qed.

(* ================================================================== *)
(** * What the parser keeps and what it drops *)
(* ================================================================== *)

(** X1. In every board that the parser builds from a text of ASCII
    characters, the name of each column and the title of each card
    are trimmed and on one line; the keys of each card are pairwise
    different, lower-case, trimmed, made of word characters and white
    space with a word character first; the values are trimmed and not
    empty. *)
Theorem parsed_strings_shape (text name : str) (cards : list Card)
  (c : Card) :
  ascii_text text ->
  In (name, cards) (parse_board text) -> In c cards ->
  (strip name = name /\ no_nl name)
  /\ (strip (title c) = title c /\ no_nl (title c))
  /\ NoDup (map fst (meta c))
  /\ forall k v, In (k, v) (meta c) ->
       lower k = k /\ strip k = k
       /\ match k with [] => False | x :: _ => is_word x = true end
       /\ forallb is_key_char k = true
       /\ v <> [] /\ strip v = v /\ no_nl v.
Proof.
  intros A Hcol Hc. pose proof (parse_board_shape text A) as S.
  unfold codec_board in S. rewrite Forall_forall in S.
  destruct (S _ Hcol) as [Tn Cs]. rewrite Forall_forall in Cs.
  destruct (Cs _ Hc) as [Tt [[Nd M] _]]. cbn [fst snd] in *.
  repeat split; try apply Tn; try apply Tt; auto.
  all: intros; rewrite Forall_forall in M;
    destruct (M _ H) as [(K1 & K2 & K3 & K4 & K5) (V1 & V2 & V3)];
    cbn [fst snd] in *; auto.
Qed.

Lemma parsed_strings_shape_witness :
  parse_board (L "##  To Do  
### Fix login bug
  - Due Date :  2025-01-10
")
  = [(L "To Do",
      [mkCard (L "Fix login bug") [(L "due date", L "2025-01-10")] []])]
  /\ strip (L "To Do") = L "To Do"
  /\ NoDup (map fst [(L "due date", L "2025-01-10")])
  /\ lower (L "due date") = L "due date".
Proof.
  pose (text := L "##  To Do  
### Fix login bug
  - Due Date :  2025-01-10
").
  pose (c0 := mkCard (L "Fix login bug")
                     [(L "due date", L "2025-01-10")] []).
  assert (E : parse_board text = [(L "To Do", [c0])])
    by (vm_compute; reflexivity).
  assert (A : ascii_text text) by (vm_compute; reflexivity).
  split; [exact E|].
  destruct (parsed_strings_shape text (L "To Do") [c0] c0 A)
    as ((N & _) & _ & D & M).
  - rewrite E. left. reflexivity.
  - left. reflexivity.
  - split; [exact N|]. split; [exact D|].
    exact (proj1 (M (L "due date") (L "2025-01-10")
                    (or_introl eq_refl))).
Defined.

(** X2. Writing is stable after one pass: for a valid board file of
    ASCII characters, the text written from the board that was read
    is written again, unchanged, from the board read from that
    text. *)
Theorem write_is_canonical (content : str) :
  ascii_text content ->
  valid_file (read_text content) ->
  write_board (read_board (write_board (read_board content)))
  = write_board (read_board content).
Proof. intros A V. now rewrite read_write_read. Qed.

Lemma write_is_canonical_witness :
  let content := L "##   Inbox
free text
###   Call Bob  
    - DUE:2025-01-10
" in
  write_board (read_board content) = L "## Inbox

### Call Bob

  - due: 2025-01-10

"
  /\ write_board (read_board (write_board (read_board content)))
     = write_board (read_board content).
Proof.
  intros content. split; [vm_compute; reflexivity|].
  apply write_is_canonical; [vm_compute; reflexivity|].
  unfold valid_file. vm_compute. repeat constructor; discriminate.
Defined.

Lemma flush_card_idle st : current_card (_flush_card st) = None.
Proof.
  unfold _flush_card. destruct (current_card st) eqn:E; [|exact E].
  now destruct (_parse_card_block (card_lines st)).
Qed.

Lemma flush_column_idle st : current_card (_flush_column st) = None.
Proof.
  unfold _flush_column. pose proof (flush_card_idle st) as H.
  now destruct (current_col (_flush_card st)).
Qed.

(** X3. Lines that are no headings are dropped when no card is open:
    the text in front of the first heading of the file, and the text
    between a column heading and the first card heading after it. *)
Theorem text_outside_cards_is_dropped (junk : list str) :
  Forall non_heading junk ->
  (forall rest, parse_lines (junk ++ rest) = parse_lines rest)
  /\ (forall before h g rest,
        match_h2 h = Some g ->
        parse_lines (before ++ h :: junk ++ rest)
        = parse_lines (before ++ h :: rest)).
Proof.
  intros F. split.
  - intros rest. unfold parse_lines.
    now rewrite fold_left_app, (fold_idle junk parse_init F).
  - intros before h g rest E. unfold parse_lines.
    rewrite !fold_left_app. cbn [fold_left]. rewrite fold_left_app.
    rewrite (fold_idle junk); [reflexivity | exact F |].
    unfold parse_step. rewrite E. cbn [current_card].
    apply flush_column_idle.
Qed.

Lemma text_outside_cards_is_dropped_witness :
  parse_lines ([L "---"; L "kanban-plugin: basic"; L "---"]
               ++ [L "## To Do"; L "### Fix login bug"])
  = parse_lines [L "## To Do"; L "### Fix login bug"].
Proof.
  refine (proj1 (text_outside_cards_is_dropped
                   [L "---"; L "kanban-plugin: basic"; L "---"] _) _).
  repeat constructor.
Defined.



Lemma total_cards_app a b :
  total_cards (a ++ b) = (total_cards a + total_cards b)%nat.
Proof.
  unfold total_cards. rewrite map_app.
  induction (map (fun col : str * list Card => length (snd col)) a)
    as [|x l IH]; cbn [app]; auto.
  change (list_sum (x :: ?y)) with (x + list_sum y)%nat.
  rewrite IH. change (list_sum (x :: l)) with (x + list_sum l)%nat. lia.
Qed.

Lemma cards_flush_card st :
  cards_so_far (_flush_card st) = cards_so_far st.
Proof.
  unfold _flush_card, cards_so_far.
  destruct (current_card st) eqn:E; [|now rewrite E].
  destruct (_parse_card_block (card_lines st)).
  cbn [columns current_cards current_card]. rewrite length_app.
  cbn [length]. lia.
Qed.

Lemma flush_card_col st : current_col (_flush_card st) = current_col st.
Proof.
  unfold _flush_card. destruct (current_card st); [|reflexivity].
  now destruct (_parse_card_block (card_lines st)).
Qed.

Lemma column_open_step st l :
  column_open st -> column_open (parse_step st l).
Proof.
  unfold column_open. rewrite names_step. unfold parse_step.
  destruct (match_h2 l) as [g|].
  - intros _ _. discriminate.
  - rewrite app_nil_r. intros H N. specialize (H N).
    destruct (match_h3 l) as [g|].
    + cbn [current_col]. now rewrite flush_card_col.
    + now destruct (current_card st).
Qed.

Lemma cards_step st l :
  column_open st ->
  cards_so_far (parse_step st l)
  = (cards_so_far st + if is_card_heading l then 1 else 0)%nat.
Proof.
  intros O. unfold is_card_heading, parse_step.
  destruct (match_h2 l) as [g|].
  - rewrite Nat.add_0_r. rewrite <- (cards_flush_card st).
    unfold _flush_column, cards_so_far at 1.
    pose proof (flush_card_idle st) as I.
    destruct (_flush_card st) as [cols col cards card ls] eqn:E.
    cbn [columns current_col current_cards current_card card_lines] in *.
    subst card. destruct col as [n|].
    + cbn [columns current_cards current_card]. unfold cards_so_far.
      cbn [columns current_cards current_card].
      rewrite total_cards_app. unfold total_cards at 2.
      cbn [map snd length].
      change (list_sum [length cards]) with (length cards + 0)%nat. lia.
    + reflexivity.
  - destruct (match_h3 l) as [g|].
    + rewrite <- (cards_flush_card st). unfold cards_so_far.
      cbn [columns current_cards current_card].
      rewrite flush_card_idle. lia.
    + rewrite Nat.add_0_r. destruct (current_card st) eqn:E; [|reflexivity].
      unfold cards_so_far. cbn [columns current_cards current_card].
      now rewrite E.
Qed.

Lemma cards_fold lines : forall st,
  column_open st ->
  cards_so_far (fold_left parse_step lines st)
  = (cards_so_far st + card_headings lines)%nat
  /\ column_open (fold_left parse_step lines st).
Proof.
  induction lines as [|l ls IH]; intros st O.
  - unfold card_headings. cbn. split; [lia | exact O].
  - cbn [fold_left].
    destruct (IH (parse_step st l) (column_open_step st l O)) as [E O'].
    split; [|exact O']. rewrite E, cards_step by auto.
    unfold card_headings. cbn [filter].
    destruct (is_card_heading l); cbn [length]; lia.
Qed.

(** X5. No card heading is lost once the file has a column heading:
    the board has as many cards as the file has card headings.  A
    file without a column heading gives the empty board, whatever
    cards it has. *)
Theorem parsed_card_count (lines : list str) :
  (heading_names lines <> [] ->
   total_cards (parse_lines lines) = card_headings lines)
  /\ (heading_names lines = [] -> parse_lines lines = []).
Proof.
  split.
  - intros N. unfold parse_lines.
    assert (O0 : column_open parse_init) by (intros H; now destruct H).
    destruct (cards_fold lines parse_init O0) as [E O].
    set (st := fold_left parse_step lines parse_init) in *.
    assert (Nst : names_so_far st <> []).
    { unfold st. now rewrite names_fold. }
    specialize (O Nst). rewrite <- (cards_flush_card st) in E.
    rewrite <- flush_card_col in O. unfold _flush_column.
    pose proof (flush_card_idle st) as I.
    destruct (_flush_card st) as [cols col cards card ls].
    cbn [columns current_col current_cards current_card card_lines] in *.
    subst card. destruct col as [n|]; [|congruence].
    cbn [columns]. unfold cards_so_far in E.
    cbn [columns current_cards current_card] in E.
    rewrite total_cards_app. unfold total_cards at 2. cbn [map snd].
    change (list_sum [length cards]) with (length cards + 0)%nat.
    unfold cards_so_far in E. cbn in E. lia.
  - intros N. pose proof (parsed_column_names lines) as E.
    rewrite N in E. destruct (parse_lines lines); [reflexivity|discriminate].
Qed.

Lemma parsed_card_count_witness :
  total_cards (parse_lines [L "### Orphan"; L "## To Do"; L "### Fix";
                            L "    ```md"; L "### in a fence"])
  = 3%nat.
Proof.
  refine (proj1 (parsed_card_count _) _). discriminate.
Defined.

(* ================================================================== *)
(** * What the REST mutations do when they succeed *)
(* ================================================================== *)

Lemma pop_rest {A} (l : list A) i x l' :
  pop l i = Some (x, l') -> l' = firstn i l ++ skipn (S i) l.
Proof.
  revert i x l'. induction l as [|y l IH]; intros [|i] x l' E;
    cbn [pop] in E; try discriminate.
  - now injection E as <- <-.
  - destruct (pop l i) as [[z r]|] eqn:P; [|discriminate].
    injection E as <- <-. cbn [firstn skipn app]. f_equal. eauto.
Qed.










Lemma list_insert_place {A} (l : list A) (i : Z) (x : A) :
  let n := Z.of_nat (length l) in
  let p := Z.to_nat (if (i <? 0)%Z then Z.max 0 (i + n) else Z.min i n) in
  (p <= length l)%nat
  /\ list_insert l i x = firstn p l ++ x :: skipn p l
  /\ nth_error (list_insert l i x) p = Some x.
Proof.
  intros n p. assert (Hp : (p <= length l)%nat).
  { unfold p, n. destruct (i <? 0)%Z eqn:E; lia. }
  split; [exact Hp|]. split; [reflexivity|].
  unfold list_insert. fold n. fold p.
  rewrite nth_error_app2; rewrite length_firstn, Nat.min_l by exact Hp;
    [|lia].
  now rewrite Nat.sub_diag.
Qed.



(* ================================================================== *)
(** * Picking a card *)
(* ================================================================== *)


Lemma enumerate_from_in {A} (l : list A) k i x :
  In (i, x) (enumerate_from k l) ->
  (k <= i)%nat /\ nth_error l (i - k) = Some x.
Proof.
  revert k. induction l as [|y l IH]; intros k; cbn [enumerate_from In];
    [tauto|].
  intros [E | H].
  - injection E as <- <-. split; [lia|]. now rewrite Nat.sub_diag.
  - destruct (IH _ H) as [Hk Hn]. split; [lia|].
    replace (i - k)%nat with (S (i - S k)) by lia. exact Hn.
Qed.


Lemma pick_from_in cols : forall p exclude r,
  In r (_pick_card_from p cols exclude) ->
  exists cards,
    (p <= opt_col r)%nat
    /\ nth_error cols (opt_col r - p) = Some (opt_name r, cards)
    /\ nth_error cards (opt_idx r) = Some (opt_card r)
    /\ existsb (str_eqb (opt_name r)) exclude = false.
Proof.
  induction cols as [|[n cs] cols IH]; intros p exclude r;
    cbn [_pick_card_from]; [intros []|].
  intros H. apply in_app_or in H as [H | H].
  - destruct (existsb (str_eqb n) exclude) eqn:E; [destruct H|].
    apply in_map_iff in H as [[i x] [<- H]].
    apply enumerate_from_in in H as [_ H]. rewrite Nat.sub_0_r in H.
    exists cs. cbn [opt_col opt_name opt_idx opt_card fst snd].
    rewrite Nat.sub_diag. auto.
  - destruct (IH _ _ _ H) as [cards (Hp & Hn & Hc & He)].
    exists cards. split; [lia|]. split; [|auto].
    replace (opt_col r - p)%nat with (S (opt_col r - S p)) by lia.
    exact Hn.
Qed.

Lemma pick_card_sound (board : Board) exclude n r :
  _pick_card board exclude (Some n) = Some r ->
  exists cards,
    nth_error board (opt_col r) = Some (opt_name r, cards)
    /\ nth_error cards (opt_idx r) = Some (opt_card r)
    /\ ~ In (opt_name r) exclude.
Proof.
  intros H. cbn [_pick_card] in H. apply nth_error_In in H.
  destruct (pick_from_in _ _ _ _ H) as [cards (_ & Hn & Hc & He)].
  rewrite Nat.sub_0_r in Hn. exists cards. repeat split; auto.
  intros I. assert (T : existsb (str_eqb (opt_name r)) exclude = true).
  { apply existsb_exists. exists (opt_name r). split; [exact I|].
    apply str_eqb_refl. }
  congruence.
Qed.





(** With two columns whose names are equal up to case, the card that
    is taken out is not the card that was picked: "b" was picked in
    "todo", "a" leaves "Todo" and "b" is in two columns. *)
Example move_with_names_equal_up_to_case :
  move_card [(L "Todo", [mkCard (L "a") [] []]);
             (L "todo", [mkCard (L "b") [] []]);
             (L "Done", [])] (Some 1%nat) (Some 1%nat)
  = Saved [(L "Todo", []);
           (L "todo", [mkCard (L "b") [] []]);
           (L "Done", [mkCard (L "b") [] []])].
Proof. reflexivity. Qed.



(* ================================================================== *)
(** * Archive, delete and add in the terminal *)
(* ================================================================== *)

(** X12. [archive_card] does nothing when no column is named "Done"
    up to case or when the move is not confirmed; it offers no card of
    a column named "Done" exactly; when it writes, the board has as
    many cards as before and the picked card is the last card of the
    first column named "Done" up to case. *)
Theorem archive_moves_to_done board card_choice confirm :
  (get_column board (L "Done") = None ->
   archive_card board card_choice confirm = Unchanged)
  /\ archive_card board card_choice false = Unchanged
  /\ forall board',
       archive_card board card_choice confirm = Saved board' ->
       total_cards board' = total_cards board
       /\ exists r done_cards,
            _pick_card board [L "Done"] card_choice = Some r
            /\ opt_name r <> L "Done"
            /\ get_column board' (L "Done")
               = Some (done_cards ++ [opt_card r]).
Proof.
  unfold archive_card. split; [now intros ->|]. split.
  - destruct (get_column board (L "Done")); [|reflexivity].
    now destruct (_pick_card board [L "Done"] card_choice).
  - intros board' E.
    destruct (get_column board (L "Done")) as [d0|]; [|discriminate].
    destruct (_pick_card board [L "Done"] card_choice) as [r|] eqn:Pk;
      [|discriminate].
    destruct confirm; [|discriminate].
    destruct (get_column board (opt_name r)) as [src|] eqn:Hs;
      [|discriminate].
    destruct (pop src (opt_idx r)) as [[x src']|] eqn:P; [|discriminate].
    destruct (get_column (set_column board (opt_name r) src') (L "Done"))
      as [done_cards|] eqn:Hd; [|discriminate].
    injection E as <-. split.
    + eapply move_total; eauto using pop_length.
      rewrite length_app. cbn [length]. lia.
    + exists r, done_cards. split; [reflexivity|]. split.
      * destruct card_choice as [n|]; [|discriminate].
        destruct (pick_card_sound board _ n r Pk)
          as [cards (_ & _ & Hx)].
        intros En. apply Hx. rewrite En. now left.
      * eapply get_set_column; eauto.
Qed.

Lemma archive_moves_to_done_witness :
  archive_card [(L "To Do", [mkCard (L "a") [] []]); (L "done", [])]
               (Some 0%nat) true
  = Saved [(L "To Do", []); (L "done", [mkCard (L "a") [] []])]
  /\ total_cards [(L "To Do", []); (L "done", [mkCard (L "a") [] []])]
     = total_cards [(L "To Do", [mkCard (L "a") [] []]); (L "done", [])].
Proof.
  split; [reflexivity|].
  exact (proj1 (proj2 (proj2 (archive_moves_to_done
                                [(L "To Do", [mkCard (L "a") [] []]);
                                 (L "done", [])] (Some 0%nat) true))
                  _ eq_refl)).
Defined.







(** X15. [yn] answers [True] exactly when a line was typed that is
    blank or whose first character, white space aside, is "y" or
    "Y": an empty answer is a yes, the end of the input is not. *)
Theorem yn_default_is_yes (input : option str) :
  yn_is_true input = true
  <-> exists line,
        input = Some line
        /\ (strip line = []
            \/ startswith (L "y") (lower (strip line)) = true).
Proof.
  unfold yn_is_true, yn, prompt.
  destruct input as [line|].
  2:{ split; [discriminate|]. now intros [line [H _]]. }
  assert (Q : forall x, str_eqb x (L "q") = true
                        -> startswith (L "y") x = false).
  { intros x H. apply str_eqb_eq in H. now subst. }
  assert (B : forall x, str_eqb x (L "b") = true
                        -> startswith (L "y") x = false).
  { intros x H. apply str_eqb_eq in H. now subst. }
  assert (G : forall raw,
            match
              (if str_eqb (lower raw) (L "q") then Some ui_QUIT
               else if str_eqb (lower raw) (L "b") then Some ui_BACK
               else if is_empty raw then Some (L "y") else Some raw)
            with
            | Some raw0 =>
                if str_eqb raw0 ui_BACK then YnBACK
                else if str_eqb raw0 ui_QUIT then YnQUIT
                else if negb (is_empty raw0)
                        && startswith (L "y") (lower raw0)
                then Yes else No
            | None => No
            end = Yes
            <-> (raw = [] \/ startswith (L "y") (lower raw) = true)).
  { intros raw.
    destruct (str_eqb (lower raw) (L "q")) eqn:Eq.
    { pose proof (Q _ Eq) as Nq. split; [discriminate|].
      intros [-> | H]; [discriminate | congruence]. }
    destruct (str_eqb (lower raw) (L "b")) eqn:Ebk.
    { pose proof (B _ Ebk) as Nb. split; [discriminate|].
      intros [-> | H]; [discriminate | congruence]. }
    destruct raw as [|c r]; [split; [now left | reflexivity]|].
    cbn [is_empty].
    destruct (str_eqb (c :: r) ui_BACK) eqn:E1.
    { apply str_eqb_eq in E1. rewrite E1. split; [discriminate|].
      intros [H | H]; discriminate. }
    destruct (str_eqb (c :: r) ui_QUIT) eqn:E2.
    { apply str_eqb_eq in E2. rewrite E2. split; [discriminate|].
      intros [H | H]; discriminate. }
    cbn [negb andb].
    destruct (startswith (L "y") (lower (c :: r))); split; auto;
      try discriminate.
    intros [H | H]; discriminate. }
  assert (T : forall y : yn_answer,
            match y with Yes => true | _ => false end = true -> y = Yes).
  { intros y. now destruct y. }
  split.
  - intros H. exists line. split; [reflexivity|]. apply G, T, H.
  - intros [l [[= <-] H]]. apply G in H. now rewrite H.
Qed.

Lemma multiline_loop_text inputs : forall first lines s,
  multiline_loop first inputs lines = Text s ->
  exists typed rest,
    inputs = typed ++ [] :: rest
    /\ Forall (fun l => l <> []) typed
    /\ s = join_nl (lines ++ typed).
Proof.
  induction inputs as [|line inputs IH]; intros first lines s E;
    cbn [multiline_loop] in E; [discriminate|].
  destruct (first && str_eqb (lower (strip line)) (L "b"));
    [discriminate|].
  destruct (first && str_eqb (lower (strip line)) (L "q"));
    [discriminate|].
  destruct line as [|c line]; cbn [is_empty] in E.
  - injection E as <-. exists [], inputs. rewrite app_nil_r.
    repeat split. constructor.
  - destruct (IH _ _ _ E) as [typed [rest (H1 & H2 & H3)]].
    exists ((c :: line) :: typed), rest. rewrite H1, H3.
    rewrite <- app_assoc. repeat split. constructor; [discriminate|auto].
Qed.

(** X16. The text that [multiline] returns is made of the lines typed
    in front of the first empty line, joined by newlines; none of
    these lines is empty, so the text has no empty line and neither
    starts nor ends with a newline. *)
Theorem multiline_text inputs s :
  Forall no_nl inputs ->
  multiline inputs = Text s ->
  exists typed rest,
    inputs = typed ++ [] :: rest
    /\ s = join_nl typed
    /\ (typed = [] \/ split_nl s = typed)
    /\ (s = [] \/ Forall (fun l => l <> []) (split_nl s)).
Proof.
  intros N E. unfold multiline in E.
  destruct (multiline_loop_text _ _ _ _ E) as [typed [rest (H1 & H2 & H3)]].
  cbn [app] in H3. exists typed, rest.
  split; [exact H1|]. split; [exact H3|].
  destruct typed as [|t typed]; [subst s; split; now left|].
  assert (S : split_nl s = t :: typed).
  { rewrite H3. apply split_join; [discriminate|].
    rewrite H1 in N. now apply Forall_app in N as [N _]. }
  split; right; [exact S | now rewrite S].
Qed.

Lemma multiline_text_witness :
  multiline [L "first line"; L "  second"; L ""; L "never read"]
  = Text (L "first line
  second").
Proof.
  destruct (multiline_text
              [L "first line"; L "  second"; L ""; L "never read"]
              (L "first line
  second")) as (typed & rest & _ & _ & _ & _).
  - repeat constructor.
  - reflexivity.
  - reflexivity.
Defined.

Lemma yn_default_is_yes_witness : yn_is_true (Some (L "   ")) = true.
Proof.
  apply (proj2 (yn_default_is_yes (Some (L "   ")))).
  exists (L "   "). split; [reflexivity | left; reflexivity].
Defined.

(* ================================================================== *)
(** * Reading back what was written, in general *)
(* ================================================================== *)

Lemma match_meta_line_w k v :
  writable_key k -> valid_value v ->
  match_meta (L "- " ++ k ++ L ": " ++ v) = Some (k, v).
Proof.
  intros [K1 [K2 _]] [N [T V]]. apply strip_fixed_inv in T as [T _].
  destruct k as [|c k]; [contradiction|].
  unfold match_meta.
  change (L "- " ++ (c :: k) ++ L ": " ++ v)
    with (L "-" ++ (L " " ++ ((c :: k) ++ L ":" ++ (L " " ++ v)))).
  rewrite after_prefix_app.
  rewrite span_app; [|reflexivity|simpl; now apply is_word_not_space].
  simpl app at 1. cbv iota beta. rewrite K1.
  change (c :: k ++ L ":" ++ L " " ++ v)
    with ((c :: k) ++ L ":" ++ (L " " ++ v)).
  rewrite span_app; [|exact K2|reflexivity].
  simpl app at 1. cbv iota beta. rewrite N.eqb_refl.
  change (32%N :: v) with (L " " ++ v).
  rewrite match_val_spaces; auto. reflexivity.
Qed.

Lemma block_step_meta_line_w st k v :
  b_in_fence st = false -> writable_key k -> valid_value v ->
  block_step st (meta_line (k, v))
  = mkBlock (dict_set (b_meta st) (lower k) v) (b_body_lines st) false.
Proof.
  intros H K V. unfold block_step.
  rewrite strip_meta_line by exact V.
  rewrite match_meta_line_w by assumption.
  change (startswith fence (L "- " ++ k ++ L ": " ++ v)) with false.
  cbv iota. rewrite H.
  destruct K as [_ [_ [Tk _]]]. destruct V as [_ [Tv _]].
  now rewrite Tk, Tv.
Qed.

Lemma block_meta_lines_w m : forall st,
  b_in_fence st = false ->
  Forall (fun kv => writable_key (fst kv) /\ valid_value (snd kv)) m ->
  fold_left block_step (map meta_line m) st
  = mkBlock (fold_left (fun d kv => dict_set d (lower (fst kv)) (snd kv))
                       m (b_meta st))
            (b_body_lines st) false.
Proof.
  induction m as [|[k v] m IH]; intros st H F; cbn [map fold_left].
  - destruct st. cbn in *. now subst.
  - inversion F as [|? ? [K V] F']; subst. cbn [fst snd] in *.
    rewrite block_step_meta_line_w by assumption. now rewrite IH.
Qed.

Lemma block_step_body_line_w st l :
  b_in_fence st = true -> startswith fence (strip l) = false ->
  block_step st (body_line l)
  = mkBlock (b_meta st) (b_body_lines st ++ [strip l]) true.
Proof.
  intros H Fc. unfold block_step, body_line.
  rewrite strip_all_space by reflexivity. now rewrite Fc, H.
Qed.

Lemma block_body_lines_w ls : forall st,
  b_in_fence st = true ->
  Forall (fun l => startswith fence (strip l) = false) ls ->
  fold_left block_step (map body_line ls) st
  = mkBlock (b_meta st) (b_body_lines st ++ map strip ls) true.
Proof.
  induction ls as [|l ls IH]; intros st H F; cbn [map fold_left].
  - rewrite app_nil_r. destruct st. cbn in *. now subst.
  - inversion F as [|? ? Hl F']; subst.
    rewrite block_step_body_line_w by assumption.
    rewrite IH by auto. cbn [b_meta b_body_lines].
    now rewrite <- app_assoc.
Qed.

Lemma block_written_body_w st b :
  b_in_fence st = false ->
  Forall (fun l => startswith fence (strip l) = false) (split_nl b) ->
  fold_left block_step
    ([L "    ```md"] ++ map body_line (split_nl b) ++ [L "    ```"]) st
  = mkBlock (b_meta st) (b_body_lines st ++ map strip (split_nl b)) false.
Proof.
  intros H B. rewrite !fold_left_app. cbn [fold_left].
  rewrite block_fence_open by exact H.
  rewrite block_body_lines_w by auto.
  now rewrite block_fence_close.
Qed.

Lemma parse_written_block_w c k :
  writable_card c ->
  _parse_card_block (tl (write_card c) ++ repeat [] k)
  = (norm_meta (meta c), norm_body (body c)).
Proof.
  intros [_ [M B]]. unfold _parse_card_block, block_run, write_card.
  cbn [tl app fold_left].
  rewrite block_step_blank by reflexivity.
  rewrite fold_left_app.
  match goal with
  | |- context [fold_left block_step (repeat [] k) ?x] =>
      assert (E : x = mkBlock (norm_meta (meta c))
                        (if is_empty (body c) then []
                         else map strip (split_nl (body c))) false)
  end.
  { unfold norm_meta.
    destruct (is_empty (meta c)) eqn:Em, (is_empty (body c)) eqn:Eb;
      cbn [negb orb]; cbv iota.
    - destruct (meta c); [reflexivity | discriminate].
    - rewrite 2 fold_left_app, block_meta_lines_w by (auto; reflexivity).
      rewrite (block_written_body_w _ (body c)) by auto.
      cbn [fold_left]. now rewrite block_step_blank.
    - rewrite 2 fold_left_app, block_meta_lines_w by (auto; reflexivity).
      cbn [fold_left]. now rewrite block_step_blank.
    - rewrite 2 fold_left_app, block_meta_lines_w by (auto; reflexivity).
      rewrite (block_written_body_w _ (body c)) by auto.
      cbn [fold_left]. now rewrite block_step_blank. }
  rewrite E, block_blanks by reflexivity. cbn [b_meta b_body_lines].
  f_equal. unfold norm_body.
  destruct (body c) as [|x b] eqn:Eb; reflexivity.
Qed.

Lemma fold_card_w c st cols col cards k :
  title c <> [] -> tidy (title c) ->
  _flush_card st = mkParse cols col cards None [] ->
  fold_left parse_step (write_card c ++ repeat [] k) st
  = mkParse cols col cards (Some (title c))
            (tl (write_card c) ++ repeat [] k).
Proof.
  intros N T E.
  pose proof (non_heading_written c k) as F.
  destruct (write_card c) as [|h t] eqn:W; [discriminate|].
  assert (Eh : h = L "### " ++ title c) by (now injection W).
  subst h. cbn [tl app fold_left] in *.
  rewrite parse_step_h3 by assumption. rewrite E. cbn beta zeta.
  now rewrite fold_pending.
Qed.

Lemma flush_written_w c cols col cards k :
  writable_card c ->
  _flush_card (mkParse cols col cards (Some (title c))
                       (tl (write_card c) ++ repeat [] k))
  = mkParse cols col (cards ++ [norm_card c]) None [].
Proof.
  intros W. unfold _flush_card. cbn [current_card card_lines].
  now rewrite parse_written_block_w.
Qed.

Lemma fold_cards_w cs : forall c st cols col cards k,
  Forall writable_card (c :: cs) ->
  _flush_card st = mkParse cols col cards None [] ->
  _flush_card
    (fold_left parse_step (flat_map write_card (c :: cs) ++ repeat [] k) st)
  = mkParse cols col (cards ++ map norm_card (c :: cs)) None [].
Proof.
  induction cs as [|c' cs IH]; intros c st cols col cards k F E;
    inversion F as [|? ? Hc F']; subst.
  - cbn [flat_map]. rewrite app_nil_r.
    rewrite (fold_card_w c st cols col cards k) by (auto; apply Hc).
    now apply flush_written_w.
  - change (flat_map write_card (c :: c' :: cs))
      with (write_card c ++ flat_map write_card (c' :: cs)).
    rewrite <- app_assoc, fold_left_app.
    assert (E1 : fold_left parse_step (write_card c) st
                 = mkParse cols col cards (Some (title c))
                           (tl (write_card c))).
    { pose proof (fold_card_w c st cols col cards 0) as X.
      cbn [repeat] in X. rewrite !app_nil_r in X.
      apply X; auto; apply Hc. }
    rewrite E1.
    rewrite (IH c' _ cols col (cards ++ [norm_card c]) k F').
    + now rewrite <- app_assoc.
    + pose proof (flush_written_w c cols col cards 0 Hc) as E2.
      cbn [repeat] in E2. now rewrite app_nil_r in E2.
Qed.

Lemma fold_column_w col st cols0 k :
  (fst col <> [] /\ tidy (fst col)) /\ Forall writable_card (snd col) ->
  _flush_column st = mkParse cols0 None [] None [] ->
  _flush_column
    (fold_left parse_step (write_column col ++ repeat [] k) st)
  = mkParse (cols0 ++ [(fst col, map norm_card (snd col))]) None [] None [].
Proof.
  intros [[N T] F] E. destruct col as [n cs]. cbn [fst snd] in *.
  unfold write_column. cbn [fst snd app fold_left].
  rewrite parse_step_h2 by assumption. rewrite E. cbn beta zeta.
  cbn [columns current_cards current_card card_lines].
  rewrite (parse_step_idle _ []) by (auto using non_heading_blank).
  destruct cs as [|c cs].
  - cbn [flat_map app].
    rewrite fold_idle; [reflexivity| |reflexivity].
    apply Forall_forall. intros l Hl. apply repeat_spec in Hl. subst.
    apply non_heading_blank.
  - unfold _flush_column.
    rewrite (fold_cards_w cs c _ cols0 (Some n) [] k F) by reflexivity.
    reflexivity.
Qed.

Lemma fold_columns_w b : forall col st cols0 k,
  writable_board (col :: b) ->
  _flush_column st = mkParse cols0 None [] None [] ->
  _flush_column
    (fold_left parse_step (board_lines (col :: b) ++ repeat [] k) st)
  = mkParse (cols0 ++ norm_board (col :: b)) None [] None [].
Proof.
  induction b as [|col' b IH]; intros col st cols0 k F E;
    inversion F as [|? ? Hc F']; subst.
  - unfold board_lines. cbn [flat_map]. rewrite app_nil_r.
    now apply fold_column_w.
  - change (board_lines (col :: col' :: b))
      with (write_column col ++ board_lines (col' :: b)).
    rewrite <- app_assoc, fold_left_app.
    rewrite (IH col' _ (cols0 ++ [(fst col, map norm_card (snd col))])
               k F').
    + now rewrite <- app_assoc.
    + pose proof (fold_column_w col st cols0 0 Hc E) as E1.
      cbn [repeat] in E1. now rewrite app_nil_r in E1.
Qed.

Lemma written_card_no_nl_w c :
  writable_card c -> Forall no_nl (write_card c).
Proof.
  intros [[_ [_ Ht]] [M _]]. unfold write_card.
  apply Forall_app. split.
  - repeat constructor. apply no_nl_app. split; [reflexivity | exact Ht].
  - destruct (negb (is_empty (meta c)) || negb (is_empty (body c)));
      [|constructor].
    apply Forall_app. split.
    + apply Forall_forall. intros l Hl.
      apply in_map_iff in Hl as [[k v] [<- Hkv]].
      rewrite Forall_forall in M. destruct (M _ Hkv) as [K V].
      cbn [fst snd] in K, V. unfold meta_line. cbn [fst snd].
      repeat (apply no_nl_app; split); try reflexivity.
      * apply K.
      * apply V.
    + apply Forall_app. split; [|repeat constructor].
      destruct (negb (is_empty (body c))); [|constructor].
      constructor; [reflexivity|].
      apply Forall_app. split; [|repeat constructor].
      apply Forall_forall. intros l Hl. apply in_map_iff in Hl as [x [<- Hx]].
      unfold body_line. apply no_nl_app. split; [reflexivity|].
      pose proof (split_lines_no_nl (body c)) as S.
      rewrite Forall_forall in S. now apply S.
Qed.

Lemma written_board_no_nl_w b :
  writable_board b -> Forall no_nl (board_lines b).
Proof.
  intros F. unfold board_lines. apply Forall_flat_map.
  eapply Forall_impl; [|exact F]. intros [n cs] [[_ [_ Hn]] Hc].
  unfold write_column. cbn [fst snd] in *. apply Forall_app. split.
  - repeat constructor. apply no_nl_app. split; [reflexivity | exact Hn].
  - apply Forall_flat_map. eapply Forall_impl; [|exact Hc].
    apply written_card_no_nl_w.
Qed.

(** The parser on the text given to [write()], for a writable
    board. *)
Lemma written_board_parse (board : Board) :
  writable_board board ->
  parse_board (write_board board) = norm_board board.
Proof.
  intros F. destruct board as [|col b]; [reflexivity|].
  unfold parse_board, write_board. rewrite split_snoc_nl.
  rewrite split_join.
  - unfold parse_lines.
    exact (f_equal columns (fold_columns_w b col parse_init [] 1 F eq_refl)).
  - destruct col as [n cs]. discriminate.
  - now apply written_board_no_nl_w.
Qed.

(** What is read from the file written from a plain, writable
    board. *)
Lemma written_board_read (board : Board) :
  plain_board board -> writable_board board ->
  read_board (write_board board) = norm_board board.
Proof.
  intros P F. unfold read_board.
  rewrite read_written_plain by exact P. now apply written_board_parse.
Qed.

(** X17. What is read from a written board: for every board of ASCII
    text without carriage return, with writable names, keys, values
    and bodies, the columns and the cards come back in order with
    their names and titles; of each card the keys come back in lower
    case, a later entry replacing an earlier one whose key is the
    same up to case, and the body comes back with every line trimmed
    and the whole trimmed. *)
Theorem parse_write_normalises (board : Board) :
  plain_board board -> writable_board board ->
  read_board (write_board board) = norm_board board.
Proof.
  exact (written_board_read board).
Qed.

Lemma parse_write_normalises_witness :
  read_board
    (write_board
       [(L "To Do",
         [mkCard (L "Call Bob")
                 [(L "Due", L "2025-01-10"); (L "due", L "2025-02-01")]
                 (L "  - ask for a quote  
   
")])])
  = [(L "To Do",
      [mkCard (L "Call Bob") [(L "due", L "2025-02-01")]
              (L "- ask for a quote")])].
Proof.
  rewrite parse_write_normalises; [reflexivity| |].
  - repeat constructor.
  - repeat constructor; try discriminate; try reflexivity.
Defined.

Lemma norm_meta_valid m : valid_meta m -> norm_meta m = m.
Proof.
  intros [N F]. unfold norm_meta.
  assert (E : forall d,
            fold_left (fun d kv => dict_set d (lower (fst kv)) (snd kv)) m d
            = fold_left (fun d kv => dict_set d (fst kv) (snd kv)) m d).
  { induction F as [|[k v] m [[_ [_ [Lk _]]] _] F IH]; intros d;
      cbn [fold_left fst snd] in *; [reflexivity|].
    rewrite Lk. apply IH. cbn [map] in N. now inversion N. }
  rewrite E. now apply (fold_dict_set m []).
Qed.

Lemma norm_body_valid b : valid_body b -> norm_body b = b.
Proof.
  intros [T F]. unfold norm_body.
  assert (E : map strip (split_nl b) = split_nl b).
  { induction F as [|l ls [Hl _] F IH]; cbn [map]; congruence. }
  now rewrite E, join_split.
Qed.

Lemma norm_card_valid c : codec_card c -> norm_card c = c.
Proof.
  intros [_ [M B]]. unfold norm_card.
  rewrite norm_meta_valid, norm_body_valid by assumption. now destruct c.
Qed.

Lemma norm_cards_valid cs : Forall valid_card cs -> map norm_card cs = cs.
Proof.
  induction 1 as [|c cs [_ Hc] F IH]; cbn [map]; [reflexivity|].
  now rewrite norm_card_valid, IH.
Qed.

Lemma norm_board_valid b : valid_board b -> norm_board b = b.
Proof.
  unfold norm_board. induction 1 as [|[n cs] b [_ Hc] F IH]; cbn [map];
    [reflexivity|].
  cbn [fst snd] in *. now rewrite norm_cards_valid, IH.
Qed.

Lemma valid_card_writable c : valid_card c -> writable_card c.
Proof.
  intros [N [T [[_ M] [_ B]]]]. split; [now split|]. split.
  - eapply Forall_impl; [|exact M].
    intros [k v] [[K1 [K2 [_ K4]]] V]. cbn [fst snd] in *.
    split; [repeat split; auto; apply K4 | exact V].
  - eapply Forall_impl; [|exact B]. intros l [Hl [Fl _]]. now rewrite Hl.
Qed.

Lemma valid_board_writable b : valid_board b -> writable_board b.
Proof.
  intros F. eapply Forall_impl; [|exact F].
  intros [n cs] [Hn Hc]. split; [exact Hn|].
  eapply Forall_impl; [|exact Hc]. apply valid_card_writable.
Qed.

Lemma writable_set_column b name cs :
  writable_board b -> Forall writable_card cs ->
  writable_board (set_column b name cs).
Proof.
  intros F Hc. induction F as [|[n cs0] b [Hn H0] F IH];
    cbn [set_column]; [constructor|].
  destruct (str_eqb (lower n) (lower name)); constructor; auto;
    split; auto.
Qed.

Lemma writable_get_column b name cs :
  writable_board b -> get_column b name = Some cs ->
  Forall writable_card cs.
Proof.
  intros F. induction F as [|[n cs0] b [Hn H0] F IH];
    cbn [get_column]; [discriminate|].
  destruct (str_eqb (lower n) (lower name)); auto.
  now intros [= <-].
Qed.

Lemma valid_set_column b name cs :
  valid_board b -> Forall valid_card cs -> valid_board (set_column b name cs).
Proof.
  intros F Hc. induction F as [|[n cs0] b [Hn H0] F IH];
    cbn [set_column]; [constructor|].
  destruct (str_eqb (lower n) (lower name)); constructor; auto;
    split; auto.
Qed.

Lemma valid_get_column b name cs :
  valid_board b -> get_column b name = Some cs -> Forall valid_card cs.
Proof.
  intros F. induction F as [|[n cs0] b [Hn H0] F IH];
    cbn [get_column]; [discriminate|].
  destruct (str_eqb (lower n) (lower name)); auto.
  now intros [= <-].
Qed.

Lemma Forall_pop {A} (P : A -> Prop) l i x l' :
  pop l i = Some (x, l') -> Forall P l -> P x /\ Forall P l'.
Proof.
  intros E F. pose proof (pop_nth _ _ _ _ E) as Hx.
  rewrite (pop_rest _ _ _ _ E). rewrite Forall_forall in F. split.
  - apply F. eapply nth_error_In; eauto.
  - apply Forall_forall. intros y Hy. apply F.
    apply in_app_or in Hy as [Hy | Hy].
    + rewrite <- (firstn_skipn i l). apply in_or_app. now left.
    + rewrite <- (firstn_skipn (S i) l). apply in_or_app. now right.
Qed.

Lemma Forall_list_insert {A} (P : A -> Prop) l i x :
  Forall P l -> P x -> Forall P (list_insert l i x).
Proof.
  intros F Hx. unfold list_insert.
  set (j := Z.to_nat _). rewrite <- (firstn_skipn j l) in F.
  apply Forall_app in F as [F1 F2].
  apply Forall_app. split; [exact F1 | now constructor].
Qed.

Lemma Forall_list_set {A} (P : A -> Prop) l i x :
  Forall P l -> P x -> Forall P (list_set l i x).
Proof.
  intros F Hx. revert i. induction F as [|y l Hy F IH]; intros [|i];
    cbn [list_set]; constructor; auto.
Qed.

Lemma plain_set_column b name cs :
  plain_board b -> Forall plain_card cs -> plain_board (set_column b name cs).
Proof.
  intros F Hc. induction F as [|[n cs0] b [Hn H0] F IH];
    cbn [set_column]; [constructor|].
  destruct (str_eqb (lower n) (lower name)); constructor; auto;
    split; auto.
Qed.

Lemma plain_get_column b name cs :
  plain_board b -> get_column b name = Some cs -> Forall plain_card cs.
Proof.
  intros F. induction F as [|[n cs0] b [Hn H0] F IH];
    cbn [get_column]; [discriminate|].
  destruct (str_eqb (lower n) (lower name)); auto.
  now intros [= <-].
Qed.

(** What is read from the file written from a plain, valid board. *)
Lemma valid_board_read (board : Board) :
  plain_board board -> valid_board board ->
  read_board (write_board board) = board.
Proof.
  intros P V. unfold read_board.
  rewrite read_written_plain by exact P. now apply parse_write_valid.
Qed.

(** The board that a handler parses from a valid file of ASCII
    characters. *)
Lemma read_file_board content :
  ascii_text content -> valid_file (read_text content) ->
  plain_board (read_board content) /\ valid_board (read_board content).
Proof.
  intros A V. apply read_text_ascii in A. split.
  - now apply parse_board_plain.
  - apply parsed_valid; [now apply plain_ascii | exact V].
Qed.

(** What the next read gives after a successful mutation. *)
Lemma add_read_back content column t m b board' file' :
  ascii_text content -> valid_file (read_text content) ->
  plain_card (mkCard t m b) -> writable_card (mkCard t m b) ->
  Server.add_card (read_text content) column t m b
  = (Server.Ok board', file') ->
  read_board file' = norm_board board'
  /\ (valid_card (mkCard t m b) -> read_board file' = board').
Proof.
  intros A V Pc W. destruct (read_file_board content A V) as [P Vb].
  unfold read_board in P, Vb.
  unfold Server.add_card, Server._col_or_404.
  destruct (get_column (parse_board (read_text content)) column)
    as [col|] eqn:H; [|discriminate].
  intros [= <- <-].
  assert (P' : plain_board
                 (set_column (parse_board (read_text content)) column
                             (col ++ [mkCard t m b]))).
  { apply plain_set_column; auto. apply Forall_app. split.
    - eapply plain_get_column; eauto.
    - constructor; [exact Pc | constructor]. }
  split.
  - apply written_board_read; [exact P'|]. apply writable_set_column.
    + now apply valid_board_writable.
    + apply Forall_app. split; [|constructor; [exact W | constructor]].
      eapply writable_get_column; eauto using valid_board_writable.
  - intros Vc. apply valid_board_read; [exact P'|].
    apply valid_set_column; auto.
    apply Forall_app. split; [|constructor; [exact Vc | constructor]].
    eapply valid_get_column; eauto.
Qed.

Lemma move_read_back content payload board' file' :
  ascii_text content -> valid_file (read_text content) ->
  Server.move_card (read_text content) payload = (Server.Ok board', file') ->
  read_board file' = board'.
Proof.
  intros A V. destruct (read_file_board content A V) as [P Vb].
  unfold read_board in P, Vb.
  unfold Server.move_card, Server._col_or_404.
  destruct (get_column (parse_board (read_text content))
                       (Server.from_column payload))
    as [src|] eqn:Hs; [|discriminate].
  destruct (get_column (parse_board (read_text content))
                       (Server.to_column payload));
    [|discriminate].
  destruct (Server.out_of_range _ src); [discriminate|].
  destruct (pop src _) as [[card src']|] eqn:Pp; [|discriminate].
  destruct (get_column _ (Server.to_column payload)) as [dst|] eqn:Hd;
    [|discriminate].
  destruct (Z.min _ _ <? ssize_t_min)%Z; [discriminate|].
  intros [= <- <-].
  destruct (Forall_pop valid_card _ _ _ _ Pp) as [Hc Hs'];
    [eapply valid_get_column; eauto|].
  destruct (Forall_pop plain_card _ _ _ _ Pp) as [Pc Ps'];
    [eapply plain_get_column; eauto|].
  assert (V1 : valid_board
                 (set_column (parse_board (read_text content))
                             (Server.from_column payload) src'))
    by now apply valid_set_column.
  assert (P1 : plain_board
                 (set_column (parse_board (read_text content))
                             (Server.from_column payload) src'))
    by now apply plain_set_column.
  apply valid_board_read.
  - apply plain_set_column; auto.
    apply Forall_list_insert; auto. eapply plain_get_column; eauto.
  - apply valid_set_column; auto.
    apply Forall_list_insert; auto. eapply valid_get_column; eauto.
Qed.

Lemma edit_read_back content column index t m b board' file' :
  ascii_text content -> valid_file (read_text content) ->
  plain_card (mkCard t m b) -> writable_card (mkCard t m b) ->
  Server.edit_card (read_text content) column index t m b
  = (Server.Ok board', file') ->
  read_board file' = norm_board board'
  /\ (valid_card (mkCard t m b) -> read_board file' = board').
Proof.
  intros A V Pc W. destruct (read_file_board content A V) as [P Vb].
  unfold read_board in P, Vb.
  unfold Server.edit_card, Server._col_or_404.
  destruct (get_column (parse_board (read_text content)) column)
    as [col|] eqn:H; [|discriminate].
  destruct (Server.out_of_range index col); [discriminate|].
  intros [= <- <-].
  assert (P' : plain_board
                 (set_column (parse_board (read_text content)) column
                             (list_set col (Z.to_nat index)
                                       (mkCard t m b)))).
  { apply plain_set_column; auto. apply Forall_list_set; auto.
    eapply plain_get_column; eauto. }
  split.
  - apply written_board_read; [exact P'|]. apply writable_set_column.
    + now apply valid_board_writable.
    + apply Forall_list_set; auto.
      eapply writable_get_column; eauto using valid_board_writable.
  - intros Vc. apply valid_board_read; [exact P'|].
    apply valid_set_column; auto.
    apply Forall_list_set; auto. eapply valid_get_column; eauto.
Qed.

Lemma delete_read_back content column index board' file' :
  ascii_text content -> valid_file (read_text content) ->
  Server.delete_card (read_text content) column index
  = (Server.Ok board', file') ->
  read_board file' = board'.
Proof.
  intros A V. destruct (read_file_board content A V) as [P Vb].
  unfold read_board in P, Vb.
  unfold Server.delete_card, Server._col_or_404.
  destruct (get_column (parse_board (read_text content)) column)
    as [col|] eqn:H; [|discriminate].
  destruct (Server.out_of_range index col); [discriminate|].
  destruct (pop col _) as [[card col']|] eqn:Pp; [|discriminate].
  intros [= <- <-].
  destruct (Forall_pop valid_card _ _ _ _ Pp) as [_ Hs'];
    [eapply valid_get_column; eauto|].
  destruct (Forall_pop plain_card _ _ _ _ Pp) as [_ Ps'];
    [eapply plain_get_column; eauto|].
  apply valid_board_read.
  - now apply plain_set_column.
  - now apply valid_set_column.
Qed.





(** X18. What a GET answers after a successful mutation of a valid
    board file of ASCII characters.  After a move or a delete it is
    the board of the answer.  After an add or an edit whose card is
    writable and of ASCII text without carriage return it is the
    board of the answer with its cards as they are read back (keys
    in lower case, body lines trimmed), which is the board of the
    answer itself when the card of the payload has the shape of a
    parsed card. *)
Theorem rest_answer_is_read_back (content : str) :
  ascii_text content ->
  valid_file (read_text content) ->
  (forall column title meta body board' file',
     plain_card (mkCard title meta body) ->
     writable_card (mkCard title meta body) ->
     Server.add_card (read_text content) column title meta body
     = (Server.Ok board', file') ->
     read_board file' = norm_board board'
     /\ (valid_card (mkCard title meta body) ->
         read_board file' = board'))
  /\ (forall payload board' file',
        Server.move_card (read_text content) payload
        = (Server.Ok board', file') ->
        read_board file' = board')
  /\ (forall column index title meta body board' file',
        plain_card (mkCard title meta body) ->
        writable_card (mkCard title meta body) ->
        Server.edit_card (read_text content) column index title meta body
        = (Server.Ok board', file') ->
        read_board file' = norm_board board'
        /\ (valid_card (mkCard title meta body) ->
            read_board file' = board'))
  /\ (forall column index board' file',
        Server.delete_card (read_text content) column index
        = (Server.Ok board', file') ->
        read_board file' = board').
Proof.
  intros A V. repeat match goal with |- _ /\ _ => split end.
  - intros column t m b board' file'. now apply add_read_back.
  - intros payload board' file'. now apply move_read_back.
  - intros column index t m b board' file'. now apply edit_read_back.
  - intros column index board' file'. now apply delete_read_back.
Qed.

Lemma rest_answer_is_read_back_witness :
  read_board
    (snd (Server.add_card (read_text (L "## To Do
")) (L "to do") (L "Call Bob") [(L "Due", L "2025-01-10")] []))
  = [(L "To Do", [mkCard (L "Call Bob") [(L "due", L "2025-01-10")] []])].
Proof.
  assert (A : ascii_text (L "## To Do
")) by (vm_compute; reflexivity).
  assert (V : valid_file (read_text (L "## To Do
")))
    by (unfold valid_file; vm_compute; repeat constructor; discriminate).
  destruct (rest_answer_is_read_back _ A V) as [Hadd _].
  assert (W : writable_card
                (mkCard (L "Call Bob") [(L "Due", L "2025-01-10")] [])).
  { repeat constructor; try discriminate; reflexivity. }
  assert (P : plain_card
                (mkCard (L "Call Bob") [(L "Due", L "2025-01-10")] []))
    by (repeat constructor).
  exact (proj1 (Hadd (L "to do") (L "Call Bob")
                  [(L "Due", L "2025-01-10")] []
                  [(L "To Do",
                    [mkCard (L "Call Bob") [(L "Due", L "2025-01-10")] []])]
                  _ P W eq_refl)).
Defined.

(* ================================================================== *)
(** * Column names and their uniqueness *)
(* ================================================================== *)






(** A title that holds a newline and a column heading is written as
    it is by POST /api/cards: the board of the answer has the columns
    it had, the file has one more. *)
Lemma heading_in_title_adds_column :
  let file := L "## Todo
" in
  let title := L "x
## todo" in
  fst (Server.add_card file (L "Todo") title [] [])
  = Server.Ok [(L "Todo", [mkCard title [] []])]
  /\ column_names
       (read_board (snd (Server.add_card file (L "Todo") title [] [])))
     = [L "Todo"; L "todo"].
Proof. vm_compute. split; reflexivity. Qed.



Lemma parsed_meta_no_flag m :
  valid_meta m -> dict_mem m defaultExpanded = false.
Proof.
  intros [_ F]. destruct (dict_mem m defaultExpanded) eqn:E; [|reflexivity].
  apply dict_mem_in in E. apply in_map_iff in E as [[k v] [Ek Hk]].
  cbn [fst] in Ek. subst k. rewrite Forall_forall in F.
  destruct (F _ Hk) as [[_ [_ [Lk _]]] _]. discriminate.
Qed.

(** X19. The terminal edit and the flag of the file.  A parsed card
    never has the key [defaultExpanded] (its keys are in lower case),
    so storing a body that is not empty always adds the entry
    [defaultExpanded] "false"; when the card is written and read
    again, what it has under [defaultexpanded] is "false", whatever
    the file said before. *)
Theorem terminal_edit_resets_flag (c : Card) (b : str) :
  codec_card c -> title c <> [] -> b <> [] ->
  Forall (fun l => startswith fence (strip l) = false) (split_nl b) ->
  let c' := store_body c b in
  meta c' = meta c ++ [(defaultExpanded, L "false")]
  /\ _parse_card_block (tl (write_card c'))
     = (dict_set (meta c) (L "defaultexpanded") (L "false"), norm_body b).
Proof.
  intros C Nt Nb Fb c'.
  pose proof C as [T [M _]].
  assert (E : c' = mkCard (title c)
                     (meta c ++ [(defaultExpanded, L "false")]) b).
  { unfold c', store_body. cbn [meta body title].
    rewrite (parsed_meta_no_flag _ M).
    destruct b as [|x b]; [congruence|]. cbn [is_empty negb andb].
    rewrite dict_set_fresh; [reflexivity|].
    intros I. apply dict_mem_in in I.
    now rewrite (parsed_meta_no_flag _ M) in I. }
  split; [now rewrite E|].
  assert (W : writable_card c').
  { rewrite E. split; [now split|]. split; [|exact Fb].
    cbn [meta]. apply Forall_app. split.
    - destruct M as [_ M]. eapply Forall_impl; [|exact M].
      intros [k v] [[K1 [K2 [_ K4]]] V]. cbn [fst snd] in *.
      split; [repeat split; auto; apply K4 | exact V].
    - repeat constructor; discriminate. }
  pose proof (parse_written_block_w c' 0 W) as P.
  cbn [repeat] in P. rewrite app_nil_r in P. rewrite P.
  rewrite E. cbn [meta body]. f_equal.
  unfold norm_meta. rewrite fold_left_app. cbn [fold_left fst snd].
  fold (norm_meta (meta c)). now rewrite norm_meta_valid.
Qed.

Lemma terminal_edit_resets_flag_witness :
  _parse_card_block
    (tl (write_card
           (store_body
              (mkCard (L "Call Bob") [(L "defaultexpanded", L "true")] [])
              (L "ask for a quote"))))
  = ([(L "defaultexpanded", L "false")], L "ask for a quote").
Proof.
  refine (proj2 (terminal_edit_resets_flag
                   (mkCard (L "Call Bob")
                           [(L "defaultexpanded", L "true")] [])
                   (L "ask for a quote") _ _ _ _)).
  - repeat constructor; try discriminate; try reflexivity.
    simpl. intuition discriminate.
  - discriminate.
  - discriminate.
  - repeat constructor.
Defined.

(* ================================================================== *)
(** * The dashboard *)
(* ================================================================== *)

Lemma insert_by_perm {A} (key : A -> Z) x l :
  Permutation (insert_by key x l) (x :: l).
Proof.
  induction l as [|y l IH]; cbn [insert_by]; [reflexivity|].
  destruct (key x <=? key y)%Z; [reflexivity|].
  rewrite IH. apply perm_swap.
Qed.

Lemma sort_by_perm {A} (key : A -> Z) l : Permutation (sort_by key l) l.
Proof.
  induction l as [|x l IH]; cbn [sort_by fold_right]; [reflexivity|].
  fold (sort_by key l). rewrite insert_by_perm. now constructor.
Qed.

Lemma insert_by_sorted {A} (key : A -> Z) x l :
  Sorted (fun a b => (key a <= key b)%Z) l ->
  Sorted (fun a b => (key a <= key b)%Z) (insert_by key x l).
Proof.
  induction 1 as [|y l S IH H]; cbn [insert_by].
  - repeat constructor.
  - destruct (key x <=? key y)%Z eqn:E.
    + apply Z.leb_le in E. repeat constructor; auto.
    + apply Z.leb_gt in E. constructor; [exact IH|].
      destruct l as [|z l]; cbn [insert_by].
      * constructor. lia.
      * destruct (key x <=? key z)%Z; constructor; [lia|].
        now inversion H.
Qed.

Lemma sort_by_sorted {A} (key : A -> Z) l :
  Sorted (fun a b => (key a <= key b)%Z) (sort_by key l).
Proof.
  induction l as [|x l IH]; cbn [sort_by fold_right]; [constructor|].
  now apply insert_by_sorted.
Qed.

Lemma Sorted_firstn {A} (R : A -> A -> Prop) l n :
  Sorted R l -> Sorted R (firstn n l).
Proof.
  intros S. revert n. induction S as [|x l S IH H]; intros [|n];
    cbn [firstn]; try constructor; auto.
  destruct H as [|y l H]; destruct n; cbn [firstn]; constructor; auto.
Qed.

Lemma Sorted_app_all {A} (R : A -> A -> Prop) l1 l2 :
  Sorted R l1 -> Sorted R l2 ->
  (forall x y, In x l1 -> In y l2 -> R x y) ->
  Sorted R (l1 ++ l2).
Proof.
  intros S1 S2 H. induction S1 as [|x l S IH Hd]; [exact S2|].
  cbn [app]. constructor.
  - apply IH. intros a b Ha Hb. apply H; [now right | exact Hb].
  - destruct Hd as [|y l Hy]; cbn [app].
    + destruct l2 as [|z l2]; constructor. apply H; now left.
    + now constructor.
Qed.

Lemma Sorted_map {A B} (f : A -> B) (R : B -> B -> Prop) l :
  Sorted (fun a b => R (f a) (f b)) l -> Sorted R (map f l).
Proof.
  induction 1 as [|x l S IH H]; cbn [map]; constructor; auto.
  destruct H; cbn [map]; constructor; auto.
Qed.

Lemma Sorted_const {A} (R : A -> A -> Prop) l :
  (forall x y, In x l -> In y l -> R x y) -> Sorted R l.
Proof.
  induction l as [|x l IH]; intros H; constructor.
  - apply IH. intros a b Ha Hb. apply H; now right.
  - destruct l; constructor. apply H; [now left | right; now left].
Qed.

Lemma length_dated_undated {A B} (f : A -> option B) l :
  (length (flat_map (fun a => match f a with
                              | Some b => [(a, b)]
                              | None => []
                              end) l)
   + length (filter (fun a => match f a with
                              | Some _ => false
                              | None => true
                              end) l)
   = length l)%nat.
Proof.
  induction l as [|a l IH]; cbn [flat_map filter]; [reflexivity|].
  destruct (f a); cbn [app length]; lia.
Qed.

Lemma dated_undated_perm {A B} (f : A -> option B) l :
  Permutation
    (map fst (flat_map (fun a => match f a with
                                 | Some b => [(a, b)]
                                 | None => []
                                 end) l)
     ++ filter (fun a => match f a with
                         | Some _ => false
                         | None => true
                         end) l)
    l.
Proof.
  induction l as [|a l IH]; cbn [flat_map filter map app]; [constructor|].
  destruct (f a); cbn [app map fst].
  - now constructor.
  - apply Permutation_sym, Permutation_cons_app, Permutation_sym, IH.
Qed.

(** X20. The list "Top Todos" of the dashboard is made of the first
    fifteen entries of a list that has every card of the first column
    named "To Do" up to case once (all of them when the column has
    fifteen cards or fewer): each with the due date read from it,
    those with a date first and in the order of their dates, those
    without a date behind them. *)
Theorem top_todos_order (fromisoformat : str -> option Z) (board : Board) :
  let todo_cards := match get_column board (L "To Do") with
                    | Some cards => cards
                    | None => []
                    end in
  let top := top_todos fromisoformat board in
  exists full,
    top = firstn 15 full
    /\ Permutation (map fst full) todo_cards
    /\ Sorted (fun a b => due_le (snd a) (snd b)) full
    /\ (forall card due,
          In (card, due) full -> due = _parse_due fromisoformat card)
    /\ length top = Nat.min 15 (length todo_cards)
    /\ Sorted (fun a b => due_le (snd a) (snd b)) top
    /\ (forall card due,
          In (card, due) top ->
          In card todo_cards /\ due = _parse_due fromisoformat card)
    /\ ((length todo_cards <= 15)%nat ->
        Permutation (map fst top) todo_cards).
Proof.
  intros todo_cards top. unfold top, top_todos. fold todo_cards.
  set (dated := flat_map _ todo_cards).
  set (undated := filter _ todo_cards).
  set (full := map _ (sort_by _ dated) ++ map _ undated).
  assert (Hin : forall card due,
            In (card, due) full ->
            In card todo_cards /\ due = _parse_due fromisoformat card).
  { intros card due H. unfold full in H. apply in_app_or in H as [H | H].
    - apply in_map_iff in H as [[c d] [E H]]. cbn [fst snd] in E.
      injection E as <- <-.
      apply (Permutation_in _ (sort_by_perm _ dated)) in H.
      unfold dated in H. apply in_flat_map in H as [c' [Hc H]].
      destruct (_parse_due fromisoformat c') as [d'|] eqn:P; [|destruct H].
      destruct H as [E|[]]. injection E as <- <-. now split.
    - apply in_map_iff in H as [c [E H]]. injection E as <- <-.
      unfold undated in H. apply filter_In in H as [Hc H].
      destruct (_parse_due fromisoformat c); [discriminate|]. now split. }
  assert (Hp : Permutation (map fst full) todo_cards).
  { eapply Permutation_trans;
      [|exact (dated_undated_perm (_parse_due fromisoformat) todo_cards)].
    fold dated. fold undated. unfold full.
    rewrite map_app, !map_map. cbn [fst]. rewrite map_id.
    apply Permutation_app_tail.
    apply Permutation_map, sort_by_perm. }
  assert (Hs : Sorted (fun a b => due_le (snd a) (snd b)) full).
  { unfold full. apply Sorted_app_all.
    - apply Sorted_map. cbn [snd due_le]. apply sort_by_sorted.
    - apply Sorted_map. cbn [snd due_le]. apply Sorted_const. auto.
    - intros x y Hx Hy. apply in_map_iff in Hy as [c [<- _]].
      cbn [snd]. now destruct (snd x). }
  assert (Hl : length full = length todo_cards).
  { rewrite <- (Permutation_length Hp). now rewrite length_map. }
  exists full. split; [reflexivity|]. split; [exact Hp|].
  split; [exact Hs|]. split; [intros card due H; now apply Hin|].
  split; [rewrite length_firstn; now rewrite Hl|].
  split; [now apply Sorted_firstn|]. split.
  - intros card due H. apply Hin.
    rewrite <- (firstn_skipn 15 full). apply in_or_app. now left.
  - intros Le. rewrite firstn_all2 by lia. exact Hp.
Qed.

Lemma top_todos_order_witness :
  top_todos fromisoformat_sample
    [(L "to do",
      [mkCard (L "a") [] [];
       mkCard (L "b") [(L "due", L "2025-01-10")] [];
       mkCard (L "c") [(L "due", L "2025-01-09")] []])]
  = [(mkCard (L "c") [(L "due", L "2025-01-09")] [], Some 739260%Z);
     (mkCard (L "b") [(L "due", L "2025-01-10")] [], Some 739261%Z);
     (mkCard (L "a") [] [], None)]
  /\ Permutation
       (map fst
          (top_todos fromisoformat_sample
             [(L "to do",
               [mkCard (L "a") [] [];
                mkCard (L "b") [(L "due", L "2025-01-10")] [];
                mkCard (L "c") [(L "due", L "2025-01-09")] []])]))
       [mkCard (L "a") [] [];
        mkCard (L "b") [(L "due", L "2025-01-10")] [];
        mkCard (L "c") [(L "due", L "2025-01-09")] []].
Proof.
  split; [reflexivity|].
  destruct (top_todos_order fromisoformat_sample
              [(L "to do",
                [mkCard (L "a") [] [];
                 mkCard (L "b") [(L "due", L "2025-01-10")] [];
                 mkCard (L "c") [(L "due", L "2025-01-09")] []])])
    as (full & _ & _ & _ & _ & _ & _ & _ & Hall).
  apply Hall. cbn. lia.
Defined.

Lemma week_end_is_sunday today :
  let week_end := (today - weekday today + 6)%Z in
  weekday week_end = 6%Z /\ (today <= week_end <= today + 6)%Z.
Proof.
  intros week_end. unfold week_end, weekday.
  pose proof (Z.mod_pos_bound (today + 6) 7 ltac:(lia)) as B.
  split; [|lia].
  pose proof (Z.div_mod (today + 6) 7 ltac:(lia)) as D.
  replace (today - (today + 6) mod 7 + 6 + 6)%Z
    with (6 + ((today + 6) / 7) * 7)%Z by lia.
  rewrite Z.mod_add by lia. reflexivity.
Qed.

(** X21. The section "This Week".  The week ends on the Sunday that
    is today or follows it.  In a column other than "done" and "in
    progress", a card with a due date is listed exactly when the date
    is not after that Sunday: as overdue by the number of days when
    the date is before today, and else as due today, due tomorrow or
    due on its day; so on a Sunday a card that is due the next day is
    not listed.  In "in progress" every card is listed, in "done"
    none. *)
Theorem focus_window (fromisoformat : str -> option Z) (today : Z)
  (col_name : str) (card : Card) :
  let week_end := (today - weekday today + 6)%Z in
  let item := focus_item fromisoformat today col_name card in
  (weekday week_end = 6%Z /\ (today <= week_end <= today + 6)%Z)
  /\ (str_eqb (lower col_name) (L "done") = true -> item = None)
  /\ (str_eqb (lower col_name) (L "done") = false ->
      str_eqb (lower col_name) (L "in progress") = true -> item <> None)
  /\ (str_eqb (lower col_name) (L "done") = false ->
      str_eqb (lower col_name) (L "in progress") = false ->
      forall d,
        _parse_due fromisoformat card = Some d ->
        (item <> None <-> (d <= week_end)%Z)
        /\ ((d < today)%Z -> item = Some (Overdue (today - d), d))
        /\ (d = today -> item = Some (DueToday, d))
        /\ (d = (today + 1)%Z ->
            item = if (weekday today =? 6)%Z then None
                   else Some (DueTomorrow, d))
        /\ ((today + 1 < d <= week_end)%Z -> item = Some (DueOn d, d))).
Proof.
  intros week_end item.
  pose proof (week_end_is_sunday today) as [W1 W2]. fold week_end in W1, W2.
  split; [now split|]. unfold item, focus_item. fold week_end.
  split; [now intros ->|]. split.
  - intros -> ->. now destruct (_parse_due fromisoformat card).
  - intros -> ->. intros d ->.
    destruct (d <? today)%Z eqn:Lt.
    + apply Z.ltb_lt in Lt. repeat split; try discriminate; try lia.
    + apply Z.ltb_ge in Lt.
      destruct (d <=? week_end)%Z eqn:Le.
      * apply Z.leb_le in Le. repeat split; try discriminate; try lia.
        -- intros ->. now rewrite Z.sub_diag.
        -- intros ->. replace (today + 1 - today)%Z with 1%Z by lia.
           cbn. destruct (weekday today =? 6)%Z eqn:E; [|reflexivity].
           apply Z.eqb_eq in E. unfold week_end in Le. lia.
        -- intros [H1 H2].
           destruct (d - today =? 0)%Z eqn:E0; [apply Z.eqb_eq in E0; lia|].
           destruct (d - today =? 1)%Z eqn:E1; [apply Z.eqb_eq in E1; lia|].
           reflexivity.
      * apply Z.leb_gt in Le. repeat split; try lia; try congruence.
        intros ->. destruct (weekday today =? 6)%Z eqn:E; [reflexivity|].
           apply Z.eqb_neq in E. unfold week_end in Le.
           pose proof (Z.mod_pos_bound (today + 6) 7 ltac:(lia)).
           unfold weekday in *. lia.
Qed.

Lemma focus_window_witness :
  focus_item fromisoformat_sample 739260 (L "To Do")
    (mkCard (L "a") [(L "due", L "2025-01-10")] [])
  = Some (DueTomorrow, 739261%Z).
Proof.
  destruct (focus_window fromisoformat_sample 739260 (L "To Do")
              (mkCard (L "a") [(L "due", L "2025-01-10")] []))
    as (_ & _ & _ & H).
  destruct (H eq_refl eq_refl 739261%Z eq_refl) as (_ & _ & _ & T & _).
  exact (T eq_refl).
Defined.

(** X22. The list "This Week" is in the order of the sort dates, a
    card of "in progress" without a date counting as of the last day
    of the calendar; it has no card of a column named "done" up to
    case, and every entry is a card of the column it names with the
    tag and the date of that card. *)
Theorem focus_items_order (fromisoformat : str -> option Z) (today : Z)
  (board : Board) :
  Sorted (fun a b => (snd a <= snd b)%Z)
         (focus_items fromisoformat today board)
  /\ forall card col_name tg d,
       In (card, col_name, tg, d) (focus_items fromisoformat today board) ->
       lower col_name <> L "done"
       /\ focus_item fromisoformat today col_name card = Some (tg, d)
       /\ exists cards, In (col_name, cards) board /\ In card cards.
Proof.
  unfold focus_items. split; [apply sort_by_sorted|].
  intros card col_name tg d H.
  apply (Permutation_in _ (sort_by_perm _ _)) in H.
  apply in_flat_map in H as [[n cs] [Hcol H]]. cbn [fst snd] in H.
  apply in_flat_map in H as [c [Hc H]].
  destruct (focus_item fromisoformat today n c) as [[t0 d0]|] eqn:F;
    [|destruct H].
  destruct H as [E|[]]. injection E as <- <- <- <-.
  split; [|split; [exact F | eauto]].
  intros E. unfold focus_item in F. rewrite E in F. discriminate.
Qed.

Lemma focus_items_order_witness :
  focus_items fromisoformat_sample 739261
    [(L "In Progress", [mkCard (L "w") [] []]);
     (L "To Do", [mkCard (L "a") [(L "due", L "2025-01-10")] [];
                  mkCard (L "b") [(L "due", L "2025-01-09")] []]);
     (L "DONE", [mkCard (L "z") [(L "due", L "2025-01-09")] []])]
  = [(mkCard (L "b") [(L "due", L "2025-01-09")] [], L "To Do",
      Overdue 1, 739260%Z);
     (mkCard (L "a") [(L "due", L "2025-01-10")] [], L "To Do",
      DueToday, 739261%Z);
     (mkCard (L "w") [] [], L "In Progress", InProgress, date_max)]
  /\ lower (L "To Do") <> L "done".
Proof.
  split; [reflexivity|].
  refine (proj1 (proj2 (focus_items_order fromisoformat_sample 739261
                          [(L "In Progress", [mkCard (L "w") [] []]);
                           (L "To Do",
                            [mkCard (L "a") [(L "due", L "2025-01-10")] [];
                             mkCard (L "b") [(L "due", L "2025-01-09")] []]);
                           (L "DONE",
                            [mkCard (L "z") [(L "due", L "2025-01-09")] []])])
                   (mkCard (L "a") [(L "due", L "2025-01-10")] [])
                   (L "To Do") DueToday 739261%Z _)).
  right. left. reflexivity.
Defined.

(* ================================================================== *)
(** * The step runner *)
(* ================================================================== *)

Lemma run_steps_from_done n idx results :
  (n <= idx)%nat -> run_steps_from n idx results = Some true.
Proof.
  intros H. apply Nat.ltb_ge in H.
  destruct results; cbn [run_steps_from]; now rewrite H.
Qed.

Lemma run_steps_from_true n results :
  forall idx,
    run_steps_from n idx results = Some true ->
    (n <= idx + completed results)%nat.
Proof.
  unfold completed.
  induction results as [|r rest IH]; intros idx; cbn [run_steps_from].
  - destruct (idx <? n)%nat eqn:E; [discriminate|].
    apply Nat.ltb_ge in E. cbn. lia.
  - destruct (idx <? n)%nat eqn:E.
    + destruct r as [| | |a]; cbn [filter length]; intros H.
      * apply IH in H. lia.
      * apply IH in H. lia.
      * apply IH in H. lia.
      * destruct (yn_is_true a); [discriminate|]. apply IH in H. lia.
    + apply Nat.ltb_ge in E. intros _. lia.
Qed.

Lemma run_steps_from_false n results :
  forall idx,
    run_steps_from n idx results = Some false
    <-> exists pre abandon rest,
          results = pre ++ StepQUIT abandon :: rest
          /\ yn_is_true abandon = true
          /\ run_steps_from n idx pre = None.
Proof.
  induction results as [|r rest IH]; intros idx.
  - split.
    + cbn [run_steps_from]. destruct (idx <? n)%nat; discriminate.
    + intros (pre & a & rest & E & _). now destruct pre.
  - destruct (idx <? n)%nat eqn:E.
    + split.
      * cbn [run_steps_from]. rewrite E. intros H.
        destruct r as [| | |a].
        -- apply IH in H as (pre & a & rest' & -> & Y & N).
           exists (StepTrue :: pre), a, rest'. cbn [app run_steps_from].
           now rewrite E.
        -- apply IH in H as (pre & a & rest' & -> & Y & N).
           exists (StepStay :: pre), a, rest'. cbn [app run_steps_from].
           now rewrite E.
        -- apply IH in H as (pre & a & rest' & -> & Y & N).
           exists (StepBACK :: pre), a, rest'. cbn [app run_steps_from].
           now rewrite E.
        -- destruct (yn_is_true a) eqn:Y.
           ++ exists [], a, rest. cbn [app run_steps_from]. now rewrite E.
           ++ apply IH in H as (pre & a' & rest' & -> & Y' & N).
              exists (StepQUIT a :: pre), a', rest'.
              cbn [app run_steps_from]. now rewrite E, Y.
      * intros (pre & a & rest' & Eq & Y & N).
        destruct pre as [|r' pre]; cbn [app] in Eq;
          injection Eq as -> ->; cbn [run_steps_from]; rewrite E.
        -- now rewrite Y.
        -- cbn [run_steps_from] in N. rewrite E in N.
           destruct r' as [| | |a'];
             try (apply IH; exists pre, a, rest'; now auto).
           destruct (yn_is_true a'); [discriminate|].
           apply IH. exists pre, a, rest'. now auto.
    + apply Nat.ltb_ge in E. rewrite run_steps_from_done by exact E.
      split; [discriminate|].
      intros (pre & a & rest' & _ & _ & N).
      now rewrite run_steps_from_done in N.
Qed.

(** X23. The step runner.  It returns [False] exactly when a step
    returned QUIT and the question whether to abandon was answered by
    a yes while the runner was still going; it returns [True] only
    after the steps have returned [True] as many times as there are
    steps; and while every step returns QUIT and the question is not
    answered by a yes, as at the end of the input, it never returns. *)
Theorem run_steps_outcome (n : nat) (results : list step_result) :
  (run_steps n results = Some false
   <-> exists pre abandon rest,
         results = pre ++ StepQUIT abandon :: rest
         /\ yn_is_true abandon = true
         /\ run_steps n pre = None)
  /\ (run_steps n results = Some true ->
      (n <= completed results)%nat)
  /\ ((0 < n)%nat ->
      Forall (fun r => exists abandon,
                         r = StepQUIT abandon
                         /\ yn_is_true abandon = false) results ->
      run_steps n results = None).
Proof.
  unfold run_steps. split; [apply run_steps_from_false|].
  split; [intros H; now apply run_steps_from_true in H|].
  intros Hn F. apply Nat.ltb_lt in Hn.
  induction F as [|r rest (a & -> & Y) F IH]; cbn [run_steps_from];
    rewrite Hn; [reflexivity|].
  now rewrite Y.
Qed.

Lemma run_steps_outcome_witness :
  run_steps 2 [StepTrue; StepBACK; StepQUIT (Some (L "n")); StepTrue;
               StepQUIT (Some (L ""))]
  = Some false
  /\ run_steps 1 [StepQUIT None; StepQUIT None; StepQUIT None] = None.
Proof.
  split.
  - apply (proj1 (run_steps_outcome 2 _)).
    exists [StepTrue; StepBACK; StepQUIT (Some (L "n")); StepTrue],
      (Some (L "")), [].
    repeat split.
  - apply (proj2 (proj2 (run_steps_outcome 1 _))); [lia|].
    repeat constructor; exists None; split; reflexivity.
Defined.
